(** * gopherjs compiler utilities (compiler/utils.go): a shallow embedding

    The development follows the layout of [compiler/utils.go]:
    the emission core ([Write], [writePos], [Printf], [CatchOutput]), the
    symbol naming registry ([newVariableWithLevel]), the type descriptor
    resolver ([objectName], [typeName]), the expression lowering helpers
    ([zeroValue], [translateSelection], [translateArgs]) and the output
    post-processor ([removeWhitespace], [rangeCheck]).

    Conventions.
    - A Go [string] is a Rocq [string] (a sequence of 8-bit characters), a
      Go [[]byte] is a [list byte].
    - A Go [int] is a [Z]; where the code stores the result of an
      addition the 64-bit wrap-around is written out ([wrap64]).
    - Code that can panic returns an [outcome]; loops that the Go code
      writes as [for { ... }] take a fuel argument and the file proves that
      the fuel they are given is enough. *)

From Stdlib Require Import ZArith List String Ascii Bool Lia Sorted.
From Stdlib.Strings Require Import Byte.
From stdpp Require Import base gmap strings list pretty.

Local Open Scope Z_scope.

(** ** Outcomes of Go code *)

Inductive outcome (A : Type) : Type :=
| Ok (a : A)
| Panic (msg : string)
| OutOfFuel.
Arguments Ok {A} a.
Arguments Panic {A} msg.
Arguments OutOfFuel {A}.

Definition obind {A B : Type} (m : outcome A) (k : A -> outcome B) : outcome B :=
  match m with
  | Ok a => k a
  | Panic msg => Panic msg
  | OutOfFuel => OutOfFuel
  end.

Notation "x <-- m ;; k" := (obind m (fun x => k))
  (at level 100, m at next level, right associativity).

Definition panics {A : Type} (m : outcome A) : Prop :=
  exists msg, m = Panic msg.

Definition returns {A : Type} (m : outcome A) : Prop :=
  exists a, m = Ok a.

(** ** Machine integers *)

(** The value of a Go [int] (64 bits, two's complement) after an
    arithmetic operation whose exact result is [z]. *)
Definition wrap64 (z : Z) : Z := (z + 2 ^ 63) mod 2 ^ 64 - 2 ^ 63.

Definition in_int64 (z : Z) : Prop := - 2 ^ 63 <= z < 2 ^ 63.

(** ** Characters and byte slices *)

(** The double quote character; string literals of this file never contain
    one, so those of the Go source are assembled with [dq]. *)
Definition dq : string := String (ascii_of_nat 34) EmptyString.

Definition bytes_of (s : string) : list byte := list_byte_of_string s.

Definition byte_is (c : byte) (n : N) : bool := N.eqb (Byte.to_N c) n.

(** [b[i]]: a run-time panic outside [0 <= i < len(b)]. *)
Definition index_at (b : list byte) (i : Z) : outcome byte :=
  if (0 <=? i) && (i <? Z.of_nat (length b))
  then match nth_error b (Z.to_nat i) with
       | Some c => Ok c
       | None => Panic "index out of range"
       end
  else Panic "index out of range".

(** [b[i:]]: a run-time panic outside [0 <= i <= len(b)]. *)
Definition slice_from (b : list byte) (i : Z) : outcome (list byte) :=
  if (0 <=? i) && (i <=? Z.of_nat (length b))
  then Ok (skipn (Z.to_nat i) b)
  else Panic "slice bounds out of range".

(** [b[:i]].  Go allows [i] up to the capacity of [b]; every use below is
    followed by [b = b[i:]], which panics as soon as [i > len(b)], so the
    panic is placed here, one statement early. *)
Definition slice_to (b : list byte) (i : Z) : outcome (list byte) :=
  if (0 <=? i) && (i <=? Z.of_nat (length b))
  then Ok (firstn (Z.to_nat i) b)
  else Panic "slice bounds out of range".

(** [bytes.IndexAny(b, chars)] for ASCII [chars]: the index of the first
    byte of [b] that occurs in [chars], or [-1]. *)
Fixpoint IndexAny (b : list byte) (chars : list byte) : Z :=
  match b with
  | [] => -1
  | c :: b' =>
      if existsb (Byte.eqb c) chars then 0
      else let r := IndexAny b' chars in
           if r =? -1 then -1 else r + 1
  end.

Fixpoint has_prefix (sep b : list byte) : bool :=
  match sep, b with
  | [], _ => true
  | _ :: _, [] => false
  | s :: sep', c :: b' => Byte.eqb s c && has_prefix sep' b'
  end.

(** [bytes.Index(b, sep)]: the index of the first instance of [sep] in
    [b], or [-1]. *)
Fixpoint Index (b : list byte) (sep : list byte) : Z :=
  if has_prefix sep b then 0
  else match b with
       | [] => -1
       | _ :: b' =>
           let r := Index b' sep in
           if r =? -1 then -1 else r + 1
       end.

(** ** Output post-processor *)

(** [rangeCheck]: the guarded index-access pattern. *)
Definition rangeCheck (pattern : string) (constantIndex array : bool) : string :=
  if constantIndex && array then pattern
  else
    let lengthProp := if array then "length" else "$length" in
    let check := "%2f >= %1e." +:+ lengthProp in
    let check := if negb constantIndex
                 then "(%2f < 0 || " +:+ check +:+ ")"
                 else check in
    "(" +:+ check +:+ " ? $throwRuntimeError(" +:+ dq +:+ "index out of range"
        +:+ dq +:+ ") : " +:+ pattern +:+ ")".

(** [needsSpace]: letters, digits, underscore and the dollar sigil. *)
Definition needsSpace (c : byte) : bool :=
  let n := Byte.to_N c in
  ((97 <=? n) && (n <=? 122) || (65 <=? n) && (n <=? 90)
   || (48 <=? n) && (n <=? 57) || (n =? 95) || (n =? 36))%N.

Definition is_backspace (c : byte) : bool := byte_is c 8.
Definition is_blank (c : byte) : bool :=
  byte_is c 32 || byte_is c 9 || byte_is c 10.
Definition is_dquote (c : byte) : bool := byte_is c 34.
Definition is_slash (c : byte) : bool := byte_is c 47.
Definition is_star (c : byte) : bool := byte_is c 42.
Definition is_minus (c : byte) : bool := byte_is c 45.

Definition quote_or_backslash : list byte := ["034"%byte; "092"%byte].
Definition comment_close : list byte := ["042"%byte; "047"%byte].

(** The inner loop of the string-literal case: copy up to the next quote
    or backslash; stop on a quote, copy a backslash together with the byte
    after it.  Returns the output and the rest of the input, which starts
    with the closing quote. *)
Fixpoint copy_string (fuel : nat) (out b : list byte)
  : outcome (list byte * list byte) :=
  match fuel with
  | O => OutOfFuel
  | S fuel' =>
      let i := IndexAny b quote_or_backslash in
      pre <-- slice_to b i ;;
      b1 <-- slice_from b i ;;
      let out1 := out ++ pre in
      c <-- index_at b1 0 ;;
      if is_dquote c then Ok (out1, b1)
      else
        two <-- slice_to b1 2 ;;
        b2 <-- slice_from b1 2 ;;
        copy_string fuel' (out1 ++ two) b2
  end.

(** The state of the main loop of [removeWhitespace]. *)
Record scan := Scan {
  sc_out : list byte;
  sc_previous : byte;
  sc_rest : list byte
}.

(** The statements after the [switch]: append [b[0]], remember it. *)
Definition emit_first (out : list byte) (b : list byte) : outcome scan :=
  c <-- index_at b 0 ;;
  rest <-- slice_from b 1 ;;
  Ok (Scan (out ++ [c]) c rest).

(** The test of the whitespace case,
    [(!needsSpace(previous) || !needsSpace(b[1])) && !(previous == '-' && b[1] == '-')],
    with Go's short-circuit evaluation: [b[1]] is read only when
    [previous] is identifier-like or a minus sign. *)
Definition blank_removable (previous : byte) (b : list byte) : outcome bool :=
  left <-- (if negb (needsSpace previous) then Ok true
            else b1 <-- index_at b 1 ;; Ok (negb (needsSpace b1))) ;;
  if left then
    both_minus <-- (if is_minus previous
                    then b1 <-- index_at b 1 ;; Ok (is_minus b1)
                    else Ok false) ;;
    Ok (negb both_minus)
  else Ok false.

(** One iteration of the main loop, entered with [len(b) > 0]. *)
Definition scan_step (s : scan) : outcome scan :=
  let out := sc_out s in
  let previous := sc_previous s in
  let b := sc_rest s in
  b0 <-- index_at b 0 ;;
  if is_backspace b0 then
    marker <-- slice_to b 5 ;;
    rest <-- slice_from b 5 ;;
    Ok (Scan (out ++ marker) previous rest)
  else if is_blank b0 then
    removable <-- blank_removable previous b ;;
    if removable
    then rest <-- slice_from b 1 ;; Ok (Scan out previous rest)
    else emit_first out b
  else if is_dquote b0 then
    rest <-- slice_from b 1 ;;
    r <-- copy_string (S (length rest)) (out ++ [b0]) rest ;;
    emit_first (fst r) (snd r)
  else if is_slash b0 then
    b1 <-- index_at b 1 ;;
    if is_star b1 then
      tail <-- slice_from b 2 ;;
      let i := Index tail comment_close in
      rest <-- slice_from b (i + 4) ;;
      Ok (Scan out previous rest)
    else emit_first out b
  else emit_first out b.

Fixpoint scan_loop (fuel : nat) (s : scan) : outcome (list byte) :=
  match fuel with
  | O => OutOfFuel
  | S fuel' =>
      match sc_rest s with
      | [] => Ok (sc_out s)
      | _ :: _ => s' <-- scan_step s ;; scan_loop fuel' s'
      end
  end.

Definition scan_start (b : list byte) : scan := Scan [] "000"%byte b.

(** [removeWhitespace].  [previous] starts as the zero byte; every
    iteration of the main loop consumes at least one byte, so
    [len(b) + 1] iterations are enough (lemma [removeWhitespace_total]). *)
Definition removeWhitespace (b : list byte) (minify : bool) : outcome (list byte) :=
  if negb minify then Ok b
  else scan_loop (S (length b)) (scan_start b).

(** *** Shapes of minifier input and output

    These predicates describe byte sequences from the point of view of the
    scanner; the theorems about [removeWhitespace] are stated with them. *)

Definition is_backslash (c : byte) : bool := byte_is c 92.

(** The body of a string literal: bytes other than the quote and the
    backslash, and backslash escapes of two bytes. *)
Inductive StrBody : list byte -> Prop :=
| StrBody_nil : StrBody []
| StrBody_plain c s :
    is_dquote c = false -> is_backslash c = false ->
    StrBody s -> StrBody (c :: s)
| StrBody_escape e c s :
    is_backslash e = true -> StrBody s -> StrBody (e :: c :: s).

(** What follows an opening quote that is never closed: a body, and then
    the end of the input or a backslash that is the last byte. *)
Inductive Unterminated : list byte -> Prop :=
| Unterminated_end : Unterminated []
| Unterminated_backslash e : is_backslash e = true -> Unterminated [e]
| Unterminated_plain c s :
    is_dquote c = false -> is_backslash c = false ->
    Unterminated s -> Unterminated (c :: s)
| Unterminated_escape e c s :
    is_backslash e = true -> Unterminated s -> Unterminated (e :: c :: s).

(** The scanner, started in [s], arrives in [s'] after some iterations of
    the main loop. *)
Inductive scan_reaches : scan -> scan -> Prop :=
| scan_reaches_here s : scan_reaches s s
| scan_reaches_step s s1 s2 :
    sc_rest s <> [] -> scan_step s = Ok s1 ->
    scan_reaches s1 s2 -> scan_reaches s s2.

(** The scan of [b] never arrives at a slash that is the last byte or
    that stands before a star: every slash of [b] outside its markers and
    string literals is followed by a byte that the scanner can read, and
    none opens a block comment. *)
Definition slashes_kept_from (s0 : scan) : Prop :=
  forall s c rest,
    scan_reaches s0 s -> sc_rest s = c :: rest -> is_slash c = true ->
    exists d rest', rest = d :: rest' /\ is_star d = false.

Definition slashes_kept (b : list byte) : Prop := slashes_kept_from (scan_start b).

(** The first byte of [l] is a slash. *)
Definition starts_with_slash (l : list byte) : bool :=
  match l with
  | c :: _ => is_slash c
  | [] => false
  end.

(** The whitespace case keeps a blank between [previous] and [next]. *)
Definition keeps_blank (previous next : byte) : bool :=
  needsSpace previous && needsSpace next || is_minus previous && is_minus next.

(** Sequences that the scanner, entered with a given [previous], copies
    byte for byte (as long as no slash opens a comment): markers, blanks
    that must stay, whole string literals and single other bytes. *)
Inductive Minified : byte -> list byte -> Prop :=
| Minified_nil previous : Minified previous []
| Minified_marker previous c payload rest :
    is_backspace c = true -> length payload = 4%nat ->
    Minified previous rest ->
    Minified previous (c :: payload ++ rest)
| Minified_blank previous w c rest :
    is_blank w = true -> keeps_blank previous c = true ->
    Minified w (c :: rest) ->
    Minified previous (w :: c :: rest)
| Minified_string previous q body q' rest :
    is_dquote q = true -> is_dquote q' = true -> StrBody body ->
    Minified q' rest ->
    Minified previous (q :: body ++ q' :: rest)
| Minified_other previous c rest :
    is_backspace c = false -> is_blank c = false -> is_dquote c = false ->
    Minified c rest ->
    Minified previous (c :: rest).

(** ** The front end: go/types and go/ast, as far as utils.go reads them

    The type checker is an external collaborator.  Its data are modelled
    as far as this file looks at them: a type is its shape, two types are
    [types.Identical] when their shapes are equal, and a named type is
    known by its declaring object, its underlying type being looked up in a
    table ([underlyingOf]) so that recursive declarations can be told. *)

Inductive BasicKind :=
| Invalid | Bool | Int | Int8 | Int16 | Int32 | Int64
| Uint | Uint8 | Uint16 | Uint32 | Uint64 | Uintptr
| Float32 | Float64 | Complex64 | Complex128 | String_ | UnsafePointer
| UntypedBool | UntypedInt | UntypedRune | UntypedFloat | UntypedComplex
| UntypedString | UntypedNil.

(** [types.BasicInfo] flags. *)
Definition IsBoolean : Z := Z.shiftl 1 0.
Definition IsInteger : Z := Z.shiftl 1 1.
Definition IsUnsigned : Z := Z.shiftl 1 2.
Definition IsFloat : Z := Z.shiftl 1 3.
Definition IsComplex : Z := Z.shiftl 1 4.
Definition IsString : Z := Z.shiftl 1 5.
Definition IsUntyped : Z := Z.shiftl 1 6.
Definition IsNumeric : Z := Z.lor IsInteger (Z.lor IsFloat IsComplex).

(** The method [Info] of [types.Basic], the table [types.Typ] of go/types. *)
Definition Info (k : BasicKind) : Z :=
  match k with
  | Invalid => 0
  | Bool => IsBoolean
  | Int | Int8 | Int16 | Int32 | Int64 => IsInteger
  | Uint | Uint8 | Uint16 | Uint32 | Uint64 | Uintptr => Z.lor IsInteger IsUnsigned
  | Float32 | Float64 => IsFloat
  | Complex64 | Complex128 => IsComplex
  | String_ => IsString
  | UnsafePointer => 0
  | UntypedBool => Z.lor IsBoolean IsUntyped
  | UntypedInt | UntypedRune => Z.lor IsInteger IsUntyped
  | UntypedFloat => Z.lor IsFloat IsUntyped
  | UntypedComplex => Z.lor IsComplex IsUntyped
  | UntypedString => Z.lor IsString IsUntyped
  | UntypedNil => IsUntyped
  end.

(** The method [String] of [types.Basic] for the kinds whose name [toJavaScriptType]
    reads (the aliases byte and rune have the kinds [Uint8] and [Int32]
    and are caught before their name is). *)
Definition basic_name (k : BasicKind) : string :=
  match k with
  | Invalid => "invalid type"
  | Bool => "bool" | Int => "int" | Int8 => "int8" | Int16 => "int16"
  | Int32 => "int32" | Int64 => "int64"
  | Uint => "uint" | Uint8 => "uint8" | Uint16 => "uint16"
  | Uint32 => "uint32" | Uint64 => "uint64" | Uintptr => "uintptr"
  | Float32 => "float32" | Float64 => "float64"
  | Complex64 => "complex64" | Complex128 => "complex128"
  | String_ => "string" | UnsafePointer => "unsafe.Pointer"
  | UntypedBool => "untyped bool" | UntypedInt => "untyped int"
  | UntypedRune => "untyped rune" | UntypedFloat => "untyped float"
  | UntypedComplex => "untyped complex" | UntypedString => "untyped string"
  | UntypedNil => "untyped nil"
  end.

Record Package := mkPackage {
  pkg_path : string;
  pkg_scope : nat
}.

Inductive ObjectClass := VarObj | ConstObj | TypeNameObj | FuncObj.

(** The identity of an object (its address in Go): declared by the front
    end, or allocated by this package ([types.NewTypeName], [types.NewVar]). *)
Inductive ObjectId := Declared (n : nat) | Allocated (n : nat).

(** [types.Object].  [obj_pkg] is [None] for the objects of the universe,
    [obj_parent] is the scope the object is declared in. *)
Record Object := mkObject {
  obj_id : ObjectId;
  obj_class : ObjectClass;
  obj_name : string;
  obj_pkg : option Package;
  obj_parent : option nat;
  obj_exported : bool
}.

Inductive ChanDir := SendRecv | SendOnly | RecvOnly.

Inductive type :=
| Basic (k : BasicKind)
| Named (o : Object)
| Array (len : Z) (elem : type)
| Slice (elem : type)
| Pointer (elem : type)
| Map (key elem : type)
| Chan (dir : ChanDir) (elem : type)
| Struct (fields : fieldlist)
| Signature (params results : typelist) (variadic : bool)
| Interface (methods : methodlist)
| Tuple (elems : typelist)
with typelist :=
| TNil
| TCons (t : type) (ts : typelist)
with fieldlist :=
| FNil
| FCons (name : string) (t : type) (tag : string) (fs : fieldlist)
with methodlist :=
| MNil
| MCons (name : string) (params results : typelist) (variadic : bool)
        (ms : methodlist).

Scheme type_mut := Induction for type Sort Prop
with typelist_mut := Induction for typelist Sort Prop
with fieldlist_mut := Induction for fieldlist Sort Prop
with methodlist_mut := Induction for methodlist Sort Prop.
Combined Scheme type_mutind from type_mut, typelist_mut, fieldlist_mut, methodlist_mut.

#[export] Instance BasicKind_eq_dec : EqDecision BasicKind.
Proof. solve_decision. Defined.
#[export] Instance Package_eq_dec : EqDecision Package.
Proof. solve_decision. Defined.
#[export] Instance ObjectClass_eq_dec : EqDecision ObjectClass.
Proof. solve_decision. Defined.
#[export] Instance ObjectId_eq_dec : EqDecision ObjectId.
Proof. solve_decision. Defined.
#[export] Instance Object_eq_dec : EqDecision Object.
Proof. solve_decision. Defined.
#[export] Instance ChanDir_eq_dec : EqDecision ChanDir.
Proof. solve_decision. Defined.

Fixpoint type_eq_dec (a b : type) {struct a} : {a = b} + {a <> b}
with typelist_eq_dec (a b : typelist) {struct a} : {a = b} + {a <> b}
with fieldlist_eq_dec (a b : fieldlist) {struct a} : {a = b} + {a <> b}
with methodlist_eq_dec (a b : methodlist) {struct a} : {a = b} + {a <> b}.
Proof.
  - decide equality; first [apply Z.eq_dec | apply bool_dec | apply (decide_rel eq)].
  - decide equality.
  - decide equality; apply string_dec.
  - decide equality; first [apply string_dec | apply bool_dec].
Defined.

#[export] Instance type_eq_decision : EqDecision type := type_eq_dec.

(** [types.Identical]. *)
Definition Identical (a b : type) : bool := bool_decide (a = b).

(** [ast.Expr] nodes are known by their address: nodes of the source, and
    identifiers made by [newIdent]. *)
Inductive Expr := SourceExpr (n : nat) | NewIdent (serial : nat) (name : string).

#[export] Instance Expr_eq_dec : EqDecision Expr.
Proof. solve_decision. Defined.

(** [types.TypeAndValue]: the type of an expression, and whether the
    expression has a constant value ([Value != nil]). *)
Record TypeAndValue := mkTypeAndValue {
  tv_Type : option type;
  tv_constant : bool
}.

(** [types.Error]. *)
Record Error := mkError {
  err_Fset : nat;
  err_Pos : Z;
  err_Msg : string;
  err_Soft : bool
}.

(** ** Contexts

    [pkgContext] is the state shared by all function contexts of one
    compilation unit ([c.p] in the source); [funcContext] is the state of
    one function, with the chain of its parents.  [allocs] counts the
    objects and nodes allocated so far and gives the next one its
    identity. *)
Record pkgContext := mkPkgContext {
  Pkg : Package;
  Types : list (Expr * TypeAndValue);
  Uses : list (Expr * Object);
  objectNames : list (Object * string);
  varPtrNames : list (Object * string);
  pkgVars : gmap string string;
  dependencies : list Object;
  escapingVars : list Object;
  anonTypes : list Object;
  anonTypeMap : list (type * Object);
  indentation : Z;
  minify : bool;
  errList : list Error;
  fileSet : nat;
  allocs : nat
}.

#[warnings="-register-all"]
Inductive funcContext := mkFuncContext {
  parent : option funcContext;
  allVars : gmap string Z;
  localVars : list string;
  output : list byte;
  delayedOutput : list byte;
  posAvailable : bool;
  pos : Z;
  Blocking : list Expr
}.

Record state := mkState {
  st_p : pkgContext;
  st_c : funcContext
}.

(** Assignments to single fields. *)
Definition set_output (out : list byte) (c : funcContext) : funcContext :=
  mkFuncContext (parent c) (allVars c) (localVars c) out (delayedOutput c)
    (posAvailable c) (pos c) (Blocking c).
Definition set_delayedOutput (d : list byte) (c : funcContext) : funcContext :=
  mkFuncContext (parent c) (allVars c) (localVars c) (output c) d
    (posAvailable c) (pos c) (Blocking c).
Definition set_posAvailable (b : bool) (c : funcContext) : funcContext :=
  mkFuncContext (parent c) (allVars c) (localVars c) (output c) (delayedOutput c)
    b (pos c) (Blocking c).
Definition set_pos (p : Z) (c : funcContext) : funcContext :=
  mkFuncContext (parent c) (allVars c) (localVars c) (output c) (delayedOutput c)
    (posAvailable c) p (Blocking c).
Definition set_allVars (m : gmap string Z) (c : funcContext) : funcContext :=
  mkFuncContext (parent c) m (localVars c) (output c) (delayedOutput c)
    (posAvailable c) (pos c) (Blocking c).
Definition set_localVars (l : list string) (c : funcContext) : funcContext :=
  mkFuncContext (parent c) (allVars c) l (output c) (delayedOutput c)
    (posAvailable c) (pos c) (Blocking c).
Definition set_parent (q : option funcContext) (c : funcContext) : funcContext :=
  mkFuncContext q (allVars c) (localVars c) (output c) (delayedOutput c)
    (posAvailable c) (pos c) (Blocking c).

Definition set_indentation (i : Z) (p : pkgContext) : pkgContext :=
  mkPkgContext (Pkg p) (Types p) (Uses p) (objectNames p) (varPtrNames p)
    (pkgVars p) (dependencies p) (escapingVars p) (anonTypes p) (anonTypeMap p)
    i (minify p) (errList p) (fileSet p) (allocs p).
Definition set_errList (l : list Error) (p : pkgContext) : pkgContext :=
  mkPkgContext (Pkg p) (Types p) (Uses p) (objectNames p) (varPtrNames p)
    (pkgVars p) (dependencies p) (escapingVars p) (anonTypes p) (anonTypeMap p)
    (indentation p) (minify p) l (fileSet p) (allocs p).
Definition set_dependencies (l : list Object) (p : pkgContext) : pkgContext :=
  mkPkgContext (Pkg p) (Types p) (Uses p) (objectNames p) (varPtrNames p)
    (pkgVars p) l (escapingVars p) (anonTypes p) (anonTypeMap p)
    (indentation p) (minify p) (errList p) (fileSet p) (allocs p).
Definition set_escapingVars (l : list Object) (p : pkgContext) : pkgContext :=
  mkPkgContext (Pkg p) (Types p) (Uses p) (objectNames p) (varPtrNames p)
    (pkgVars p) (dependencies p) l (anonTypes p) (anonTypeMap p)
    (indentation p) (minify p) (errList p) (fileSet p) (allocs p).
Definition set_objectNames (l : list (Object * string)) (p : pkgContext) : pkgContext :=
  mkPkgContext (Pkg p) (Types p) (Uses p) l (varPtrNames p)
    (pkgVars p) (dependencies p) (escapingVars p) (anonTypes p) (anonTypeMap p)
    (indentation p) (minify p) (errList p) (fileSet p) (allocs p).
Definition set_varPtrNames (l : list (Object * string)) (p : pkgContext) : pkgContext :=
  mkPkgContext (Pkg p) (Types p) (Uses p) (objectNames p) l
    (pkgVars p) (dependencies p) (escapingVars p) (anonTypes p) (anonTypeMap p)
    (indentation p) (minify p) (errList p) (fileSet p) (allocs p).
Definition set_Types (l : list (Expr * TypeAndValue)) (p : pkgContext) : pkgContext :=
  mkPkgContext (Pkg p) l (Uses p) (objectNames p) (varPtrNames p)
    (pkgVars p) (dependencies p) (escapingVars p) (anonTypes p) (anonTypeMap p)
    (indentation p) (minify p) (errList p) (fileSet p) (allocs p).
Definition set_Uses (l : list (Expr * Object)) (p : pkgContext) : pkgContext :=
  mkPkgContext (Pkg p) (Types p) l (objectNames p) (varPtrNames p)
    (pkgVars p) (dependencies p) (escapingVars p) (anonTypes p) (anonTypeMap p)
    (indentation p) (minify p) (errList p) (fileSet p) (allocs p).
Definition set_anon (ts : list Object) (m : list (type * Object)) (p : pkgContext)
  : pkgContext :=
  mkPkgContext (Pkg p) (Types p) (Uses p) (objectNames p) (varPtrNames p)
    (pkgVars p) (dependencies p) (escapingVars p) ts m
    (indentation p) (minify p) (errList p) (fileSet p) (allocs p).
Definition set_allocs (n : nat) (p : pkgContext) : pkgContext :=
  mkPkgContext (Pkg p) (Types p) (Uses p) (objectNames p) (varPtrNames p)
    (pkgVars p) (dependencies p) (escapingVars p) (anonTypes p) (anonTypeMap p)
    (indentation p) (minify p) (errList p) (fileSet p) n.

(** Go maps keyed by an address, as association lists: the first entry
    for a key is the current one. *)
Fixpoint assoc_get {K V : Type} `{EqDecision K} (k : K) (l : list (K * V)) : option V :=
  match l with
  | [] => None
  | (k', v) :: l' => if decide (k = k') then Some v else assoc_get k l'
  end.

Fixpoint assoc_set {K V : Type} `{EqDecision K} (k : K) (v : V) (l : list (K * V))
  : list (K * V) :=
  match l with
  | [] => [(k, v)]
  | (k', v') :: l' =>
      if decide (k = k') then (k, v) :: l' else (k', v') :: assoc_set k v l'
  end.

(** [m[k] = true] on a map used as a set. *)
Definition set_add {K : Type} `{EqDecision K} (k : K) (l : list K) : list K :=
  if decide (k ∈ l) then l else l ++ [k].

(** ** Emission core *)

Definition uint32 (z : Z) : Z := z mod 2 ^ 32.

Definition byte_of_Z (z : Z) : byte :=
  match Byte.of_N (Z.to_N (z mod 256)) with
  | Some b => b
  | None => "000"%byte
  end.

(** [binary.BigEndian.PutUint32]. *)
Definition BigEndian32 (v : Z) : list byte :=
  [byte_of_Z (Z.shiftr v 24); byte_of_Z (Z.shiftr v 16);
   byte_of_Z (Z.shiftr v 8); byte_of_Z v].

Definition SetPos (p : Z) (c : funcContext) : funcContext :=
  set_pos p (set_posAvailable true c).

(** [writePos], given the [Write] it calls: [binary.Write] hands the four
    bytes of the position to [c.Write] in one call. *)
Definition writePos_with (write : list byte -> funcContext -> outcome funcContext)
    (c : funcContext) : outcome funcContext :=
  if posAvailable c then
    let c := set_posAvailable false c in
    c <-- write ["008"%byte] c ;;
    write (BigEndian32 (uint32 (pos c))) c
  else Ok c.

(** [Write] and [writePos] call each other; [fuel] bounds the depth of
    the calls. *)
Fixpoint Write_depth (fuel : nat) (b : list byte) (c : funcContext)
  : outcome funcContext :=
  match fuel with
  | O => OutOfFuel
  | S fuel' =>
      c <-- writePos_with (Write_depth fuel') c ;;
      Ok (set_output (output c ++ b) c)
  end.

(** The calls nest twice at most: [Write], [writePos], [Write], and a
    [writePos] that finds no position (lemma [Write_depth_enough]). *)
Definition Write (b : list byte) (c : funcContext) : outcome funcContext :=
  Write_depth 2 b c.

Definition writePos (c : funcContext) : outcome funcContext :=
  writePos_with Write c.

(** Code that runs on a function context and the shared package context,
    and may panic. *)
Definition M (A : Type) : Type := state -> outcome (A * state).

Definition ret {A : Type} (a : A) : M A := fun st => Ok (a, st).

Definition mbind {A B : Type} (m : M A) (k : A -> M B) : M B :=
  fun st => r <-- m st ;; k (fst r) (snd r).

Notation "x <~ m ;; k" := (mbind m (fun x => k))
  (at level 100, m at next level, right associativity).

Definition mpanic {A : Type} (msg : string) : M A := fun _ => Panic msg.

(** A method of [funcContext] that leaves the package context alone. *)
Definition on_c (f : funcContext -> outcome funcContext) : M unit :=
  fun st => c <-- f (st_c st) ;; Ok (tt, mkState (st_p st) c).

Definition modify_c (f : funcContext -> funcContext) : M unit :=
  fun st => Ok (tt, mkState (st_p st) (f (st_c st))).

Definition modify_p (f : pkgContext -> pkgContext) : M unit :=
  fun st => Ok (tt, mkState (f (st_p st)) (st_c st)).

Definition get_c {A : Type} (f : funcContext -> A) : M A :=
  fun st => Ok (f (st_c st), st).

Definition get_p {A : Type} (f : pkgContext -> A) : M A :=
  fun st => Ok (f (st_p st), st).

Definition tab : byte := "009"%byte.
Definition newline : byte := "010"%byte.

(** [strings.Repeat("\t", n)], which panics on a negative count. *)
Definition tabs (n : Z) : outcome (list byte) :=
  if n <? 0 then Panic "strings: negative Repeat count"
  else Ok (repeat tab (Z.to_nat n)).

(** [Printf]; [text] is the result of formatting [format] with [values],
    which [fmt.Fprintf] hands to [c.Write] in one call. *)
Definition Printf (text : string) : M unit :=
  i <~ get_p indentation ;;
  fun st =>
    t <-- tabs i ;;
    (_ <~ on_c (Write t) ;;
     _ <~ on_c (Write (bytes_of text)) ;;
     _ <~ on_c (Write [newline]) ;;
     d <~ get_c delayedOutput ;;
     _ <~ on_c (Write d) ;;
     modify_c (set_delayedOutput [])) st.

(** [strings.Replace(s, "*/", "<star>/", -1)]. *)
Fixpoint replace_comment_close (s : string) : string :=
  match s with
  | EmptyString => EmptyString
  | String a s' =>
      match s' with
      | String b s'' =>
          if Ascii.eqb a "*" && Ascii.eqb b "/"
          then "<star>/" +:+ replace_comment_close s''
          else String a (replace_comment_close s')
      | EmptyString => String a EmptyString
      end
  end.

Definition PrintCond (cond : bool) (onTrue onFalse : string) : M unit :=
  if negb cond
  then Printf ("/* " +:+ replace_comment_close onTrue +:+ " */ " +:+ onFalse)
  else Printf onTrue.

(** [Indent]; the decrement is not deferred, a panic in [f] skips it. *)
Definition Indent (f : M unit) : M unit :=
  _ <~ modify_p (fun p => set_indentation (wrap64 (indentation p + 1)) p) ;;
  _ <~ f ;;
  modify_p (fun p => set_indentation (wrap64 (indentation p - 1)) p).

Definition CatchOutput (indent : Z) (f : M unit) : M (list byte) :=
  origoutput <~ get_c output ;;
  _ <~ modify_c (set_output []) ;;
  _ <~ modify_p (fun p => set_indentation (wrap64 (indentation p + indent)) p) ;;
  _ <~ f ;;
  _ <~ on_c writePos ;;
  catched <~ get_c output ;;
  _ <~ modify_c (set_output origoutput) ;;
  _ <~ modify_p (fun p => set_indentation (wrap64 (indentation p - indent)) p) ;;
  ret catched.

Definition Delayed (f : M unit) : M unit :=
  d <~ CatchOutput 0 f ;;
  modify_c (set_delayedOutput d).

(** *** Traces of the emission core

    A run of [SetPos] and [Write] calls, and the bytes such a run is meant
    to emit: every write that is the first one after a [SetPos] is
    preceded by the marker of the last position set, no other write is. *)
Inductive emit_op := DoSetPos (p : Z) | DoWrite (b : list byte).

Fixpoint run_ops (ops : list emit_op) (c : funcContext) : outcome funcContext :=
  match ops with
  | [] => Ok c
  | DoSetPos p :: ops' => run_ops ops' (SetPos p c)
  | DoWrite b :: ops' => c <-- Write b c ;; run_ops ops' c
  end.

Definition marker_of (p : Z) : list byte :=
  "008"%byte :: BigEndian32 (uint32 p).

Fixpoint rendered (pending : option Z) (ops : list emit_op) : list byte :=
  match ops with
  | [] => []
  | DoSetPos p :: ops' => rendered (Some p) ops'
  | DoWrite b :: ops' =>
      match pending with
      | Some p => marker_of p ++ b ++ rendered None ops'
      | None => b ++ rendered None ops'
      end
  end.

Definition pending_pos (c : funcContext) : option Z :=
  if posAvailable c then Some (pos c) else None.

(** The value of four bytes read as a big-endian number. *)
Definition decode32 (bs : list byte) : Z :=
  fold_left (fun acc b => acc * 256 + Z.of_N (Byte.to_N b)) bs 0.

(** ** Symbol naming registry *)

(** The first loop of [newVariableWithLevel]: is there a byte below ['0']
    or above ['z']? *)
Fixpoint has_disallowed_byte (name : string) : bool :=
  match name with
  | EmptyString => false
  | String a rest =>
      let b := N_of_ascii a in
      if ((b <? 48) || (122 <? b))%N then true else has_disallowed_byte rest
  end.

(** [string(r)] for a rune [r]: one byte below 128.  The runes converted
    in this file are [offset + j%26], within 40..122; any other rune is
    given as the three bytes of U+FFFD. *)
Definition string_of_rune (r : Z) : string :=
  if (0 <=? r) && (r <? 128)
  then String (ascii_of_N (Z.to_N r)) EmptyString
  else String (ascii_of_N 239) (String (ascii_of_N 191) (String (ascii_of_N 189) EmptyString)).

(** The inner loop of the minified branch: the digits of [j] in bijective
    base 26, most significant first.  [%] and [/] are Go's (truncated);
    [j/26 - 1] cannot leave the range of an [int]. *)
Fixpoint minified_digits (fuel : nat) (offset j : Z) (name : string) : outcome string :=
  match fuel with
  | O => OutOfFuel
  | S fuel' =>
      let name := string_of_rune (offset + Z.rem j 26) +:+ name in
      let j := Z.quot j 26 - 1 in
      if j =? -1 then Ok name else minified_digits fuel' offset j name
  end.

(** A run of the inner loop from [i]: every iteration but the last one
    makes [j] smaller, so [i + 1] iterations are enough for [0 <= i]. *)
Definition minified_name (pkgLevel : bool) (i : Z) : outcome string :=
  let offset := if pkgLevel then 65 else 97 in
  minified_digits (S (Z.to_nat i)) offset i EmptyString.

(** [c.allVars[name]]: the zero value for a missing key. *)
Definition count_of (vars : gmap string Z) (name : string) : Z :=
  default 0 (vars !! name).

(** The outer loop of the minified branch, from counter value [i].  The
    counter is not wrapped: it never exceeds the number of entries of
    [allVars] (lemma [first_free_bound]), which a Go map holds in an
    [int]. *)
Fixpoint first_free (fuel : nat) (pkgLevel : bool) (vars : gmap string Z) (i : Z)
  : outcome string :=
  match fuel with
  | O => OutOfFuel
  | S fuel' =>
      name <-- minified_name pkgLevel i ;;
      if count_of vars name =? 0 then Ok name
      else first_free fuel' pkgLevel vars (i + 1)
  end.

(** [for c2 := c.parent; c2 != nil; c2 = c2.parent { c2.allVars[name] = v }]. *)
Fixpoint reserve_in_chain (name : string) (v : Z) (c2 : funcContext) : funcContext :=
  match c2 with
  | mkFuncContext par vars locals out delayed avail p blocking =>
      mkFuncContext
        (match par with
         | Some c3 => Some (reserve_in_chain name v c3)
         | None => None
         end)
        (<[name := v]> vars) locals out delayed avail p blocking
  end.

Definition reserve_in_ancestors (name : string) (v : Z) (c2 : option funcContext)
  : option funcContext :=
  match c2 with
  | Some c2 => Some (reserve_in_chain name v c2)
  | None => None
  end.

(** [fmt.Sprintf("%s$%d", name, n)]. *)
Definition suffixed (name : string) (n : Z) : string :=
  name +:+ "$" +:+ pretty n.

(** [newVariableWithLevel].  The minified loop is given one iteration
    more than [allVars] has entries (lemma [first_free_total]). *)
Definition newVariableWithLevel (name : string) (pkgLevel : bool) : M string :=
  fun st =>
    let p := st_p st in
    let c := st_c st in
    if decide (name = EmptyString) then Panic "newVariable: empty name"
    else
      let name := if has_disallowed_byte name then "nonAsciiName" else name in
      name <-- (if minify p
                then first_free (S (size (allVars c))) pkgLevel (allVars c) 0
                else Ok name) ;;
      let n := count_of (allVars c) name in
      let c := set_allVars (<[name := wrap64 (n + 1)]> (allVars c)) c in
      let varName := if 0 <? n then suffixed name n else name in
      if pkgLevel then
        let c := set_parent (reserve_in_ancestors name (wrap64 (n + 1)) (parent c)) c in
        Ok (varName, mkState p c)
      else
        let c := set_localVars (localVars c ++ [varName]) c in
        Ok (varName, mkState p c).

Definition newVariable (name : string) : M string :=
  newVariableWithLevel name false.

(** A run of allocations on one context, in order. *)
Fixpoint allocate_all (requests : list (string * bool)) : M (list string) :=
  match requests with
  | [] => ret []
  | (name, pkgLevel) :: rest =>
      v <~ newVariableWithLevel name pkgLevel ;;
      vs <~ allocate_all rest ;;
      ret (v :: vs)
  end.

(** *** What the registry is meant to give *)

Definition is_dollar (a : ascii) : bool := (N_of_ascii a =? 36)%N.

Fixpoint no_dollar (s : string) : bool :=
  match s with
  | EmptyString => true
  | String a rest => negb (is_dollar a) && no_dollar rest
  end.

(** The base name the plain branch counts under. *)
Definition base_name (name : string) : string :=
  if has_disallowed_byte name then "nonAsciiName" else name.

(** The name handed out for the allocation number [n] (from 0) of a base. *)
Definition display_name (base : string) (n : Z) : string :=
  if 0 <? n then suffixed base n else base.

(** The names a run of plain allocations returns, read off the counts
    alone. *)
Fixpoint plain_names (vars : gmap string Z) (requests : list (string * bool))
  : list string :=
  match requests with
  | [] => []
  | (name, _) :: rest =>
      let base := base_name name in
      let n := count_of vars base in
      display_name base n :: plain_names (<[base := n + 1]> vars) rest
  end.

(** The same names in the words of the specification: the base name at
    its first allocation, the base name with [$k] at the allocation that
    has [k] earlier ones of the same base. *)
Fixpoint expected_names (seen : list string) (requests : list (string * bool))
  : list string :=
  match requests with
  | [] => []
  | (name, _) :: rest =>
      let base := base_name name in
      let k := Z.of_nat (count_occ string_dec seen base) in
      (if k =? 0 then base else base +:+ "$" +:+ pretty k)
        :: expected_names (base :: seen) rest
  end.

(** A registry with room for [room] more allocations: counts are not
    negative and stay below the largest [int], and the names counted
    hold no dollar sign. *)
Definition registry_room (room : Z) (vars : gmap string Z) : Prop :=
  0 <= room < 2 ^ 63 /\
  forall k v, vars !! k = Some v ->
    0 <= v /\ v + room < 2 ^ 63 /\ (0 < v -> no_dollar k = true).

(** [name] has been handed out by a registry with these counts. *)
Definition issued (vars : gmap string Z) (name : string) : Prop :=
  exists base n, 0 <= n < count_of vars base /\ name = display_name base n.

(** ** Auxiliary definitions of the statements *)

Definition range_fault : string :=
  " ? $throwRuntimeError(" +:+ dq +:+ "index out of range" +:+ dq +:+ ") : ".

Definition sample_js : list byte :=
  bytes_of ("x  =  " +:+ dq +:+ "a /* \" +:+ dq +:+ " b" +:+ dq +:+ " ; ")
  ++ ["008"; "000"; "047"; "042"; "047"]%byte ++ bytes_of "y - -1 ;".

Definition sample_min : list byte :=
  bytes_of ("x=" +:+ dq +:+ "a /* \" +:+ dq +:+ " b" +:+ dq +:+ ";")
  ++ ["008"; "000"; "047"; "042"; "047"]%byte ++ bytes_of "y- -1;".

(** The state in which the callback of [CatchOutput] starts. *)
Definition catch_entry (indent : Z) (st : state) : state :=
  mkState (set_indentation (wrap64 (indentation (st_p st) + indent)) (st_p st))
          (set_output [] (st_c st)).

Definition pending_marker (c : funcContext) : list byte :=
  match pending_pos c with
  | Some p => marker_of p
  | None => []
  end.

(** Counts that are not negative, on names without a dollar sign. *)
Definition counts_ok (vars : gmap string Z) : Prop :=
  forall k, 0 <= count_of vars k /\ (0 < count_of vars k -> no_dollar k = true).

Definition new_function_context : funcContext :=
  mkFuncContext None ∅ [] [] [] false 0 [].

Definition new_package_context (minified : bool) : pkgContext :=
  mkPkgContext (mkPackage "main" 0) [] [] [] [] ∅ [] [] [] [] 0 minified [] 0 0.

Definition new_state (minified : bool) : state :=
  mkState (new_package_context minified) new_function_context.

Definition letter (offset m : Z) : ascii := ascii_of_N (Z.to_N (offset + m)).

Definition level_offset (pkgLevel : bool) : Z := if pkgLevel then 65 else 97.

(** The counter value [j] names a reserved, or a free, name of a registry. *)
Definition counter_reserved (vars : gmap string Z) (pkgLevel : bool) (j : Z) : Prop :=
  exists w, minified_name pkgLevel j = Ok w /\ count_of vars w <> 0.

Definition counter_free (vars : gmap string Z) (pkgLevel : bool) (j : Z) : Prop :=
  exists w, minified_name pkgLevel j = Ok w /\ count_of vars w = 0.

(** The parent chain of a context, nearest first. *)
Fixpoint ancestors (c : funcContext) : list funcContext :=
  match c with
  | mkFuncContext par _ _ _ _ _ _ _ =>
      match par with
      | Some q => q :: ancestors q
      | None => []
      end
  end.

(** [name] is reserved with count [v] in every ancestor of [c]. *)
Definition reserved_above (name : string) (v : Z) (c : funcContext) : Prop :=
  Forall (fun a => count_of (allVars a) name = v) (ancestors c).

Definition requests_at (pkgLevel : bool) (names : list string) : list (string * bool) :=
  map (fun n => (n, pkgLevel)) names.

(** [outs] are the names of the counter values [idxs]. *)
Definition counter_names (pkgLevel : bool) (idxs : list Z) (outs : list string) : Prop :=
  Forall2 (fun i o => 0 <= i /\ minified_name pkgLevel i = Ok o) idxs outs.

(** Every character of [s] is one of the 26 letters from [offset] on. *)
Fixpoint only_letters (offset : Z) (s : string) : bool :=
  match s with
  | EmptyString => true
  | String a rest =>
      (offset <=? Z.of_N (N_of_ascii a)) && (Z.of_N (N_of_ascii a) <? offset + 26)
      && only_letters offset rest
  end.

(** ** Type descriptor resolver *)

Definition ascii_to_upper (a : ascii) : ascii :=
  let n := N_of_ascii a in
  if ((97 <=? n) && (n <=? 122))%N then ascii_of_N (n - 32) else a.

Definition ascii_to_lower (a : ascii) : ascii :=
  let n := N_of_ascii a in
  if ((65 <=? n) && (n <=? 90))%N then ascii_of_N (n + 32) else a.

(** [strings.ToLower] and [strings.ToUpper] on the ASCII names this file
    applies them to. *)
Fixpoint ToLower (s : string) : string :=
  match s with
  | EmptyString => EmptyString
  | String a rest => String (ascii_to_lower a) (ToLower rest)
  end.

Fixpoint ToUpper (s : string) : string :=
  match s with
  | EmptyString => EmptyString
  | String a rest => String (ascii_to_upper a) (ToUpper rest)
  end.

Fixpoint string_skip (n : nat) (s : string) : string :=
  match n, s with
  | O, _ => s
  | S n', String _ rest => string_skip n' rest
  | S _, EmptyString => EmptyString
  end.

Fixpoint string_take (n : nat) (s : string) : string :=
  match n, s with
  | O, _ => EmptyString
  | S n', String a rest => String a (string_take n' rest)
  | S _, EmptyString => EmptyString
  end.

(** [s[i:]] and [s[:i]] on strings. *)
Definition str_from (s : string) (i : Z) : outcome string :=
  if (0 <=? i) && (i <=? Z.of_nat (String.length s))
  then Ok (string_skip (Z.to_nat i) s)
  else Panic "slice bounds out of range".

Definition str_to (s : string) (i : Z) : outcome string :=
  if (0 <=? i) && (i <=? Z.of_nat (String.length s))
  then Ok (string_take (Z.to_nat i) s)
  else Panic "slice bounds out of range".

(** [toJavaScriptType].  [types.Byte] and [types.Rune] are the kinds
    [Uint8] and [Int32]. *)
Definition toJavaScriptType (k : BasicKind) : outcome string :=
  match k with
  | UntypedInt => Ok "Int"
  | Uint8 => Ok "Uint8"
  | Int32 => Ok "Int32"
  | UnsafePointer => Ok "UnsafePointer"
  | _ =>
      let name := basic_name k in
      first <-- str_to name 1 ;;
      rest <-- str_from name 1 ;;
      Ok (ToUpper first +:+ rest)
  end.

Definition is64Bit (k : BasicKind) : bool :=
  bool_decide (k = Int64) || bool_decide (k = Uint64).
Definition isBoolean (k : BasicKind) : bool := negb (Z.land (Info k) IsBoolean =? 0).
Definition isComplex (k : BasicKind) : bool := negb (Z.land (Info k) IsComplex =? 0).
Definition isFloat (k : BasicKind) : bool := negb (Z.land (Info k) IsFloat =? 0).
Definition isInteger (k : BasicKind) : bool := negb (Z.land (Info k) IsInteger =? 0).
Definition isNumeric (k : BasicKind) : bool := negb (Z.land (Info k) IsNumeric =? 0).
Definition isString (k : BasicKind) : bool := negb (Z.land (Info k) IsString =? 0).
Definition isUnsigned (k : BasicKind) : bool := negb (Z.land (Info k) IsUnsigned =? 0).

(** What this file takes from its collaborators without looking inside:
    the underlying type of a named type (the type checker),
    [typesutil.IsJsObject], the table [reservedKeywords] and
    [strconv.Unquote] (whose error result [getJsTag] drops). *)
Record FrontEnd := mkFrontEnd {
  underlyingOf : Object -> type;
  IsJsObject : type -> bool;
  reservedKeywords : string -> bool;
  Unquote : string -> string
}.

Definition Underlying (fe : FrontEnd) (ty : type) : type :=
  match ty with
  | Named o => underlyingOf fe o
  | _ => ty
  end.

(** The name [%T] prints for a type. *)
Definition go_type_of (ty : type) : string :=
  match ty with
  | Basic _ => "*types.Basic" | Named _ => "*types.Named"
  | Array _ _ => "*types.Array" | Slice _ => "*types.Slice"
  | Pointer _ => "*types.Pointer" | Map _ _ => "*types.Map"
  | Chan _ _ => "*types.Chan" | Struct _ => "*types.Struct"
  | Signature _ _ _ => "*types.Signature" | Interface _ => "*types.Interface"
  | Tuple _ => "*types.Tuple"
  end.

Definition nl : string := String (ascii_of_nat 10) EmptyString.

(** [typeKind]. *)
Definition typeKind (fe : FrontEnd) (ty : type) : outcome string :=
  match Underlying fe ty with
  | Basic k => js <-- toJavaScriptType k ;; Ok ("$kind" +:+ js)
  | Array _ _ => Ok "$kindArray"
  | Chan _ _ => Ok "$kindChan"
  | Interface _ => Ok "$kindInterface"
  | Map _ _ => Ok "$kindMap"
  | Signature _ _ _ => Ok "$kindFunc"
  | Slice _ => Ok "$kindSlice"
  | Struct _ => Ok "$kindStruct"
  | Pointer _ => Ok "$kindPtr"
  | t => Panic ("Unhandled type: " +:+ go_type_of t +:+ nl)
  end.

Definition lift {A : Type} (o : outcome A) : M A :=
  fun st => a <-- o ;; Ok (a, st).

(** [o.Parent() == c.p.Pkg.Scope()] and [o.Pkg() != c.p.Pkg]. *)
Definition at_package_scope (p : pkgContext) (o : Object) : bool :=
  bool_decide (obj_parent o = Some (pkg_scope (Pkg p))).

Definition foreign (p : pkgContext) (o : Object) : bool :=
  negb (bool_decide (obj_pkg o = Some (Pkg p))).

(** [o.Pkg().Path()]: a nil package is dereferenced. *)
Definition package_path (o : Object) : outcome string :=
  match obj_pkg o with
  | Some pkg => Ok (pkg_path pkg)
  | None => Panic "invalid memory address or nil pointer dereference"
  end.

Definition is_var (o : Object) : bool := bool_decide (obj_class o = VarObj).
Definition is_var_or_const (o : Object) : bool :=
  bool_decide (obj_class o = VarObj) || bool_decide (obj_class o = ConstObj).

(** [objectName]. *)
Definition objectName (o : Object) : M string :=
  p <~ get_p id ;;
  _ <~ (if foreign p o || at_package_scope p o
        then modify_p (fun p => set_dependencies (set_add o (dependencies p)) p)
        else ret tt) ;;
  if foreign p o then
    path <~ lift (package_path o) ;;
    let pkgVar := match pkgVars p !! path with
                  | Some v => v
                  | None => "$packages[" +:+ dq +:+ path +:+ dq +:+ "]"
                  end in
    ret (pkgVar +:+ "." +:+ obj_name o)
  else if is_var_or_const o && obj_exported o && at_package_scope p o then
    ret ("$pkg." +:+ obj_name o)
  else
    known <~ get_p (fun p => assoc_get o (objectNames p)) ;;
    name <~ match known with
            | Some name => ret name
            | None =>
                name <~ newVariableWithLevel (obj_name o) (at_package_scope p o) ;;
                _ <~ modify_p (fun p => set_objectNames (assoc_set o name (objectNames p)) p) ;;
                ret name
            end ;;
    escaping <~ get_p (fun p => bool_decide (o ∈ escapingVars p)) ;;
    if is_var o && escaping then ret (name +:+ "[0]") else ret name.

(** [varPtrName]. *)
Definition varPtrName (v : Object) : M string :=
  known <~ get_p (fun p => assoc_get v (varPtrNames p)) ;;
  match known with
  | Some name => ret name
  | None =>
      p <~ get_p id ;;
      name <~ newVariableWithLevel (obj_name v +:+ "_ptr") (at_package_scope p v) ;;
      _ <~ modify_p (fun p => set_varPtrNames (assoc_set v name (varPtrNames p)) p) ;;
      ret name
  end.

(** [ast.IsExported] on the ASCII names made here: an upper-case first
    letter. *)
Definition exported_name (s : string) : bool :=
  match s with
  | String a _ => ((65 <=? N_of_ascii a) && (N_of_ascii a <=? 90))%N
  | EmptyString => false
  end.

(** The second half of [typeName], for a type that is none of the fixed
    cases: look the type up in [anonTypeMap]; if it is new, run
    [initArgs] ([init]), allocate a package-level name, make the fake
    [types.TypeName] and register it; record the dependency. *)
Definition resolveAnonymous (fe : FrontEnd) (ty : type) (init : M unit) : M string :=
  known <~ get_p (fun p => assoc_get ty (anonTypeMap p)) ;;
  anonType <~ match known with
              | Some anonType => ret anonType
              | None =>
                  _ <~ init ;;
                  kind <~ lift (typeKind fe ty) ;;
                  suffix <~ lift (str_from kind 5) ;;
                  varName <~ newVariableWithLevel (ToLower suffix +:+ "Type") true ;;
                  p <~ get_p id ;;
                  let anonType :=
                    mkObject (Allocated (allocs p)) TypeNameObj varName
                      (Some (Pkg p)) None (exported_name varName) in
                  _ <~ modify_p (fun p =>
                         set_allocs (S (allocs p))
                           (set_anon (anonTypes p ++ [anonType])
                              (assoc_set ty anonType (anonTypeMap p)) p)) ;;
                  ret anonType
              end ;;
  _ <~ modify_p (fun p => set_dependencies (set_add anonType (dependencies p)) p) ;;
  ret (obj_name anonType).

Definition discard {A : Type} (m : M A) : M unit := _ <~ m ;; ret tt.

(** [typeName], with the calls that [initArgs] makes for the type at
    hand written in place ([initArgs] itself follows). *)
Fixpoint typeName (fe : FrontEnd) (ty : type) {struct ty} : M string :=
  match ty with
  | Basic k => js <~ lift (toJavaScriptType k) ;; ret ("$" +:+ js)
  | Named o =>
      if decide (obj_name o = "error") then ret "$error" else objectName o
  | Interface MNil => ret "$emptyInterface"
  | Interface ms => resolveAnonymous fe ty (initMethods fe ms)
  | Array _ elem => resolveAnonymous fe ty (discard (typeName fe elem))
  | Chan _ elem => resolveAnonymous fe ty (discard (typeName fe elem))
  | Map key elem =>
      resolveAnonymous fe ty (_ <~ typeName fe key ;; discard (typeName fe elem))
  | Pointer elem => resolveAnonymous fe ty (discard (typeName fe elem))
  | Slice elem => resolveAnonymous fe ty (discard (typeName fe elem))
  | Signature params results _ =>
      resolveAnonymous fe ty (_ <~ typeNames fe params ;; typeNames fe results)
  | Struct fields => resolveAnonymous fe ty (initFields fe fields)
  | Tuple _ => resolveAnonymous fe ty (mpanic "invalid type")
  end
with typeNames (fe : FrontEnd) (ts : typelist) {struct ts} : M unit :=
  match ts with
  | TNil => ret tt
  | TCons t ts' => _ <~ typeName fe t ;; typeNames fe ts'
  end
with initFields (fe : FrontEnd) (fs : fieldlist) {struct fs} : M unit :=
  match fs with
  | FNil => ret tt
  | FCons _ t _ fs' => _ <~ typeName fe t ;; initFields fe fs'
  end
with initMethods (fe : FrontEnd) (ms : methodlist) {struct ms} : M unit :=
  match ms with
  | MNil => ret tt
  | MCons _ params results _ ms' =>
      _ <~ typeNames fe params ;;
      _ <~ typeNames fe results ;;
      initMethods fe ms'
  end.

(** Modelled from the spec: [initArgs] is not part of the sources at hand.
    The specification has the resolution of an anonymous type first force
    the resolution of the types it contains, "so its dependency closure is
    complete before first use": the element of an array, channel, pointer
    or slice, the key and the element of a map, the field types of a
    struct, the parameter and result types of a signature and of the
    methods of an interface; [typeName] discards its result.  Any other
    type is invalid. *)
Definition initArgs (fe : FrontEnd) (ty : type) : M unit :=
  match ty with
  | Array _ elem => discard (typeName fe elem)
  | Chan _ elem => discard (typeName fe elem)
  | Interface ms => initMethods fe ms
  | Map key elem => _ <~ typeName fe key ;; discard (typeName fe elem)
  | Pointer elem => discard (typeName fe elem)
  | Slice elem => discard (typeName fe elem)
  | Signature params results _ => _ <~ typeNames fe params ;; typeNames fe results
  | Struct fields => initFields fe fields
  | _ => mpanic "invalid type"
  end.

(** [zeroValue]. *)
Definition zeroValue (fe : FrontEnd) (ty : type) : M string :=
  if IsJsObject fe ty then ret "null"
  else
    match Underlying fe ty with
    | Basic k =>
        if is64Bit k || isComplex k then
          t <~ typeName fe ty ;; ret ("new " +:+ t +:+ "(0, 0)")
        else if isBoolean k then ret "false"
        else if isNumeric k || bool_decide (k = UnsafePointer) then ret "0"
        else if isString k then ret (dq +:+ dq)
        else if bool_decide (k = UntypedNil) then mpanic "Zero value for untyped nil."
        else mpanic "Unhandled type"
    | Array _ _ => t <~ typeName fe ty ;; ret (t +:+ ".zero()")
    | Signature _ _ _ => ret "$throwNilPointerError"
    | Slice _ => t <~ typeName fe ty ;; ret (t +:+ ".nil")
    | Struct _ => t <~ typeName fe ty ;; ret ("new " +:+ t +:+ ".ptr()")
    | Map _ _ => ret "false"
    | Interface _ => ret "$ifaceNil"
    | _ => t <~ typeName fe ty ;; ret (t +:+ ".nil")
    end.

(** *** Statements about the resolver *)

(** [m] returns from every state. *)
Definition total {A : Type} (m : M A) : Prop :=
  forall st, exists a st', m st = Ok (a, st').

(** A named type the resolver can name: the universe's [error], or a type
    with a name and a package. *)
Definition wf_object (o : Object) : Prop :=
  obj_name o = "error" \/ (obj_name o <> EmptyString /\ obj_pkg o <> None).

(** Types as the type checker hands them over: no tuple in the place of
    a type, named types well formed. *)
Fixpoint wf_type (ty : type) : Prop :=
  match ty with
  | Basic _ => True
  | Named o => wf_object o
  | Array _ elem | Slice elem | Pointer elem | Chan _ elem => wf_type elem
  | Map key elem => wf_type key /\ wf_type elem
  | Struct fields => wf_fields fields
  | Signature params results _ => wf_types params /\ wf_types results
  | Interface ms => wf_methods ms
  | Tuple _ => False
  end
with wf_types (ts : typelist) : Prop :=
  match ts with
  | TNil => True
  | TCons t ts' => wf_type t /\ wf_types ts'
  end
with wf_fields (fs : fieldlist) : Prop :=
  match fs with
  | FNil => True
  | FCons _ t _ fs' => wf_type t /\ wf_fields fs'
  end
with wf_methods (ms : methodlist) : Prop :=
  match ms with
  | MNil => True
  | MCons _ params results _ ms' =>
      wf_types params /\ wf_types results /\ wf_methods ms'
  end.

(** The number of nodes of a type: a bound on the names its resolution
    allocates. *)
Fixpoint tsize (ty : type) : Z :=
  match ty with
  | Basic _ => 1
  | Named _ => 1
  | Array _ elem | Slice elem | Pointer elem | Chan _ elem => 1 + tsize elem
  | Map key elem => 1 + tsize key + tsize elem
  | Struct fields => 1 + fsize fields
  | Signature params results _ => 1 + tssize params + tssize results
  | Interface ms => 1 + msize ms
  | Tuple elems => 1 + tssize elems
  end
with tssize (ts : typelist) : Z :=
  match ts with
  | TNil => 0
  | TCons t ts' => tsize t + tssize ts'
  end
with fsize (fs : fieldlist) : Z :=
  match fs with
  | FNil => 0
  | FCons _ t _ fs' => tsize t + fsize fs'
  end
with msize (ms : methodlist) : Z :=
  match ms with
  | MNil => 0
  | MCons _ params results _ ms' => tssize params + tssize results + msize ms'
  end.

(** The types [typeName] sends through [anonTypeMap]: every type but the
    basic types, the named types and the empty interface. *)
Definition anonymous (ty : type) : bool :=
  match ty with
  | Basic _ | Named _ | Interface MNil => false
  | _ => true
  end.

(** The state of the resolver on one function context: the registry has
    room for [room] more allocations, every registered descriptor name has
    been handed out by the registry, and no two registered types share a
    descriptor name. *)
Definition resolver_ok (room : Z) (st : state) : Prop :=
  registry_room room (allVars (st_c st))
  /\ (forall t a, assoc_get t (anonTypeMap (st_p st)) = Some a ->
        issued (allVars (st_c st)) (obj_name a))
  /\ (forall t1 t2 a1 a2,
        assoc_get t1 (anonTypeMap (st_p st)) = Some a1 ->
        assoc_get t2 (anonTypeMap (st_p st)) = Some a2 ->
        obj_name a1 = obj_name a2 -> t1 = t2).

(** Registered descriptors stay registered. *)
Definition descriptors_kept (st st' : state) : Prop :=
  forall t a, assoc_get t (anonTypeMap (st_p st)) = Some a ->
              assoc_get t (anonTypeMap (st_p st')) = Some a.

(** A run from [st] to [st'] that uses up to [n] allocations. *)
Definition uses_room (n : Z) (st st' : state) : Prop :=
  (forall room, 0 <= room -> resolver_ok (room + n) st -> resolver_ok room st')
  /\ descriptors_kept st st'.

Definition costs {A : Type} (n : Z) (m : M A) : Prop :=
  forall st a st', m st = Ok (a, st') -> uses_room n st st'.

(** *** The resolver along the parent chain *)

(** The registry [low] counts no name higher than the registry [high]. *)
Definition counts_below (low high : gmap string Z) : Prop :=
  forall k, count_of low k <= count_of high k.

(** The registries of a context and of its ancestors, nearest first. *)
Definition registries (c : funcContext) : list (gmap string Z) :=
  map allVars (c :: ancestors c).

(** [name] is the name of a descriptor registered in [p]. *)
Definition registered (p : pkgContext) (name : string) : Prop :=
  exists t a, assoc_get t (anonTypeMap p) = Some a /\ obj_name a = name.

(** Every registry of the list has room for [room] more allocations and
    has handed out every name of [known], and counts no name higher than
    the registries before it in the list. *)
Fixpoint chain_registries_ok (room : Z) (known : string -> Prop)
    (l : list (gmap string Z)) : Prop :=
  match l with
  | [] => True
  | vars :: rest =>
      registry_room room vars
      /\ (forall name, known name -> issued vars name)
      /\ Forall (fun low => counts_below low vars) rest
      /\ chain_registries_ok room known rest
  end.

(** The state of the resolver on a function context and its ancestors:
    [resolver_ok] on the context, and on every ancestor a registry that
    has handed out every registered descriptor name and that the
    registries of its descendants have kept up with. *)
Definition chain_ok (room : Z) (st : state) : Prop :=
  resolver_ok room st
  /\ chain_registries_ok room (registered (st_p st)) (registries (st_c st)).

Definition chain_costs {A : Type} (n : Z) (m : M A) : Prop :=
  forall st a st', m st = Ok (a, st') ->
  forall room, 0 <= room ->
    chain_registries_ok (room + n) (registered (st_p st)) (registries (st_c st)) ->
    chain_registries_ok room (registered (st_p st')) (registries (st_c st')).

(** *** The zero values in the words of the specification *)

Inductive zero_form :=
| ZeroPair | ZeroFalse | ZeroNumber | ZeroEmptyString
| ZeroOfUntypedNil | ZeroUnhandled.

(** The basic kinds by the form of their zero value: the 64-bit integer
    and complex kinds, the booleans, the strings, the other numeric kinds
    with [unsafe.Pointer], the untyped nil and the invalid kind. *)
Definition basic_zero (k : BasicKind) : zero_form :=
  match k with
  | Int64 | Uint64 | Complex64 | Complex128 | UntypedComplex => ZeroPair
  | Bool | UntypedBool => ZeroFalse
  | String_ | UntypedString => ZeroEmptyString
  | UntypedNil => ZeroOfUntypedNil
  | Invalid => ZeroUnhandled
  | Int | Int8 | Int16 | Int32 | Uint | Uint8 | Uint16 | Uint32 | Uintptr
  | Float32 | Float64 | UnsafePointer
  | UntypedInt | UntypedRune | UntypedFloat => ZeroNumber
  end.

(** An expression built around the descriptor name of [ty]. *)
Definition with_descriptor (fe : FrontEnd) (ty : type) (f : string -> string)
  : M string :=
  t <~ typeName fe ty ;; ret (f t).

Definition expected_zero (fe : FrontEnd) (ty : type) : M string :=
  match Underlying fe ty with
  | Basic k =>
      match basic_zero k with
      | ZeroPair => with_descriptor fe ty (fun t => "new " +:+ t +:+ "(0, 0)")
      | ZeroFalse => ret "false"
      | ZeroNumber => ret "0"
      | ZeroEmptyString => ret (dq +:+ dq)
      | ZeroOfUntypedNil => mpanic "Zero value for untyped nil."
      | ZeroUnhandled => mpanic "Unhandled type"
      end
  | Signature _ _ _ => ret "$throwNilPointerError"
  | Map _ _ => ret "false"
  | Interface _ => ret "$ifaceNil"
  | Array _ _ => with_descriptor fe ty (fun t => t +:+ ".zero()")
  | Struct _ => with_descriptor fe ty (fun t => "new " +:+ t +:+ ".ptr()")
  | Slice _ | Pointer _ | Chan _ _ | Named _ | Tuple _ =>
      with_descriptor fe ty (fun t => t +:+ ".nil")
  end.

(** A front end for examples: no named type, no interop object, no
    reserved word, quotes stripped by [Unquote]. *)
Definition sample_front_end : FrontEnd :=
  mkFrontEnd (fun _ => Basic Invalid) (fun _ => false) (fun _ => false)
    (fun s => string_take (String.length s - 2) (string_skip 1 s)).

(** ** Selector paths *)

(** [tag[i]] on a string. *)
Definition str_at (s : string) (i : Z) : outcome ascii :=
  if (0 <=? i) && (i <? Z.of_nat (String.length s))
  then match String.get (Z.to_nat i) s with
       | Some a => Ok a
       | None => Panic "index out of range"
       end
  else Panic "index out of range".

Definition str_len (s : string) : Z := Z.of_nat (String.length s).

(** [for i < len(tag) && p(tag[i]) { i++ }]: the loop ends at the first
    index at which the test fails; it runs [len(tag) - i] times at most. *)
Fixpoint skip_while (fuel : nat) (p : ascii -> bool) (tag : string) (i : Z)
  : outcome Z :=
  match fuel with
  | O => OutOfFuel
  | S fuel' =>
      if i <? str_len tag then
        a <-- str_at tag i ;;
        if p a then skip_while fuel' p tag (i + 1) else Ok i
      else Ok i
  end.

(** The scan of the quoted value: a backslash skips the byte after it. *)
Fixpoint skip_quoted (fuel : nat) (tag : string) (i : Z) : outcome Z :=
  match fuel with
  | O => OutOfFuel
  | S fuel' =>
      if i <? str_len tag then
        a <-- str_at tag i ;;
        if Ascii.eqb a (ascii_of_nat 34) then Ok i
        else
          let i := if Ascii.eqb a "\" then i + 1 else i in
          skip_quoted fuel' tag (i + 1)
      else Ok i
  end.

Definition is_space (a : ascii) : bool := Ascii.eqb a " ".
Definition is_key_char (a : ascii) : bool :=
  negb (Ascii.eqb a " ") && negb (Ascii.eqb a ":")
  && negb (Ascii.eqb a (ascii_of_nat 34)).

(** [getJsTag]: the value of the key [js] in a struct tag, or the empty
    string.  Each round of the outer loop that goes on has made the tag
    shorter. *)
Fixpoint getJsTag_loop (fuel : nat) (fe : FrontEnd) (tag : string) : outcome string :=
  match fuel with
  | O => OutOfFuel
  | S fuel' =>
      if decide (tag = EmptyString) then Ok EmptyString
      else
        i <-- skip_while (S (String.length tag)) is_space tag 0 ;;
        tag <-- str_from tag i ;;
        if decide (tag = EmptyString) then Ok EmptyString
        else
          i <-- skip_while (S (String.length tag)) is_key_char tag 0 ;;
          stop <-- (if str_len tag <=? i + 1 then Ok true
                    else
                      a <-- str_at tag i ;;
                      if negb (Ascii.eqb a ":") then Ok true
                      else
                        b <-- str_at tag (i + 1) ;;
                        Ok (negb (Ascii.eqb b (ascii_of_nat 34)))) ;;
          if (stop : bool) then Ok EmptyString
          else
            name <-- str_to tag i ;;
            tag <-- str_from tag (i + 1) ;;
            i <-- skip_quoted (S (String.length tag)) tag 1 ;;
            if str_len tag <=? i then Ok EmptyString
            else
              qvalue <-- str_to tag (i + 1) ;;
              tag <-- str_from tag (i + 1) ;;
              if decide (name = "js") then Ok (Unquote fe qvalue)
              else getJsTag_loop fuel' fe tag
  end.

Definition getJsTag (fe : FrontEnd) (tag : string) : outcome string :=
  getJsTag_loop (S (String.length tag)) fe tag.

(** The methods of [types.Struct]. *)
Fixpoint NumFields (fs : fieldlist) : Z :=
  match fs with
  | FNil => 0
  | FCons _ _ _ fs' => 1 + NumFields fs'
  end.

Fixpoint field_at (fs : fieldlist) (n : nat) : option (string * type * string) :=
  match fs, n with
  | FNil, _ => None
  | FCons name t tag _, O => Some (name, t, tag)
  | FCons _ _ _ fs', S n' => field_at fs' n'
  end.

(** [s.Field(i)]: a panic outside the fields. *)
Definition Field (fs : fieldlist) (i : Z) : outcome (string * type * string) :=
  if i <? 0 then Panic "index out of range"
  else match field_at fs (Z.to_nat i) with
       | Some f => Ok f
       | None => Panic "index out of range"
       end.

(** [s.Tag(i)]: the empty string past the last tag. *)
Definition Tag (fs : fieldlist) (i : Z) : outcome string :=
  if i <? NumFields fs then f <-- Field fs i ;; Ok (snd f)
  else Ok EmptyString.

(** [fieldName]. *)
Definition fieldName (fe : FrontEnd) (fs : fieldlist) (i : Z) : outcome string :=
  f <-- Field fs i ;;
  let name := fst (fst f) in
  if bool_decide (name = "_") || reservedKeywords fe name
  then Ok (suffixed name i)
  else Ok name.

(** The result of the inner loop of [translateSelection]. *)
Inductive js_search :=
| JsFound (fields : list string)
| JsMissing.

(** The inner loop of [translateSelection]: follow the first field of
    struct after struct until its type is the interop object type. *)
Fixpoint follow_first_fields (fuel : nat) (fe : FrontEnd) (s : fieldlist)
    (fields : list string) : outcome js_search :=
  match fuel with
  | O => OutOfFuel
  | S fuel' =>
      name <-- fieldName fe s 0 ;;
      let fields := fields ++ [name] in
      f <-- Field s 0 ;;
      let ft := snd (fst f) in
      if IsJsObject fe ft then Ok (JsFound fields)
      else
        let ft := Underlying fe ft in
        let ft := match ft with
                  | Pointer elem => Underlying fe elem
                  | _ => ft
                  end in
        match ft with
        | Struct s' =>
            if NumFields s' =? 0 then Ok JsMissing
            else follow_first_fields fuel' fe s' fields
        | _ => Ok JsMissing
        end
  end.

Definition missing_js_field (jsFieldName : string) : string :=
  "could not find field with type *js.Object for 'js' tag of field '"
  +:+ jsFieldName +:+ "'".

(** [types.Selection]: the receiver type and the path of field indices. *)
Record Selection := mkSelection {
  sel_Recv : type;
  sel_Index : list Z
}.

(** The loop of [translateSelection] over the indices of the path. *)
Fixpoint translateSelection_path (fuel : nat) (fe : FrontEnd) (pos : Z)
    (t : type) (index : list Z) (fields : list string)
  : M (list string * string) :=
  match index with
  | [] => ret (fields, EmptyString)
  | i :: rest =>
      let t := match t with
               | Pointer elem => elem
               | _ => t
               end in
      match Underlying fe t with
      | Struct s =>
          tag <~ lift (Tag s i) ;;
          jsTag <~ lift (getJsTag fe tag) ;;
          if negb (bool_decide (jsTag = EmptyString)) then
            f <~ lift (Field s i) ;;
            let jsFieldName := fst (fst f) in
            found <~ lift (follow_first_fields fuel fe s fields) ;;
            match found with
            | JsFound fields => ret (fields, jsTag)
            | JsMissing =>
                _ <~ modify_p (fun p =>
                       set_errList
                         (errList p ++
                          [mkError (fileSet p) pos (missing_js_field jsFieldName) true])
                         p) ;;
                ret ([], EmptyString)
            end
          else
            name <~ lift (fieldName fe s i) ;;
            f <~ lift (Field s i) ;;
            translateSelection_path fuel fe pos (snd (fst f)) rest (fields ++ [name])
      | other =>
          mpanic ("interface conversion: types.Type is " +:+ go_type_of other
                  +:+ ", not *types.Struct")
      end
  end.

(** [translateSelection]; [fuel] bounds the rounds of the inner loop,
    which the source does not bound. *)
Definition translateSelection (fuel : nat) (fe : FrontEnd) (sel : Selection) (pos : Z)
  : M (list string * string) :=
  translateSelection_path fuel fe pos (sel_Recv sel) (sel_Index sel) [].

(** *** A struct that embeds a pointer to itself

    [type T struct { *T; x int `js:"x"` }], and the selection [t.x]. *)
Definition js_x : string := "js:" +:+ dq +:+ "x" +:+ dq.

Definition T_object : Object :=
  mkObject (Declared 1) TypeNameObj "T" (Some (mkPackage "main" 0)) (Some 0%nat) true.

Definition T_fields : fieldlist :=
  FCons "T" (Pointer (Named T_object)) EmptyString
    (FCons "x" (Basic Int) js_x FNil).

Definition T_front_end : FrontEnd :=
  mkFrontEnd (fun _ => Struct T_fields) (fun _ => false) (fun _ => false)
    (Unquote sample_front_end).

Definition T_selection : Selection := mkSelection (Named T_object) [1].

(** *** Where the first fields lead *)

(** The struct behind the first field of [s], if there is one with
    fields: the underlying type of the field's type, through one pointer. *)
Definition behind_first_field (fe : FrontEnd) (s : fieldlist) : option fieldlist :=
  match field_at s 0 with
  | Some (_, ft, _) =>
      let u := Underlying fe ft in
      let u := match u with
               | Pointer elem => Underlying fe elem
               | _ => u
               end in
      match u with
      | Struct s' => if NumFields s' =? 0 then None else Some s'
      | _ => None
      end
  | None => None
  end.

Definition first_is_js (fe : FrontEnd) (s : fieldlist) : bool :=
  match field_at s 0 with
  | Some (_, ft, _) => IsJsObject fe ft
  | None => false
  end.

(** The first fields lead from [s] to a field of the interop object type,
    along the accessors [names]. *)
Inductive leads_to_js (fe : FrontEnd) : fieldlist -> list string -> Prop :=
| leads_here s name :
    fieldName fe s 0 = Ok name -> first_is_js fe s = true ->
    leads_to_js fe s [name]
| leads_on s s' name names :
    fieldName fe s 0 = Ok name -> first_is_js fe s = false ->
    behind_first_field fe s = Some s' -> leads_to_js fe s' names ->
    leads_to_js fe s (name :: names).

(** The first fields lead from [s] to a field that is neither of the
    interop object type nor a struct with fields. *)
Inductive leads_nowhere (fe : FrontEnd) : fieldlist -> Prop :=
| nowhere_here s name :
    fieldName fe s 0 = Ok name -> first_is_js fe s = false ->
    behind_first_field fe s = None -> leads_nowhere fe s
| nowhere_on s s' name :
    fieldName fe s 0 = Ok name -> first_is_js fe s = false ->
    behind_first_field fe s = Some s' -> leads_nowhere fe s' ->
    leads_nowhere fe s.

(** *** Structs for the statements about selector paths

    [js.Object] of the interop package, a front end that knows it, and
    [struct { *js.Object; x int `js:"x"` }] and
    [struct { Inner struct { a int }; x int `js:"x"` }]. *)
Definition js_Object : Object :=
  mkObject (Declared 2) TypeNameObj "Object"
    (Some (mkPackage "github.com/gopherjs/gopherjs/js" 1)) (Some 1%nat) true.

Definition interop_front_end : FrontEnd :=
  mkFrontEnd (fun _ => Struct (FCons "object" (Basic UnsafePointer) EmptyString FNil))
    (fun t => bool_decide (t = Pointer (Named js_Object)))
    (fun _ => false) (Unquote sample_front_end).

Definition wrapper_fields : fieldlist :=
  FCons "Object" (Pointer (Named js_Object)) EmptyString
    (FCons "x" (Basic Int) js_x FNil).

Definition inner_fields : fieldlist :=
  FCons "Inner" (Struct (FCons "a" (Basic Int) EmptyString FNil)) EmptyString
    (FCons "x" (Basic Int) js_x FNil).

(** The package context with one more soft error at [pos]. *)
Definition with_missing_js_field (pos : Z) (jsFieldName : string) (st : state) : state :=
  mkState
    (set_errList
       (errList (st_p st) ++
        [mkError (fileSet (st_p st)) pos (missing_js_field jsFieldName) true])
       (st_p st))
    (st_c st).

(** The loop of [translateSelection] stands at index [i] of the struct
    [s], and the field there has the [js] tag [jsTag]. *)
Definition at_js_field (fe : FrontEnd) (t : type) (s : fieldlist) (i : Z)
    (jsFieldName jsTag : string) : Prop :=
  Underlying fe (match t with Pointer elem => elem | _ => t end) = Struct s /\
  (exists f, Field s i = Ok f /\ fst (fst f) = jsFieldName /\
             getJsTag fe (snd f) = Ok jsTag) /\
  jsTag <> EmptyString.

(** ** Call arguments *)

(** The translators of expressions, which this file calls and does not
    define: [translateExpr], [translateImplicitConversion] and
    [translateImplicitConversionWithCloning], each followed by [String()],
    and [formatExpr] on the format [%s[%d]].  They run on the same
    contexts as the code here: they may print, allocate variables and
    record types. *)
Record Translators := mkTranslators {
  translateExpr : Expr -> M string;
  translateImplicitConversion : Expr -> type -> M string;
  translateImplicitConversionWithCloning : Expr -> type -> M string;
  formatExpr_index : string -> Z -> M string
}.

(** [setType]: the entry has no constant value. *)
Definition setType (e : Expr) (t : type) : M Expr :=
  _ <~ modify_p (fun p =>
         set_Types (assoc_set e (mkTypeAndValue (Some t) false) (Types p)) p) ;;
  ret e.

(** [newIdent]: a new identifier node and a new variable object for it. *)
Definition newIdent (name : string) (t : type) : M Expr :=
  n <~ get_p allocs ;;
  let ident := NewIdent n name in
  _ <~ modify_p (set_allocs (S n)) ;;
  _ <~ setType ident t ;;
  p <~ get_p id ;;
  let obj := mkObject (Allocated (allocs p)) VarObj name (Some (Pkg p)) None
               (exported_name name) in
  _ <~ modify_p (fun p =>
         set_allocs (S (allocs p))
           (set_objectNames (assoc_set obj name (objectNames p))
              (set_Uses (assoc_set ident obj (Uses p)) p))) ;;
  ret ident.

(** The methods of [types.Tuple]. *)
Fixpoint Len (ts : typelist) : Z :=
  match ts with
  | TNil => 0
  | TCons _ ts' => 1 + Len ts'
  end.

Fixpoint type_at (ts : typelist) (n : nat) : option type :=
  match ts, n with
  | TNil, _ => None
  | TCons t _, O => Some t
  | TCons _ ts', S n' => type_at ts' n'
  end.

(** [tuple.At(i).Type()]: a panic outside the tuple. *)
Definition At (ts : typelist) (i : Z) : outcome type :=
  if i <? 0 then Panic "index out of range"
  else match type_at ts (Z.to_nat i) with
       | Some t => Ok t
       | None => Panic "index out of range"
       end.

(** [strings.Join]. *)
Fixpoint Join (a : list string) (sep : string) : string :=
  match a with
  | [] => EmptyString
  | [s] => s
  | s :: rest => s +:+ sep +:+ Join rest sep
  end.

(** [c.p.Types[e].Value != nil]; an expression without an entry has the
    zero entry, which has no value. *)
Definition has_value (p : pkgContext) (e : Expr) : bool :=
  match assoc_get e (Types p) with
  | Some tv => tv_constant tv
  | None => false
  end.

(** The identifiers [tupleVar[0]], [tupleVar[1]], ... that stand for the
    results of a call used as the only argument. *)
Fixpoint tuple_idents (tr : Translators) (tupleVar : string) (elems : typelist) (i : Z)
  : M (list Expr) :=
  match elems with
  | TNil => ret []
  | TCons t rest =>
      name <~ formatExpr_index tr tupleVar i ;;
      ident <~ newIdent name t ;;
      idents <~ tuple_idents tr tupleVar rest (i + 1) ;;
      ret (ident :: idents)
  end.

(** The first step of [translateArgs]: one argument of tuple type is
    stored in [_tuple] and replaced by its components. *)
Definition expand_tuple (tr : Translators) (argExprs : list Expr) : M (list Expr) :=
  match argExprs with
  | [e] =>
      tv <~ get_p (fun p => assoc_get e (Types p)) ;;
      match tv with
      | Some (mkTypeAndValue (Some (Tuple elems)) _) =>
          tupleVar <~ newVariable "_tuple" ;;
          value <~ translateExpr tr e ;;
          _ <~ Printf (tupleVar +:+ " = " +:+ value +:+ ";") ;;
          tuple_idents tr tupleVar elems 0
      | _ => ret argExprs
      end
  | _ => ret argExprs
  end.

(** [varargType]: the element type of the slice that is the last
    parameter, when the call spreads no slice itself; [None] is [nil]. *)
Definition varargType_of (params : typelist) (variadic ellipsis : bool)
  : outcome (option type) :=
  if variadic && negb ellipsis then
    t <-- At params (Len params - 1) ;;
    match t with
    | Slice elem => Ok (Some elem)
    | other =>
        Panic ("interface conversion: types.Type is " +:+ go_type_of other
               +:+ ", not *types.Slice")
    end
  else Ok None.

(** The loop that sets [preserveOrder], over the arguments after the
    first. *)
Definition preserveOrder_of (blocking : list Expr) (argExprs : list Expr) : bool :=
  fold_left (fun preserveOrder e => preserveOrder || bool_decide (e ∈ blocking))
    (tail argExprs) false.

(** The type the argument at index [i] is converted to. *)
Definition argType_at (params : typelist) (varargElem : option type) (i : Z)
  : outcome type :=
  match varargElem with
  | Some elem => if Len params - 1 <=? i then Ok elem else At params i
  | None => At params i
  end.

Definition convert (tr : Translators) (clone : bool) (argExpr : Expr) (argType : type)
  : M string :=
  if clone then translateImplicitConversionWithCloning tr argExpr argType
  else translateImplicitConversion tr argExpr argType.

(** The assignment of the value of an argument to a new variable. *)
Definition assign_to_temporary (arg : string) : M string :=
  argVar <~ newVariable "_arg" ;;
  _ <~ Printf (argVar +:+ " = " +:+ arg +:+ ";") ;;
  ret argVar.

(** The main loop of [translateArgs], from the argument at index [i]. *)
Fixpoint translateArgs_loop (tr : Translators) (params : typelist)
    (varargElem : option type) (clone preserveOrder : bool)
    (argExprs : list Expr) (i : Z) : M (list string) :=
  match argExprs with
  | [] => ret []
  | argExpr :: rest =>
      argType <~ lift (argType_at params varargElem i) ;;
      arg <~ convert tr clone argExpr argType ;;
      constant <~ get_p (fun p => has_value p argExpr) ;;
      arg <~ (if preserveOrder && negb constant then assign_to_temporary arg
              else ret arg) ;;
      args <~ translateArgs_loop tr params varargElem clone preserveOrder rest (i + 1) ;;
      ret (arg :: args)
  end.

(** The end of [translateArgs]: the arguments of a variadic parameter are
    packed into one slice literal.  Go does not fix whether the slice
    expression or the call of [typeName] is evaluated first; they differ
    in the panic that is reported when both panic. *)
Definition pack_varargs (fe : FrontEnd) (params : typelist) (varargElem : option type)
    (args : list string) : M (list string) :=
  match varargElem with
  | Some elem =>
      let n := Len params - 1 in
      if (n <? 0) || (Z.of_nat (length args) <? n)
      then mpanic "slice bounds out of range"
      else
        name <~ typeName fe (Slice elem) ;;
        ret (take (Z.to_nat n) args ++
             ["new " +:+ name +:+ "([" +:+ Join (drop (Z.to_nat n) args) ", " +:+ "])"])
  | None => ret args
  end.

(** [translateArgs], for a signature with the parameters [params]. *)
Definition translateArgs (tr : Translators) (fe : FrontEnd) (params : typelist)
    (variadic : bool) (argExprs : list Expr) (ellipsis clone : bool)
  : M (list string) :=
  argExprs <~ expand_tuple tr argExprs ;;
  varargElem <~ lift (varargType_of params variadic ellipsis) ;;
  blocking <~ get_c Blocking ;;
  let preserveOrder := preserveOrder_of blocking argExprs in
  args <~ translateArgs_loop tr params varargElem clone preserveOrder argExprs 0 ;;
  pack_varargs fe params varargElem args.

(** A context with a parent, in whose registry [A] is taken. *)
Definition nested_context : funcContext :=
  mkFuncContext (Some new_function_context) {[ "A" := 1 ]} [] [] [] false 0 [].

(** A scope nested in [c] that has the registry [{A: 1}]. *)
Definition scope_nested_in (c : funcContext) : funcContext :=
  mkFuncContext (Some c) {[ "A" := 1 ]} [] [] [] false 0 [].

(** Two slice types, and a function context nested in another. *)
Definition string_slice : type := Slice (Basic String_).

Definition inner_context : funcContext :=
  mkFuncContext (Some new_function_context) ∅ [] [] [] false 0 [].

(** Two anonymous types. *)
Definition int_slice : type := Slice (Basic Int).
Definition slice_map : type := Map (Basic String_) (Slice (Basic Int)).

(** *** Statements about call arguments *)

(** The state after [Printf] has printed [text] at a valid indentation. *)
Definition after_Printf (text : string) (st : state) : state :=
  let c := st_c st in
  mkState (st_p st)
    (set_delayedOutput []
       (set_output
          (output c ++ pending_marker c
           ++ repeat tab (Z.to_nat (indentation (st_p st)))
           ++ bytes_of text ++ [newline] ++ delayedOutput c)
          (set_posAvailable false c))).

(** What follows the argument at index [i - 1]: the later arguments are
    translated from index [i] on, and the arguments are packed. *)
Definition translate_later (tr : Translators) (fe : FrontEnd) (params : typelist)
    (varargElem : option type) (clone : bool) (earlier : list string)
    (later : list Expr) (i : Z) : M (list string) :=
  args <~ translateArgs_loop tr params varargElem clone true later i ;;
  pack_varargs fe params varargElem (earlier ++ args).

(** Translators, a registry and arguments [a0, a1, a2] for the examples:
    [a1] is a blocking call, whose translation prints the call and leaves
    its result in [$r]; [a2] is a constant. *)
Definition sample_translators : Translators :=
  mkTranslators
    (fun e => ret "t")
    (fun e _ => match e with
                | SourceExpr 1 => _ <~ Printf "$r = f();" ;; ret "$r"
                | SourceExpr n => ret ("x" +:+ pretty (Z.of_nat n))
                | NewIdent _ name => ret name
                end)
    (fun e _ => ret "clone")
    (fun v i => ret (v +:+ "[" +:+ pretty i +:+ "]")).

Definition three_ints : typelist :=
  TCons (Basic Int) (TCons (Basic Int) (TCons (Basic Int) TNil)).

Definition blocking_state : state :=
  mkState
    (set_Types [(SourceExpr 2, mkTypeAndValue (Some (Basic Int)) true)]
       (new_package_context false))
    (mkFuncContext None ∅ [] [] [] false 0 [SourceExpr 1]).

(** * Theorems *)

(** * Properties of the output post-processor *)

Section SliceFacts.

Lemma index_at_head c t : index_at (c :: t) 0 = Ok c.
Proof. reflexivity. Qed.

Lemma index_at_nil i : index_at [] i = Panic "index out of range".
Proof.
  unfold index_at.
  destruct ((0 <=? i) && (i <? Z.of_nat (length (@nil byte)))); [|reflexivity].
  destruct (Z.to_nat i); reflexivity.
Qed.

Lemma index_at_second c d t : index_at (c :: d :: t) 1 = Ok d.
Proof.
  unfold index_at.
  replace (1 <? Z.of_nat (length (c :: d :: t))) with true; [reflexivity|].
  symmetry. apply Z.ltb_lt. simpl length. lia.
Qed.

Lemma index_at_single c : index_at [c] 1 = Panic "index out of range".
Proof. reflexivity. Qed.

Lemma slice_from_nat (b : list byte) (n : nat) :
  (n <= length b)%nat -> slice_from b (Z.of_nat n) = Ok (skipn n b).
Proof.
  intros H. unfold slice_from.
  replace ((0 <=? Z.of_nat n) && (Z.of_nat n <=? Z.of_nat (length b))) with true.
  - now rewrite Nat2Z.id.
  - symmetry. apply andb_true_iff. split; [apply Z.leb_le|apply Z.leb_le]; lia.
Qed.

Lemma slice_to_nat (b : list byte) (n : nat) :
  (n <= length b)%nat -> slice_to b (Z.of_nat n) = Ok (firstn n b).
Proof.
  intros H. unfold slice_to.
  replace ((0 <=? Z.of_nat n) && (Z.of_nat n <=? Z.of_nat (length b))) with true.
  - now rewrite Nat2Z.id.
  - symmetry. apply andb_true_iff. split; [apply Z.leb_le|apply Z.leb_le]; lia.
Qed.

Lemma slice_from_inv (b : list byte) i r :
  slice_from b i = Ok r ->
  exists n : nat, i = Z.of_nat n /\ (n <= length b)%nat /\ r = skipn n b.
Proof.
  unfold slice_from.
  destruct ((0 <=? i) && (i <=? Z.of_nat (length b))) eqn:E; [|discriminate].
  apply andb_true_iff in E as [E1 E2].
  apply Z.leb_le in E1. apply Z.leb_le in E2.
  intros [= <-]. exists (Z.to_nat i). repeat split; lia.
Qed.

Lemma slice_to_inv (b : list byte) i r :
  slice_to b i = Ok r ->
  exists n : nat, i = Z.of_nat n /\ (n <= length b)%nat /\ r = firstn n b.
Proof.
  unfold slice_to.
  destruct ((0 <=? i) && (i <=? Z.of_nat (length b))) eqn:E; [|discriminate].
  apply andb_true_iff in E as [E1 E2].
  apply Z.leb_le in E1. apply Z.leb_le in E2.
  intros [= <-]. exists (Z.to_nat i). repeat split; lia.
Qed.

Lemma slice_from_at (b : list byte) (n : nat) i :
  i = Z.of_nat n -> (n <= length b)%nat -> slice_from b i = Ok (skipn n b).
Proof. intros ->. apply slice_from_nat. Qed.

Lemma slice_to_at (b : list byte) (n : nat) i :
  i = Z.of_nat n -> (n <= length b)%nat -> slice_to b i = Ok (firstn n b).
Proof. intros ->. apply slice_to_nat. Qed.

Lemma slice_from_1 c (t : list byte) : slice_from (c :: t) 1 = Ok t.
Proof. apply (slice_from_nat (c :: t) 1). simpl. lia. Qed.

Lemma slice_negative_from (b : list byte) i :
  i < 0 -> slice_from b i = Panic "slice bounds out of range".
Proof.
  intros H. unfold slice_from.
  replace (0 <=? i) with false; [reflexivity|].
  symmetry. apply Z.leb_gt. lia.
Qed.

Lemma slice_negative_to (b : list byte) i :
  i < 0 -> slice_to b i = Panic "slice bounds out of range".
Proof.
  intros H. unfold slice_to.
  replace (0 <=? i) with false; [reflexivity|].
  symmetry. apply Z.leb_gt. lia.
Qed.

Lemma slice_to_beyond (b : list byte) i :
  Z.of_nat (length b) < i -> slice_to b i = Panic "slice bounds out of range".
Proof.
  intros H. unfold slice_to.
  replace (i <=? Z.of_nat (length b)) with false; [now rewrite andb_false_r|].
  symmetry. apply Z.leb_gt. lia.
Qed.

Lemma slice_from_beyond (b : list byte) i :
  Z.of_nat (length b) < i -> slice_from b i = Panic "slice bounds out of range".
Proof.
  intros H. unfold slice_from.
  replace (i <=? Z.of_nat (length b)) with false; [now rewrite andb_false_r|].
  symmetry. apply Z.leb_gt. lia.
Qed.

End SliceFacts.

(** ** Bytes *)

Lemma is_backspace_blank c : is_backspace c = true -> is_blank c = false.
Proof. destruct c; vm_compute; congruence. Qed.

Lemma needsSpace_other c :
  needsSpace c = true ->
  is_backspace c = false /\ is_blank c = false /\ is_dquote c = false
  /\ is_slash c = false.
Proof. destruct c; vm_compute; intuition congruence. Qed.

Lemma is_minus_other c :
  is_minus c = true ->
  is_backspace c = false /\ is_blank c = false /\ is_dquote c = false
  /\ is_slash c = false /\ needsSpace c = false.
Proof. destruct c; vm_compute; intuition congruence. Qed.

Lemma keeps_blank_other previous c :
  keeps_blank previous c = true ->
  is_backspace c = false /\ is_blank c = false /\ is_dquote c = false
  /\ is_slash c = false.
Proof.
  unfold keeps_blank. intros H.
  apply orb_true_iff in H as [H|H]; apply andb_true_iff in H as [_ H].
  - now apply needsSpace_other.
  - apply is_minus_other in H. tauto.
Qed.

(** The test of the whitespace case, when a byte follows the blank. *)
Lemma blank_removable_next previous w c rest :
  blank_removable previous (w :: c :: rest) = Ok (negb (keeps_blank previous c)).
Proof.
  unfold blank_removable, keeps_blank. rewrite index_at_second.
  destruct (needsSpace previous) eqn:Hp; simpl.
  - destruct (needsSpace c); simpl.
    + destruct (is_minus previous) eqn:Hm; [|reflexivity].
      apply is_minus_other in Hm. intuition congruence.
    + destruct (is_minus previous) eqn:Hm; [|reflexivity].
      apply is_minus_other in Hm. intuition congruence.
  - destruct (is_minus previous); simpl; [|reflexivity].
    now destruct (is_minus c).
Qed.

(** The test of the whitespace case on a blank that is the last byte. *)
Lemma blank_removable_last previous w :
  blank_removable previous [w] =
  if needsSpace previous || is_minus previous
  then Panic "index out of range" else Ok true.
Proof.
  unfold blank_removable. rewrite index_at_single.
  destruct (needsSpace previous) eqn:Hp; simpl; [reflexivity|].
  now destruct (is_minus previous).
Qed.

(** ** The scan of a string literal *)

Lemma special_byte c :
  existsb (Byte.eqb c) quote_or_backslash = is_dquote c || is_backslash c.
Proof. destruct c; reflexivity. Qed.

Lemma backslash_not_quote e : is_backslash e = true -> is_dquote e = false.
Proof. destruct e; vm_compute; congruence. Qed.

Lemma IndexAny_range (b chars : list byte) :
  IndexAny b chars = -1 \/
  exists n : nat, IndexAny b chars = Z.of_nat n /\ (n < length b)%nat.
Proof.
  induction b as [|c b IH]; [now left|]. simpl.
  destruct (existsb (Byte.eqb c) chars).
  - right. exists 0%nat. split; [reflexivity|simpl; lia].
  - destruct IH as [->|(n & -> & Hn)]; [now left|].
    right. exists (S n). replace (Z.of_nat n =? -1) with false.
    + split; [lia|simpl; lia].
    + symmetry. apply Z.eqb_neq. lia.
Qed.

Lemma copy_string_plain fuel out c b :
  is_dquote c = false -> is_backslash c = false ->
  copy_string fuel out (c :: b) = copy_string fuel (out ++ [c]) b.
Proof.
  intros Hq Hb. destruct fuel as [|fuel]; [reflexivity|].
  cbn [copy_string IndexAny]. rewrite special_byte, Hq, Hb. cbn [orb].
  destruct (IndexAny_range b quote_or_backslash) as [->|(n & -> & Hn)].
  - change (-1 =? -1) with true. cbv iota.
    now rewrite (slice_negative_to (c :: b) (-1)), (slice_negative_to b (-1)) by lia.
  - replace (Z.of_nat n =? -1) with false by (symmetry; apply Z.eqb_neq; lia).
    replace (Z.of_nat n + 1) with (Z.of_nat (S n)) by lia.
    rewrite (slice_to_nat (c :: b) (S n)) by (simpl; lia).
    rewrite (slice_from_nat (c :: b) (S n)) by (simpl; lia).
    rewrite (slice_to_nat b n), (slice_from_nat b n) by lia.
    cbn [obind firstn skipn]. now rewrite <- app_assoc.
Qed.

Lemma copy_string_escape fuel out e c b :
  is_backslash e = true ->
  copy_string (S fuel) out (e :: c :: b) = copy_string fuel (out ++ [e; c]) b.
Proof.
  intros He. cbn [copy_string IndexAny]. rewrite special_byte, He, orb_true_r.
  rewrite (slice_to_at (e :: c :: b) 0 0), (slice_from_at (e :: c :: b) 0 0)
    by (reflexivity || (simpl; lia)).
  cbn [obind firstn skipn]. rewrite index_at_head. cbn [obind].
  rewrite (backslash_not_quote e He).
  rewrite (slice_to_at (e :: c :: b) 2 2), (slice_from_at (e :: c :: b) 2 2)
    by (reflexivity || (simpl; lia)).
  cbn [obind firstn skipn]. now rewrite app_nil_r.
Qed.

Lemma copy_string_lone_escape fuel out e :
  is_backslash e = true ->
  copy_string (S fuel) out [e] = Panic "slice bounds out of range".
Proof.
  intros He. cbn [copy_string IndexAny]. rewrite special_byte, He, orb_true_r.
  rewrite (slice_to_at [e] 0 0), (slice_from_at [e] 0 0) by (reflexivity || (simpl; lia)).
  cbn [obind firstn skipn]. rewrite index_at_head. cbn [obind].
  now rewrite (backslash_not_quote e He).
Qed.

Lemma copy_string_quote fuel out q rest :
  is_dquote q = true ->
  copy_string (S fuel) out (q :: rest) = Ok (out, q :: rest).
Proof.
  intros Hq. cbn [copy_string IndexAny]. rewrite special_byte, Hq. cbn [orb].
  rewrite (slice_to_at (q :: rest) 0 0), (slice_from_at (q :: rest) 0 0)
    by (reflexivity || (simpl; lia)).
  cbn [obind firstn skipn]. rewrite index_at_head. cbn [obind].
  now rewrite Hq, app_nil_r.
Qed.

Lemma copy_string_empty fuel out :
  copy_string (S fuel) out [] = Panic "slice bounds out of range".
Proof. reflexivity. Qed.

(** A terminated literal is copied up to its closing quote. *)
Lemma copy_string_body body q rest :
  StrBody body -> is_dquote q = true ->
  forall fuel out, (length body < fuel)%nat ->
  copy_string fuel out (body ++ q :: rest) = Ok (out ++ body, q :: rest).
Proof.
  intros Hbody Hq. induction Hbody as [|c s Hc1 Hc2 _ IH|e c s He _ IH];
    intros fuel out Hfuel.
  - destruct fuel; [lia|]. rewrite app_nil_r. now apply copy_string_quote.
  - cbn [app]. rewrite copy_string_plain by assumption.
    rewrite IH by (simpl in Hfuel; lia). now rewrite <- app_assoc.
  - destruct fuel; [lia|]. cbn [app]. rewrite copy_string_escape by assumption.
    rewrite IH by (simpl in Hfuel; lia). now rewrite <- app_assoc.
Qed.

(** What a successful copy has read. *)
Lemma copy_string_inv fuel out b out1 b1 :
  copy_string fuel out b = Ok (out1, b1) ->
  exists body q rest,
    StrBody body /\ is_dquote q = true /\
    b = body ++ q :: rest /\ out1 = out ++ body /\ b1 = q :: rest.
Proof.
  revert fuel out. remember (length b) as n eqn:Hn.
  revert b Hn. induction n as [n IH] using lt_wf_ind. intros b Hn fuel out H.
  destruct fuel as [|fuel]; [discriminate|].
  destruct b as [|c b]; [discriminate|].
  destruct (is_dquote c) eqn:Hq.
  - rewrite copy_string_quote in H by assumption. injection H as <- <-.
    exists [], c, b. rewrite app_nil_r. repeat split; auto. constructor.
  - destruct (is_backslash c) eqn:Hb.
    + destruct b as [|d b].
      * rewrite copy_string_lone_escape in H by assumption. discriminate.
      * rewrite copy_string_escape in H by assumption.
        apply (IH (length b)) in H; [|subst n; simpl; lia|reflexivity].
        destruct H as (body & q & rest & Hbody & Hq' & -> & -> & ->).
        exists (c :: d :: body), q, rest. repeat split; auto.
        -- now constructor.
        -- now rewrite <- app_assoc.
    + rewrite copy_string_plain in H by assumption.
      apply (IH (length b)) in H; [|subst n; simpl; lia|reflexivity].
      destruct H as (body & q & rest & Hbody & Hq' & -> & -> & ->).
      exists (c :: body), q, rest. repeat split; auto.
      * now constructor.
      * now rewrite <- app_assoc.
Qed.

(** A literal that is not closed makes the copy panic. *)
Lemma copy_string_unterminated u :
  Unterminated u ->
  forall fuel out, (length u < fuel)%nat ->
  copy_string fuel out u = Panic "slice bounds out of range".
Proof.
  induction 1 as [|e He|c s Hc1 Hc2 _ IH|e c s He _ IH]; intros fuel out Hfuel.
  - destruct fuel; [lia|]. reflexivity.
  - destruct fuel; [lia|]. now apply copy_string_lone_escape.
  - rewrite copy_string_plain by assumption. apply IH. simpl in Hfuel. lia.
  - destruct fuel; [lia|]. rewrite copy_string_escape by assumption.
    apply IH. simpl in Hfuel. lia.
Qed.

(** The fuel [len(b) + 1] is enough for the copy. *)
Lemma copy_string_fuel b :
  forall fuel out, (length b < fuel)%nat -> copy_string fuel out b <> OutOfFuel.
Proof.
  remember (length b) as n eqn:Hn. revert b Hn.
  induction n as [n IH] using lt_wf_ind. intros b Hn fuel out Hfuel.
  destruct fuel as [|fuel]; [lia|].
  destruct b as [|c b]; [discriminate|].
  destruct (is_dquote c) eqn:Hq.
  - now rewrite copy_string_quote.
  - destruct (is_backslash c) eqn:Hb.
    + destruct b as [|d b].
      * now rewrite copy_string_lone_escape.
      * rewrite copy_string_escape by assumption.
        apply (IH (length b)); [subst n; simpl; lia|reflexivity|].
        subst n. simpl in Hfuel. lia.
    + rewrite copy_string_plain by assumption.
      apply (IH (length b)); [subst n; simpl; lia|reflexivity|].
      subst n. simpl in Hfuel. lia.
Qed.

(** ** One iteration of the main loop, case by case *)

Lemma blank_other w :
  is_blank w = true -> is_backspace w = false.
Proof. destruct w; vm_compute; congruence. Qed.

Lemma dquote_other q :
  is_dquote q = true -> is_backspace q = false /\ is_blank q = false.
Proof. destruct q; vm_compute; intuition congruence. Qed.

Lemma slash_other c :
  is_slash c = true ->
  is_backspace c = false /\ is_blank c = false /\ is_dquote c = false.
Proof. destruct c; vm_compute; intuition congruence. Qed.

Lemma emit_first_cons out c rest :
  emit_first out (c :: rest) = Ok (Scan (out ++ [c]) c rest).
Proof. unfold emit_first. rewrite index_at_head. cbn [obind]. now rewrite slice_from_1. Qed.

(** A debug-position marker is copied as it stands; [previous] stays. *)
Lemma scan_step_marker out previous c payload rest :
  is_backspace c = true -> length payload = 4%nat ->
  scan_step (Scan out previous (c :: payload ++ rest))
  = Ok (Scan (out ++ c :: payload) previous rest).
Proof.
  intros Hc Hlen. unfold scan_step. cbn [sc_out sc_previous sc_rest].
  rewrite index_at_head. cbn [obind]. rewrite Hc.
  rewrite (slice_to_at (c :: payload ++ rest) 5 5), (slice_from_at (c :: payload ++ rest) 5 5)
    by (reflexivity || (simpl; rewrite length_app; lia)).
  cbn [obind]. do 2 f_equal.
  - change 5%nat with (S 4). cbn [firstn]. f_equal.
    rewrite firstn_app, <- Hlen, firstn_all, Nat.sub_diag. cbn [firstn].
    now rewrite app_nil_r.
  - change 5%nat with (S 4). cbn [skipn].
    rewrite skipn_app, <- Hlen, skipn_all, Nat.sub_diag. reflexivity.
Qed.

Lemma scan_step_blank out previous w c rest :
  is_blank w = true ->
  scan_step (Scan out previous (w :: c :: rest))
  = if keeps_blank previous c
    then Ok (Scan (out ++ [w]) w (c :: rest))
    else Ok (Scan out previous (c :: rest)).
Proof.
  intros Hw. unfold scan_step. cbn [sc_out sc_previous sc_rest].
  rewrite index_at_head. cbn [obind]. rewrite (blank_other w Hw), Hw.
  rewrite blank_removable_next. cbn [obind].
  destruct (keeps_blank previous c); cbn [negb].
  - apply emit_first_cons.
  - now rewrite slice_from_1.
Qed.

Lemma scan_step_last_blank out previous w :
  is_blank w = true ->
  scan_step (Scan out previous [w])
  = if needsSpace previous || is_minus previous
    then Panic "index out of range"
    else Ok (Scan out previous []).
Proof.
  intros Hw. unfold scan_step. cbn [sc_out sc_previous sc_rest].
  rewrite index_at_head. cbn [obind]. rewrite (blank_other w Hw), Hw.
  rewrite blank_removable_last.
  now destruct (needsSpace previous || is_minus previous).
Qed.

(** A string literal is copied as it stands, quotes included. *)
Lemma scan_step_string out previous q body q' rest :
  is_dquote q = true -> is_dquote q' = true -> StrBody body ->
  scan_step (Scan out previous (q :: body ++ q' :: rest))
  = Ok (Scan (out ++ q :: body ++ [q']) q' rest).
Proof.
  intros Hq Hq' Hbody. unfold scan_step. cbn [sc_out sc_previous sc_rest].
  rewrite index_at_head. cbn [obind].
  destruct (dquote_other q Hq) as [-> ->]. rewrite Hq, slice_from_1. cbn [obind].
  rewrite (copy_string_body body q' rest Hbody Hq') by (rewrite length_app; simpl; lia).
  cbn [obind fst snd]. rewrite emit_first_cons. do 2 f_equal.
  rewrite <- !app_assoc. reflexivity.
Qed.

Lemma scan_step_unterminated out previous q u :
  is_dquote q = true -> Unterminated u ->
  scan_step (Scan out previous (q :: u)) = Panic "slice bounds out of range".
Proof.
  intros Hq Hu. unfold scan_step. cbn [sc_out sc_previous sc_rest].
  rewrite index_at_head. cbn [obind].
  destruct (dquote_other q Hq) as [-> ->]. rewrite Hq, slice_from_1. cbn [obind].
  now rewrite (copy_string_unterminated u Hu) by lia.
Qed.

(** Any other byte is appended, a slash as long as the byte after it is
    not a star. *)
Lemma scan_step_other out previous c rest :
  is_backspace c = false -> is_blank c = false -> is_dquote c = false ->
  is_slash c = false ->
  scan_step (Scan out previous (c :: rest)) = Ok (Scan (out ++ [c]) c rest).
Proof.
  intros H1 H2 H3 H4. unfold scan_step. cbn [sc_out sc_previous sc_rest].
  rewrite index_at_head. cbn [obind]. rewrite H1, H2, H3, H4.
  apply emit_first_cons.
Qed.

Lemma scan_step_slash out previous c d rest :
  is_slash c = true -> is_star d = false ->
  scan_step (Scan out previous (c :: d :: rest))
  = Ok (Scan (out ++ [c]) c (d :: rest)).
Proof.
  intros Hc Hd. unfold scan_step. cbn [sc_out sc_previous sc_rest].
  rewrite index_at_head. cbn [obind].
  destruct (slash_other c Hc) as (-> & -> & ->). rewrite Hc.
  rewrite index_at_second. cbn [obind]. rewrite Hd.
  apply emit_first_cons.
Qed.

Lemma scan_step_comment out previous c d rest :
  is_slash c = true -> is_star d = true ->
  scan_step (Scan out previous (c :: d :: rest))
  = (tail <-- slice_from (c :: d :: rest) (Index rest comment_close + 4) ;;
     Ok (Scan out previous tail)).
Proof.
  intros Hc Hd. unfold scan_step. cbn [sc_out sc_previous sc_rest].
  rewrite index_at_head. cbn [obind].
  destruct (slash_other c Hc) as (-> & -> & ->). rewrite Hc.
  rewrite index_at_second. cbn [obind]. rewrite Hd.
  rewrite (slice_from_at (c :: d :: rest) 2 2) by (reflexivity || (simpl; lia)).
  reflexivity.
Qed.

Lemma scan_step_last_slash out previous c :
  is_slash c = true ->
  scan_step (Scan out previous [c]) = Panic "index out of range".
Proof.
  intros Hc. unfold scan_step. cbn [sc_out sc_previous sc_rest].
  rewrite index_at_head. cbn [obind].
  destruct (slash_other c Hc) as (-> & -> & ->). now rewrite Hc.
Qed.

Lemma Index_range (b sep : list byte) :
  Index b sep = -1 \/ exists n : nat, Index b sep = Z.of_nat n.
Proof.
  induction b as [|c b IH]; simpl.
  - destruct (has_prefix sep []); [right; now exists 0%nat|now left].
  - destruct (has_prefix sep (c :: b)); [right; now exists 0%nat|].
    destruct IH as [->|(n & ->)]; [now left|].
    right. exists (S n). replace (Z.of_nat n =? -1) with false; [lia|].
    symmetry. apply Z.eqb_neq. lia.
Qed.

(** ** Termination of the scan *)

(** Every iteration of the main loop consumes input. *)
Lemma scan_step_shrinks s s' :
  scan_step s = Ok s' -> (length (sc_rest s') < length (sc_rest s))%nat.
Proof.
  destruct s as [out previous b]. cbn [sc_rest]. intros H.
  destruct b as [|c b]; [discriminate|].
  destruct (is_backspace c) eqn:H1.
  { unfold scan_step in H. cbn [sc_out sc_previous sc_rest] in H.
    rewrite index_at_head in H. cbn [obind] in H. rewrite H1 in H.
    destruct (slice_to (c :: b) 5) as [m| |]; try discriminate. cbn [obind] in H.
    destruct (slice_from (c :: b) 5) as [r| |] eqn:Hr; try discriminate.
    cbn [obind] in H. injection H as <-. cbn [sc_rest].
    apply slice_from_inv in Hr as (n & Hn & Hle & ->).
    assert (n = 5%nat) as -> by lia. rewrite length_skipn. simpl in *. lia. }
  destruct (is_blank c) eqn:H2.
  { destruct b as [|d b].
    - rewrite scan_step_last_blank in H by assumption.
      destruct (needsSpace previous || is_minus previous); [discriminate|].
      injection H as <-. simpl. lia.
    - rewrite scan_step_blank in H by assumption.
      destruct (keeps_blank previous d); injection H as <-; simpl; lia. }
  destruct (is_dquote c) eqn:H3.
  { unfold scan_step in H. cbn [sc_out sc_previous sc_rest] in H.
    rewrite index_at_head in H. cbn [obind] in H. rewrite H1, H2, H3 in H.
    rewrite slice_from_1 in H. cbn [obind] in H.
    destruct (copy_string (S (length b)) (out ++ [c]) b) as [[out1 b1]| |] eqn:Hcopy;
      try discriminate.
    cbn [obind fst snd] in H.
    apply copy_string_inv in Hcopy as (body & q & rest & _ & _ & -> & -> & ->).
    rewrite emit_first_cons in H. injection H as <-. cbn [sc_rest].
    simpl. rewrite length_app. simpl. lia. }
  destruct (is_slash c) eqn:H4.
  { destruct b as [|d b].
    - now rewrite scan_step_last_slash in H.
    - destruct (is_star d) eqn:H5.
      + rewrite scan_step_comment in H by assumption.
        destruct (slice_from (c :: d :: b) _) as [r| |] eqn:Hr; try discriminate.
        cbn [obind] in H. injection H as <-. cbn [sc_rest].
        apply slice_from_inv in Hr as (n & Hn & Hle & ->).
        rewrite length_skipn.
        destruct (Index_range b comment_close) as [E|(k & E)]; rewrite E in Hn;
          simpl in *; lia.
      + rewrite scan_step_slash in H by assumption. injection H as <-. simpl. lia. }
  rewrite scan_step_other in H by assumption. injection H as <-. simpl. lia.
Qed.

Lemma slice_from_fuel (b : list byte) i : slice_from b i <> OutOfFuel.
Proof. unfold slice_from. destruct (_ && _); discriminate. Qed.

Lemma slice_to_fuel (b : list byte) i : slice_to b i <> OutOfFuel.
Proof. unfold slice_to. destruct (_ && _); discriminate. Qed.

Lemma scan_step_fuel s : scan_step s <> OutOfFuel.
Proof.
  destruct s as [out previous b].
  destruct b as [|c b]; [discriminate|].
  destruct (is_backspace c) eqn:H1.
  { unfold scan_step. cbn [sc_out sc_previous sc_rest].
    rewrite index_at_head. cbn [obind]. rewrite H1.
    pose proof (slice_to_fuel (c :: b) 5). pose proof (slice_from_fuel (c :: b) 5).
    destruct (slice_to (c :: b) 5); cbn [obind]; try congruence.
    destruct (slice_from (c :: b) 5); cbn [obind]; congruence. }
  destruct (is_blank c) eqn:H2.
  { destruct b as [|d b].
    - rewrite scan_step_last_blank by assumption.
      destruct (needsSpace previous || is_minus previous); discriminate.
    - rewrite scan_step_blank by assumption.
      destruct (keeps_blank previous d); discriminate. }
  destruct (is_dquote c) eqn:H3.
  { unfold scan_step. cbn [sc_out sc_previous sc_rest].
    rewrite index_at_head. cbn [obind]. rewrite H1, H2, H3, slice_from_1.
    cbn [obind].
    pose proof (copy_string_fuel b (S (length b)) (out ++ [c]) ltac:(lia)) as Hf.
    destruct (copy_string (S (length b)) (out ++ [c]) b) as [[out1 b1]| |] eqn:Hcopy;
      cbn [obind fst snd]; try congruence.
    apply copy_string_inv in Hcopy as (body & q & rest & _ & _ & _ & _ & ->).
    now rewrite emit_first_cons. }
  destruct (is_slash c) eqn:H4.
  { destruct b as [|d b].
    - now rewrite scan_step_last_slash.
    - destruct (is_star d) eqn:H5.
      + rewrite scan_step_comment by assumption.
        pose proof (slice_from_fuel (c :: d :: b) (Index b comment_close + 4)).
        destruct (slice_from (c :: d :: b) _); cbn [obind]; congruence.
      + now rewrite scan_step_slash. }
  now rewrite scan_step_other.
Qed.

(** The fuel [len(b) + 1] is enough for the main loop. *)
Lemma scan_loop_fuel fuel :
  forall s, (length (sc_rest s) < fuel)%nat -> scan_loop fuel s <> OutOfFuel.
Proof.
  induction fuel as [|fuel IH]; intros s Hfuel; [lia|].
  cbn [scan_loop]. destruct (sc_rest s) as [|c rest] eqn:Hrest; [discriminate|].
  destruct (scan_step s) as [s'| |] eqn:Hstep; cbn [obind]; try discriminate.
  - apply IH. apply scan_step_shrinks in Hstep. rewrite Hrest in Hstep.
    simpl in *. lia.
  - now apply scan_step_fuel in Hstep.
Qed.

Lemma scan_loop_more_fuel fuel :
  forall s fuel', (length (sc_rest s) < fuel)%nat ->
  (length (sc_rest s) < fuel')%nat ->
  scan_loop fuel s = scan_loop fuel' s.
Proof.
  induction fuel as [|fuel IH]; intros s fuel' H1 H2; [lia|].
  destruct fuel' as [|fuel']; [lia|].
  cbn [scan_loop]. destruct (sc_rest s) as [|c rest] eqn:Hrest; [reflexivity|].
  destruct (scan_step s) as [s'| |] eqn:Hstep; cbn [obind]; try reflexivity.
  apply scan_step_shrinks in Hstep. rewrite Hrest in Hstep.
  apply IH; simpl in *; lia.
Qed.

Lemma removeWhitespace_total b minify : removeWhitespace b minify <> OutOfFuel.
Proof.
  unfold removeWhitespace. destruct minify; cbn [negb]; [|discriminate].
  apply scan_loop_fuel. unfold scan_start. cbn [sc_rest]. lia.
Qed.

(** Running the loop from a state the scan reaches gives the result of the
    whole run. *)
Lemma scan_reaches_loop s s' :
  scan_reaches s s' ->
  forall fuel, (length (sc_rest s) < fuel)%nat ->
  scan_loop fuel s = scan_loop (S (length (sc_rest s'))) s'.
Proof.
  induction 1 as [s|s s1 s2 Hne Hstep _ IH]; intros fuel Hfuel.
  - apply scan_loop_more_fuel; lia.
  - destruct fuel as [|fuel]; [lia|]. cbn [scan_loop].
    destruct (sc_rest s) as [|c rest] eqn:Hrest; [congruence|].
    rewrite Hstep. cbn [obind]. apply IH.
    apply scan_step_shrinks in Hstep. rewrite Hrest in Hstep. simpl in *. lia.
Qed.

(** ** The output of a scan is copied by a second scan *)

(** First pass: what the loop appends has the shape [Minified]. *)
Lemma scan_loop_minified fuel :
  forall s out',
    scan_loop fuel s = Ok out' ->
    exists t, out' = sc_out s ++ t /\ Minified (sc_previous s) t.
Proof.
  induction fuel as [fuel IH] using lt_wf_ind. intros [out previous b] out' H.
  destruct fuel as [|fuel]; [discriminate|].
  cbn [scan_loop sc_rest] in H. cbn [sc_out sc_previous].
  destruct b as [|c b].
  { injection H as <-. exists []. rewrite app_nil_r. split; [reflexivity|constructor]. }
  destruct (scan_step (Scan out previous (c :: b))) as [s1| |] eqn:Hstep;
    cbn [obind] in H; try discriminate.
  destruct (is_backspace c) eqn:H1.
  { (* marker *)
    unfold scan_step in Hstep. cbn [sc_out sc_previous sc_rest] in Hstep.
    rewrite index_at_head in Hstep. cbn [obind] in Hstep. rewrite H1 in Hstep.
    destruct (slice_to (c :: b) 5) as [m| |] eqn:Hm; try discriminate.
    cbn [obind] in Hstep.
    destruct (slice_from (c :: b) 5) as [r| |] eqn:Hr; try discriminate.
    cbn [obind] in Hstep. injection Hstep as <-.
    apply slice_to_inv in Hm as (n & Hn & Hle & ->).
    apply slice_from_inv in Hr as (n' & Hn' & Hle' & ->).
    assert (n = 5%nat) as -> by lia. assert (n' = 5%nat) as -> by lia.
    apply IH in H; [|lia]. destruct H as (t & -> & Ht).
    cbn [sc_out sc_previous] in *.
    change 5%nat with (S 4) in *. cbn [firstn skipn] in *.
    exists (c :: firstn 4 b ++ t). split.
    - rewrite <- app_assoc. reflexivity.
    - apply Minified_marker; auto.
      rewrite length_firstn. cbn [length] in Hle. lia. }
  destruct (is_blank c) eqn:H2.
  { destruct b as [|d b].
    - rewrite scan_step_last_blank in Hstep by assumption.
      destruct (needsSpace previous || is_minus previous); [discriminate|].
      injection Hstep as <-. apply IH in H; [|lia]. exact H.
    - rewrite scan_step_blank in Hstep by assumption.
      destruct (keeps_blank previous d) eqn:Hk; injection Hstep as <-.
      + (* the blank stays; the byte after it is appended next *)
        destruct (keeps_blank_other _ _ Hk) as (K1 & K2 & K3 & K4).
        destruct fuel as [|fuel]; [discriminate|].
        cbn [scan_loop sc_rest] in H.
        rewrite scan_step_other in H by assumption. cbn [obind] in H.
        apply IH in H; [|lia]. destruct H as (t & -> & Ht).
        cbn [sc_out sc_previous] in *.
        exists (c :: d :: t). split.
        * rewrite <- !app_assoc. reflexivity.
        * apply Minified_blank; auto. apply Minified_other; auto.
      + apply IH in H; [|lia]. exact H. }
  destruct (is_dquote c) eqn:H3.
  { unfold scan_step in Hstep. cbn [sc_out sc_previous sc_rest] in Hstep.
    rewrite index_at_head in Hstep. cbn [obind] in Hstep.
    rewrite H1, H2, H3, slice_from_1 in Hstep. cbn [obind] in Hstep.
    destruct (copy_string (S (length b)) (out ++ [c]) b) as [[out1 b1]| |] eqn:Hcopy;
      try discriminate.
    cbn [obind fst snd] in Hstep.
    apply copy_string_inv in Hcopy as (body & q & rest & Hbody & Hq & -> & -> & ->).
    rewrite emit_first_cons in Hstep. injection Hstep as <-.
    apply IH in H; [|lia]. destruct H as (t & -> & Ht).
    cbn [sc_out sc_previous] in *.
    exists (c :: body ++ q :: t). split.
    - rewrite <- !app_assoc. reflexivity.
    - now apply Minified_string. }
  destruct (is_slash c) eqn:H4.
  { destruct b as [|d b].
    - now rewrite scan_step_last_slash in Hstep.
    - destruct (is_star d) eqn:H5.
      + rewrite scan_step_comment in Hstep by assumption.
        destruct (slice_from (c :: d :: b) _) as [r| |]; try discriminate.
        cbn [obind] in Hstep. injection Hstep as <-.
        apply IH in H; [|lia]. exact H.
      + rewrite scan_step_slash in Hstep by assumption. injection Hstep as <-.
        apply IH in H; [|lia]. destruct H as (t & -> & Ht).
        cbn [sc_out sc_previous] in *.
        exists (c :: t). split; [now rewrite <- app_assoc|].
        now apply Minified_other. }
  rewrite scan_step_other in Hstep by assumption. injection Hstep as <-.
  apply IH in H; [|lia]. destruct H as (t & -> & Ht).
  cbn [sc_out sc_previous] in *.
  exists (c :: t). split; [now rewrite <- app_assoc|].
  now apply Minified_other.
Qed.

Lemma slashes_kept_step s0 s1 :
  sc_rest s0 <> [] -> scan_step s0 = Ok s1 ->
  slashes_kept_from s0 -> slashes_kept_from s1.
Proof.
  intros Hne Hstep H s c rest Hreach. apply H.
  now apply (scan_reaches_step s0 s1 s).
Qed.

(** Second pass: a [Minified] sequence is copied byte for byte when the
    scan of it arrives at no slash that opens a comment or is the last
    byte. *)
Lemma scan_loop_copies previous t :
  Minified previous t ->
  forall out, slashes_kept_from (Scan out previous t) ->
  forall fuel, (length t < fuel)%nat ->
  scan_loop fuel (Scan out previous t) = Ok (out ++ t).
Proof.
  induction 1 as [previous
                 |previous c payload rest Hc Hlen _ IH
                 |previous w c rest Hw Hk _ IH
                 |previous q body q' rest Hq Hq' Hbody _ IH
                 |previous c rest H1 H2 H3 _ IH];
    intros out Hs fuel Hfuel.
  - destruct fuel; [lia|]. cbn. now rewrite app_nil_r.
  - destruct fuel; [simpl in Hfuel; lia|]. cbn [scan_loop sc_rest].
    pose proof (scan_step_marker out previous c payload rest Hc Hlen) as Hstep.
    rewrite Hstep. cbn [obind].
    rewrite IH.
    + now rewrite <- app_assoc.
    + refine (slashes_kept_step _ _ _ Hstep Hs); discriminate.
    + simpl in Hfuel. rewrite length_app in Hfuel. lia.
  - destruct fuel; [simpl in Hfuel; lia|]. cbn [scan_loop sc_rest].
    pose proof (scan_step_blank out previous w c rest Hw) as Hstep.
    rewrite Hk in Hstep. rewrite Hstep. cbn [obind].
    rewrite IH.
    + now rewrite <- app_assoc.
    + refine (slashes_kept_step _ _ _ Hstep Hs); discriminate.
    + simpl in *. lia.
  - destruct fuel; [simpl in Hfuel; lia|]. cbn [scan_loop sc_rest].
    pose proof (scan_step_string out previous q body q' rest Hq Hq' Hbody) as Hstep.
    rewrite Hstep. cbn [obind].
    rewrite IH.
    + f_equal. repeat (rewrite <- app_assoc || rewrite <- app_comm_cons). reflexivity.
    + refine (slashes_kept_step _ _ _ Hstep Hs); discriminate.
    + simpl in Hfuel. rewrite length_app in Hfuel. simpl in Hfuel. lia.
  - destruct fuel; [simpl in Hfuel; lia|]. cbn [scan_loop sc_rest].
    assert (Hstep : scan_step (Scan out previous (c :: rest))
                    = Ok (Scan (out ++ [c]) c rest)).
    { destruct (is_slash c) eqn:H4.
      - destruct (Hs (Scan out previous (c :: rest)) c rest
                    (scan_reaches_here _) eq_refl H4) as (d & rest' & -> & Hd).
        now apply scan_step_slash.
      - now apply scan_step_other. }
    rewrite Hstep. cbn [obind]. rewrite IH.
    + now rewrite <- app_assoc.
    + refine (slashes_kept_step _ _ _ Hstep Hs); discriminate.
    + simpl in *. lia.
Qed.

(** ** A scan never makes its data longer *)

(** One iteration moves bytes from the input to the output or drops
    them. *)
Lemma scan_step_length s s' :
  scan_step s = Ok s' ->
  (length (sc_out s') + length (sc_rest s')
   <= length (sc_out s) + length (sc_rest s))%nat.
Proof.
  destruct s as [out previous b]. cbn [sc_rest sc_out]. intros H.
  destruct b as [|c b]; [discriminate|].
  destruct (is_backspace c) eqn:H1.
  { unfold scan_step in H. cbn [sc_out sc_previous sc_rest] in H.
    rewrite index_at_head in H. cbn [obind] in H. rewrite H1 in H.
    destruct (slice_to (c :: b) 5) as [m| |] eqn:Hm; try discriminate.
    cbn [obind] in H.
    destruct (slice_from (c :: b) 5) as [r| |] eqn:Hr; try discriminate.
    cbn [obind] in H. injection H as <-. cbn [sc_rest sc_out].
    apply slice_from_inv in Hr as (n & Hn & Hle & ->).
    apply slice_to_inv in Hm as (n' & Hn' & Hle' & ->).
    assert (n = 5%nat) as -> by lia. assert (n' = 5%nat) as -> by lia.
    clear Hn Hn'. rewrite length_app, length_skipn, length_firstn.
    cbn [length] in *. lia. }
  destruct (is_blank c) eqn:H2.
  { destruct b as [|d b].
    - rewrite scan_step_last_blank in H by assumption.
      destruct (needsSpace previous || is_minus previous); [discriminate|].
      injection H as <-. simpl. lia.
    - rewrite scan_step_blank in H by assumption.
      destruct (keeps_blank previous d); injection H as <-; simpl;
        rewrite ?length_app; simpl; lia. }
  destruct (is_dquote c) eqn:H3.
  { unfold scan_step in H. cbn [sc_out sc_previous sc_rest] in H.
    rewrite index_at_head in H. cbn [obind] in H. rewrite H1, H2, H3 in H.
    rewrite slice_from_1 in H. cbn [obind] in H.
    destruct (copy_string (S (length b)) (out ++ [c]) b) as [[out1 b1]| |] eqn:Hcopy;
      try discriminate.
    cbn [obind fst snd] in H.
    apply copy_string_inv in Hcopy as (body & q & rest & _ & _ & -> & -> & ->).
    rewrite emit_first_cons in H. injection H as <-. cbn [sc_rest sc_out].
    repeat (rewrite length_app || cbn [length app]). lia. }
  destruct (is_slash c) eqn:H4.
  { destruct b as [|d b].
    - now rewrite scan_step_last_slash in H.
    - destruct (is_star d) eqn:H5.
      + rewrite scan_step_comment in H by assumption.
        destruct (slice_from (c :: d :: b) _) as [r| |] eqn:Hr; try discriminate.
        cbn [obind] in H. injection H as <-. cbn [sc_rest sc_out].
        apply slice_from_inv in Hr as (n & Hn & Hle & ->).
        rewrite length_skipn. simpl in *. lia.
      + rewrite scan_step_slash in H by assumption. injection H as <-. simpl.
        rewrite length_app. simpl. lia. }
  rewrite scan_step_other in H by assumption. injection H as <-. simpl.
  rewrite length_app. simpl. lia.
Qed.

(** The removal of a comment makes them shorter. *)
Lemma scan_step_comment_length out previous c d rest s' :
  is_slash c = true -> is_star d = true ->
  scan_step (Scan out previous (c :: d :: rest)) = Ok s' ->
  (length (sc_out s') + length (sc_rest s') < length out + length (c :: d :: rest))%nat.
Proof.
  intros Hc Hd H. rewrite scan_step_comment in H by assumption.
  destruct (slice_from (c :: d :: rest) _) as [r| |] eqn:Hr; try discriminate.
  cbn [obind] in H. injection H as <-. cbn [sc_rest sc_out].
  apply slice_from_inv in Hr as (n & Hn & Hle & ->).
  rewrite length_skipn.
  destruct (Index_range rest comment_close) as [E|(k & E)]; rewrite E in Hn;
    simpl in *; lia.
Qed.

Lemma scan_loop_length fuel :
  forall s out,
    scan_loop fuel s = Ok out ->
    (length out <= length (sc_out s) + length (sc_rest s))%nat.
Proof.
  induction fuel as [|fuel IH]; intros s out H; [discriminate|].
  cbn [scan_loop] in H. destruct (sc_rest s) as [|c rest] eqn:Hrest.
  - injection H as <-. lia.
  - destruct (scan_step s) as [s'| |] eqn:Hstep; try discriminate.
    cbn [obind] in H. apply IH in H. apply scan_step_length in Hstep.
    rewrite Hrest in Hstep. lia.
Qed.

Lemma scan_reaches_length s0 s :
  scan_reaches s0 s ->
  (length (sc_out s) + length (sc_rest s)
   <= length (sc_out s0) + length (sc_rest s0))%nat.
Proof.
  induction 1 as [s|s s1 s2 Hne Hstep _ IH]; [lia|].
  apply scan_step_length in Hstep. lia.
Qed.

(** A scan that returns its input byte for byte has arrived at no slash
    that opens a comment or is the last byte. *)
Lemma scan_fixed_slashes_kept b :
  removeWhitespace b true = Ok b -> slashes_kept b.
Proof.
  intros Hfix s c rest Hreach Hrest Hc.
  unfold removeWhitespace in Hfix. cbn [negb] in Hfix.
  rewrite (scan_reaches_loop _ _ Hreach) in Hfix
    by (unfold scan_start; cbn [sc_rest]; lia).
  pose proof (scan_reaches_length _ _ Hreach) as Hlen.
  unfold scan_start in Hlen. cbn [sc_out sc_rest length] in Hlen.
  destruct s as [out previous r]. cbn [sc_rest sc_out] in *. subst r.
  cbn [scan_loop sc_rest] in Hfix.
  destruct rest as [|d rest'].
  { now rewrite scan_step_last_slash in Hfix. }
  exists d, rest'. split; [reflexivity|].
  destruct (is_star d) eqn:Hd; [exfalso|reflexivity].
  destruct (scan_step (Scan out previous (c :: d :: rest'))) as [s'| |] eqn:Hstep;
    try discriminate.
  cbn [obind] in Hfix. apply scan_loop_length in Hfix.
  pose proof (scan_step_comment_length _ _ _ _ _ _ Hc Hd Hstep). lia.
Qed.

(** ** Strings *)

Lemma string_app_cons a s t : String a s +:+ t = String a (s +:+ t).
Proof. reflexivity. Qed.

Lemma string_length_app s t :
  String.length (s +:+ t) = (String.length s + String.length t)%nat.
Proof.
  induction s as [|a s IH]; [reflexivity|].
  rewrite string_app_cons. cbn [String.length]. now rewrite IH.
Qed.

Lemma string_app_nil_r s : s +:+ "" = s.
Proof. induction s as [|a s IH]; [reflexivity|]. now rewrite string_app_cons, IH. Qed.

Lemma string_app_assoc s t u : (s +:+ t) +:+ u = s +:+ (t +:+ u).
Proof.
  induction s as [|a s IH]; [reflexivity|]. now rewrite !string_app_cons, IH.
Qed.

(** ** The guarded index-access pattern *)

(** C5.  [rangeCheck] returns the bare access pattern exactly when the
    index is constant and the container is a fixed-length array.  In the
    three other combinations it returns the conditional
    [(guard ? $throwRuntimeError("index out of range") : pattern)]: the
    guard compares the index with [length] for an array and with [$length]
    for a dynamic-length container, and for an index that is not constant
    it first tests [index < 0]. *)
Theorem rangeCheck_spec (pattern : string) :
  rangeCheck pattern true true = pattern
  /\ rangeCheck pattern true false
     = "(%2f >= %1e.$length" +:+ range_fault +:+ pattern +:+ ")"
  /\ rangeCheck pattern false true
     = "((%2f < 0 || %2f >= %1e.length)" +:+ range_fault +:+ pattern +:+ ")"
  /\ rangeCheck pattern false false
     = "((%2f < 0 || %2f >= %1e.$length)" +:+ range_fault +:+ pattern +:+ ")"
  /\ (forall constantIndex array,
        rangeCheck pattern constantIndex array = pattern
        <-> constantIndex && array = true).
Proof.
  repeat split; try reflexivity.
  - intros H. destruct constantIndex, array; try reflexivity;
      apply (f_equal String.length) in H; exfalso; revert H;
      unfold rangeCheck; cbn [andb negb];
      rewrite ?string_length_app; cbn [String.length]; lia.
  - intros H. unfold rangeCheck. now rewrite H.
Qed.

(** ** The minifier *)

Lemma removeWhitespace_reaches b s :
  scan_reaches (scan_start b) s ->
  removeWhitespace b true = scan_loop (S (length (sc_rest s))) s.
Proof.
  intros H. unfold removeWhitespace. cbn [negb].
  apply (scan_reaches_loop _ _ H). unfold scan_start. cbn [sc_rest]. lia.
Qed.

(** C8 (amended).  When [removeWhitespace] returns [out] for an input,
    then (1) applying it to [out] returns [out] again exactly when the
    scan of [out] arrives at no slash that is the last byte or stands
    before a star; the slashes inside the string literals and the markers
    of [out] are not among them, the scan copies those whole; (2) every
    double-quoted string literal the scan of the input arrives at is
    found in [out] byte for byte, quotes and escapes included; (3) every
    debug-position marker the scan of the input arrives at, the sentinel
    byte and its four payload bytes, is found in [out] byte for byte. *)
Theorem removeWhitespace_idempotent_literals_markers (b out : list byte) :
  removeWhitespace b true = Ok out ->
  (removeWhitespace out true = Ok out <-> slashes_kept out)
  /\ (forall s q body q' rest,
        scan_reaches (scan_start b) s ->
        sc_rest s = q :: body ++ q' :: rest ->
        is_dquote q = true -> is_dquote q' = true -> StrBody body ->
        exists t, out = sc_out s ++ (q :: body ++ [q']) ++ t)
  /\ (forall s c payload rest,
        scan_reaches (scan_start b) s ->
        sc_rest s = c :: payload ++ rest ->
        is_backspace c = true -> length payload = 4%nat ->
        exists t, out = sc_out s ++ (c :: payload) ++ t).
Proof.
  intros Hout. split; [|split].
  - split; [apply scan_fixed_slashes_kept|].
    intros Hs. unfold removeWhitespace in *. cbn [negb] in *.
    apply scan_loop_minified in Hout as (t & -> & Ht).
    unfold slashes_kept, scan_start in *. cbn [sc_out sc_previous app] in *.
    apply (scan_loop_copies _ _ Ht [] Hs). lia.
  - intros [o p r] q body q' rest Hreach Hrest Hq Hq' Hbody. cbn [sc_rest sc_out] in *.
    subst r. rewrite (removeWhitespace_reaches _ _ Hreach) in Hout.
    cbn [scan_loop sc_rest] in Hout.
    rewrite scan_step_string in Hout by assumption. cbn [obind] in Hout.
    rewrite (scan_loop_more_fuel _ _ (S (length rest))) in Hout
      by (cbn [sc_rest]; simpl; rewrite ?length_app; simpl; lia).
    apply scan_loop_minified in Hout as (t & -> & _). cbn [sc_out].
    exists t. now rewrite <- !app_assoc.
  - intros [o p r] c payload rest Hreach Hrest Hc Hlen. cbn [sc_rest sc_out] in *.
    subst r. rewrite (removeWhitespace_reaches _ _ Hreach) in Hout.
    cbn [scan_loop sc_rest] in Hout.
    rewrite scan_step_marker in Hout by assumption. cbn [obind] in Hout.
    rewrite (scan_loop_more_fuel _ _ (S (length rest))) in Hout
      by (cbn [sc_rest]; simpl; rewrite ?length_app; simpl; lia).
    apply scan_loop_minified in Hout as (t & -> & _). cbn [sc_out].
    exists t. now rewrite <- !app_assoc.
Qed.

(** C10 (amended).  [removeWhitespace] with [minify] enabled is not
    total.  It panics with an index out of range when the scan arrives at
    a blank that is the last byte while the variable [previous] of the
    loop is identifier-like or a minus sign (only then is the byte after
    the blank read); with any other [previous] such a final blank is
    dropped and the output returned.  It panics with slice bounds out of
    range when the scan arrives at a quote whose literal is not closed.
    [previous] is the byte that the statements after the [switch] have
    appended last, and the zero byte before that; a marker, a removed
    blank and a comment leave it as it is. *)
Theorem removeWhitespace_partial (b : list byte) (s : scan) :
  scan_reaches (scan_start b) s ->
  (forall w, sc_rest s = [w] -> is_blank w = true ->
     removeWhitespace b true
     = if needsSpace (sc_previous s) || is_minus (sc_previous s)
       then Panic "index out of range" else Ok (sc_out s))
  /\ (forall q u, sc_rest s = q :: u -> is_dquote q = true -> Unterminated u ->
        removeWhitespace b true = Panic "slice bounds out of range").
Proof.
  intros Hreach. rewrite (removeWhitespace_reaches _ _ Hreach).
  destruct s as [o p r]. cbn [sc_rest sc_out sc_previous]. split.
  - intros w -> Hw. cbn [scan_loop sc_rest length].
    rewrite scan_step_last_blank by assumption.
    now destruct (needsSpace p || is_minus p).
  - intros q u -> Hq Hu. cbn [scan_loop sc_rest length].
    now rewrite scan_step_unterminated.
Qed.

(** The counterexamples to the claim as stated.  The two passes on
    [/ * a */b]: the first pass removes the blanks between a slash and a
    star, the second pass reads the pair as a comment opener.  And a
    literal in single quotes, in which a blank is removed. *)
Lemma removeWhitespace_not_idempotent :
  removeWhitespace (bytes_of "/ * a */b") true = Ok (bytes_of "/*a*/b")
  /\ removeWhitespace (bytes_of "/*a*/b") true = Ok (bytes_of "b")
  /\ removeWhitespace (bytes_of "x='a  b';") true = Ok (bytes_of "x='a b';").
Proof. repeat split; reflexivity. Qed.

Ltac scan_to_state :=
  repeat first
    [ apply scan_reaches_here
    | eapply scan_reaches_step; [discriminate | vm_compute; reflexivity | ] ].

Lemma removeWhitespace_idempotent_witness :
  removeWhitespace sample_js true = Ok sample_min
  /\ removeWhitespace sample_min true = Ok sample_min
  /\ slashes_kept sample_min.
Proof.
  split; [reflexivity|]. split; [reflexivity|].
  apply (proj1 (proj1 (removeWhitespace_idempotent_literals_markers
                         sample_js sample_min eq_refl))).
  reflexivity.
Defined.

(** Inputs that end in a blank, or hold a quote that nothing closes, and
    on which [removeWhitespace] returns: a statement that ends in a
    semicolon and a newline, a marker whose payload ends in the byte 32,
    and a marker whose payload ends in the byte 34. *)
Lemma removeWhitespace_final_blank_returns :
  removeWhitespace [";"; "010"]%byte true = Ok [";"%byte]
  /\ removeWhitespace ["008"; "000"; "000"; "000"; "032"]%byte true
     = Ok ["008"; "000"; "000"; "000"; "032"]%byte
  /\ removeWhitespace ["008"; "000"; "000"; "000"; "034"]%byte true
     = Ok ["008"; "000"; "000"; "000"; "034"]%byte.
Proof. repeat split; reflexivity. Qed.

Lemma removeWhitespace_partial_witness :
  removeWhitespace (bytes_of "a ") true = Panic "index out of range"
  /\ removeWhitespace (bytes_of ("x = " +:+ dq +:+ "a\")) true
     = Panic "slice bounds out of range"
  /\ removeWhitespace ["a"; "008"; "000"; "000"; "000"; "001"; " "]%byte true
     = Panic "index out of range"
  /\ removeWhitespace [";"; "008"; "000"; "000"; "000"; "a"; " "]%byte true
     = Ok [";"; "008"; "000"; "000"; "000"; "a"]%byte.
Proof.
  split; [|split; [|split]].
  - refine (proj1 (removeWhitespace_partial (bytes_of "a ")
                     (Scan ["a"%byte] "a"%byte [" "%byte]) _) " "%byte eq_refl eq_refl).
    scan_to_state.
  - refine (proj2 (removeWhitespace_partial (bytes_of ("x = " +:+ dq +:+ "a\"))
                     (Scan (bytes_of "x=") "="%byte (bytes_of (dq +:+ "a\"))) _)
              _ _ eq_refl eq_refl _).
    + scan_to_state.
    + apply Unterminated_plain; [reflexivity..|].
      apply Unterminated_backslash. reflexivity.
  - refine (proj1 (removeWhitespace_partial
                     ["a"; "008"; "000"; "000"; "000"; "001"; " "]%byte
                     (Scan ["a"; "008"; "000"; "000"; "000"; "001"]%byte "a"%byte
                        [" "%byte]) _) " "%byte eq_refl eq_refl).
    scan_to_state.
  - refine (proj1 (removeWhitespace_partial
                     [";"; "008"; "000"; "000"; "000"; "a"; " "]%byte
                     (Scan [";"; "008"; "000"; "000"; "000"; "a"]%byte ";"%byte
                        [" "%byte]) _) " "%byte eq_refl eq_refl).
    scan_to_state.
Defined.

(** * Properties of the emission core *)

Lemma Write_no_pos fuel b c :
  posAvailable c = false ->
  Write_depth (S fuel) b c = Ok (set_output (output c ++ b) c).
Proof. intros H. cbn [Write_depth]. unfold writePos_with. now rewrite H. Qed.

Lemma Write_with_pos fuel b c :
  posAvailable c = true ->
  Write_depth (S (S fuel)) b c
  = Ok (set_output (output c ++ marker_of (pos c) ++ b) (set_posAvailable false c)).
Proof.
  intros H. cbn [Write_depth]. unfold writePos_with. rewrite H.
  destruct c; cbn. unfold marker_of. rewrite <- !app_assoc. reflexivity.
Qed.

(** Depth two is enough for [Write]: more depth gives the same result. *)
Lemma Write_depth_enough fuel b c : Write_depth (S (S fuel)) b c = Write b c.
Proof.
  unfold Write. destruct (posAvailable c) eqn:H.
  - now rewrite !Write_with_pos.
  - now rewrite !Write_no_pos.
Qed.

Lemma Write_spec b c :
  Write b c
  = Ok (if posAvailable c
        then set_output (output c ++ marker_of (pos c) ++ b) (set_posAvailable false c)
        else set_output (output c ++ b) c).
Proof.
  unfold Write. destruct (posAvailable c) eqn:H.
  - now rewrite Write_with_pos.
  - now rewrite Write_no_pos.
Qed.

Lemma writePos_spec c :
  writePos c
  = Ok (if posAvailable c
        then set_output (output c ++ marker_of (pos c)) (set_posAvailable false c)
        else c).
Proof.
  unfold writePos, writePos_with. destruct (posAvailable c) eqn:H; [|reflexivity].
  rewrite Write_spec. cbn [obind]. rewrite Write_spec.
  destruct c; cbn. unfold marker_of. now rewrite <- !app_assoc.
Qed.

Lemma run_ops_rendered ops :
  forall c, exists c',
    run_ops ops c = Ok c'
    /\ output c' = output c ++ rendered (pending_pos c) ops.
Proof.
  induction ops as [|[p|b] ops IH]; intros c.
  - exists c. cbn. now rewrite app_nil_r.
  - destruct (IH (SetPos p c)) as (c' & H1 & H2). exists c'. cbn [run_ops rendered].
    split; [exact H1|]. rewrite H2. destruct c; reflexivity.
  - cbn [run_ops rendered]. rewrite Write_spec. cbn [obind].
    unfold pending_pos. destruct (posAvailable c) eqn:Hp.
    + destruct (IH (set_output (output c ++ marker_of (pos c) ++ b) (set_posAvailable false c)))
        as (c' & H1 & H2).
      exists c'. split; [exact H1|]. rewrite H2. destruct c; cbn.
      now rewrite <- !app_assoc.
    + destruct (IH (set_output (output c ++ b) c)) as (c' & H1 & H2).
      exists c'. split; [exact H1|]. rewrite H2. destruct c; cbn in *. subst.
      now rewrite <- !app_assoc.
Qed.

Lemma byte_of_Z_value z : Z.of_N (Byte.to_N (byte_of_Z z)) = z mod 256.
Proof.
  unfold byte_of_Z.
  assert (0 <= z mod 256 < 256) as Hr by (apply Z.mod_pos_bound; lia).
  destruct (Byte.of_N (Z.to_N (z mod 256))) as [b|] eqn:E.
  - apply Byte.to_of_N in E. rewrite E. lia.
  - exfalso. pose proof (Byte.to_of_N_option_map (Z.to_N (z mod 256))) as H.
    rewrite E in H. cbn in H.
    destruct (N.leb_spec (Z.to_N (z mod 256)) 255); [discriminate|lia].
Qed.

(** The four bytes written are the big-endian digits of the position. *)
Lemma decode32_BigEndian32 v : 0 <= v < 2 ^ 32 -> decode32 (BigEndian32 v) = v.
Proof.
  intros Hv. unfold decode32, BigEndian32. cbn [fold_left].
  rewrite !byte_of_Z_value, !Z.shiftr_div_pow2 by lia.
  change (2 ^ 24) with 16777216. change (2 ^ 16) with 65536. change (2 ^ 8) with 256.
  change (2 ^ 32) with 4294967296 in Hv.
  assert (E2 : v / 65536 = v / 256 / 256) by (rewrite Z.div_div by lia; reflexivity).
  assert (E3 : v / 16777216 = v / 256 / 256 / 256)
    by (rewrite !Z.div_div by lia; reflexivity).
  rewrite E2, E3.
  pose proof (Z.div_mod v 256 ltac:(lia)).
  pose proof (Z.div_mod (v / 256) 256 ltac:(lia)).
  pose proof (Z.div_mod (v / 256 / 256) 256 ltac:(lia)).
  assert (0 <= v / 256 / 256 / 256 < 256).
  { rewrite <- E3. split; [apply Z.div_pos; lia|apply Z.div_lt_upper_bound; lia]. }
  rewrite (Z.mod_small (v / 256 / 256 / 256)) by lia. lia.
Qed.

Lemma CatchOutput_spec indent (f : M unit) st st1 :
  f (catch_entry indent st) = Ok (tt, st1) ->
  exists st',
    CatchOutput indent f st
    = Ok (output (st_c st1) ++ pending_marker (st_c st1), st')
    /\ posAvailable (st_c st') = false
    /\ output (st_c st') = output (st_c st)
    /\ indentation (st_p st')
       = wrap64 (indentation (st_p st1) - indent).
Proof.
  intros Hf. unfold CatchOutput, mbind, get_c, modify_c, modify_p, on_c, ret.
  cbn [obind fst snd st_c st_p]. unfold catch_entry in Hf. rewrite Hf.
  cbn [obind fst snd st_c st_p]. rewrite writePos_spec. cbn [obind fst snd st_c st_p].
  eexists. split; [|split; [|split]].
  - f_equal. f_equal. unfold pending_marker, pending_pos.
    destruct (posAvailable (st_c st1)); destruct (st_c st1); cbn;
      [reflexivity|now rewrite app_nil_r].
  - cbn. destruct (posAvailable (st_c st1)) eqn:E; destruct (st_c st1); cbn in *; auto.
  - cbn. destruct (posAvailable (st_c st1)); destruct (st_c st1); reflexivity.
  - cbn. destruct (st_p st1); reflexivity.
Qed.

(** C9.  After [SetPos(p)] the next [Write] puts one marker, the byte 8
    and the four big-endian bytes of [uint32(p)], right before its bytes,
    and clears the pending position; a [Write] without a pending position
    appends its bytes only.  So in any run of [SetPos] and [Write] calls
    the output grows by [rendered]: a marker before each write that is the
    first after a [SetPos], carrying the last position set, and nowhere
    else.  [CatchOutput] returns what its callback wrote followed by the
    marker of a position still pending, clears the pending position and
    restores the output it found. *)
Theorem debug_position_marker_flushed_once :
  (forall p b c, exists c',
      Write b (SetPos p c) = Ok c'
      /\ output c' = output c ++ marker_of p ++ b
      /\ posAvailable c' = false)
  /\ (forall b c, posAvailable c = false ->
        Write b c = Ok (set_output (output c ++ b) c))
  /\ (forall ops c, exists c',
        run_ops ops c = Ok c'
        /\ output c' = output c ++ rendered (pending_pos c) ops)
  /\ (forall indent (f : M unit) st st1,
        f (catch_entry indent st) = Ok (tt, st1) ->
        exists st',
          CatchOutput indent f st
          = Ok (output (st_c st1) ++ pending_marker (st_c st1), st')
          /\ posAvailable (st_c st') = false
          /\ output (st_c st') = output (st_c st))
  /\ (forall p,
        marker_of p = "008"%byte :: BigEndian32 (p mod 2 ^ 32)
        /\ length (marker_of p) = 5%nat
        /\ decode32 (BigEndian32 (p mod 2 ^ 32)) = p mod 2 ^ 32).
Proof.
  split; [|split; [|split; [|split]]].
  - intros p b c. rewrite Write_spec. eexists. split; [reflexivity|].
    destruct c; cbn. split; reflexivity.
  - intros b c H. rewrite Write_spec. now rewrite H.
  - apply run_ops_rendered.
  - intros indent f st st1 Hf.
    destruct (CatchOutput_spec indent f st st1 Hf) as (st' & H1 & H2 & H3 & _).
    exists st'. auto.
  - intros p. repeat split.
    apply decode32_BigEndian32. apply Z.mod_pos_bound. lia.
Qed.

(** * Properties of the symbol naming registry *)

Lemma wrap64_small z : - 2 ^ 63 <= z < 2 ^ 63 -> wrap64 z = z.
Proof. intros H. unfold wrap64. rewrite Z.mod_small; lia. Qed.

Lemma no_dollar_app s t : no_dollar (s +:+ t) = no_dollar s && no_dollar t.
Proof.
  induction s as [|a s IH]; [reflexivity|].
  rewrite string_app_cons. cbn [no_dollar]. now rewrite IH, andb_assoc.
Qed.

Lemma no_dollar_suffixed base n : no_dollar (suffixed base n) = false.
Proof.
  unfold suffixed. rewrite no_dollar_app.
  change ("$" +:+ pretty n) with (String "$" (pretty n)).
  cbn [no_dollar]. apply andb_false_r.
Qed.

Lemma allowed_no_dollar s : has_disallowed_byte s = false -> no_dollar s = true.
Proof.
  induction s as [|a s IH]; [reflexivity|]. cbn [has_disallowed_byte no_dollar].
  destruct ((N_of_ascii a <? 48) || (122 <? N_of_ascii a))%N eqn:E; [discriminate|].
  intros H. rewrite (IH H), andb_true_r. unfold is_dollar.
  apply orb_false_iff in E as [E _]. apply N.ltb_ge in E.
  apply negb_true_iff, N.eqb_neq. lia.
Qed.

Lemma base_name_no_dollar name : no_dollar (base_name name) = true.
Proof.
  unfold base_name. destruct (has_disallowed_byte name) eqn:E; [reflexivity|].
  now apply allowed_no_dollar.
Qed.

Lemma base_name_not_empty name : name <> EmptyString -> base_name name <> EmptyString.
Proof. unfold base_name. now destruct (has_disallowed_byte name). Qed.

(** Two bases without a dollar sign and two suffixes: equal names have
    equal parts. *)
Lemma dollar_split b b' d d' :
  no_dollar b = true -> no_dollar b' = true ->
  b +:+ String "$" d = b' +:+ String "$" d' -> b = b' /\ d = d'.
Proof.
  revert b'. induction b as [|a b IH]; intros [|a' b'] Hb Hb' H.
  - cbn in H. now injection H.
  - rewrite string_app_cons in H. cbn in H. injection H as <- _.
    cbn in Hb'. discriminate.
  - rewrite string_app_cons in H. cbn in H. injection H as -> _.
    cbn in Hb. discriminate.
  - rewrite !string_app_cons in H. injection H as <- H.
    cbn [no_dollar] in Hb, Hb'.
    apply andb_true_iff in Hb as [_ Hb]. apply andb_true_iff in Hb' as [_ Hb'].
    destruct (IH _ Hb Hb' H) as [-> ->]. auto.
Qed.

Lemma display_name_inj b n b' n' :
  no_dollar b = true -> no_dollar b' = true -> 0 <= n -> 0 <= n' ->
  display_name b n = display_name b' n' -> b = b' /\ n = n'.
Proof.
  intros Hb Hb' Hn Hn'. unfold display_name.
  destruct (Z.ltb_spec 0 n) as [L|L], (Z.ltb_spec 0 n') as [L'|L']; intros H.
  - unfold suffixed in H.
    change ("$" +:+ pretty n) with (String "$" (pretty n)) in H.
    change ("$" +:+ pretty n') with (String "$" (pretty n')) in H.
    destruct (dollar_split _ _ _ _ Hb Hb' H) as [-> E].
    split; [reflexivity|]. now apply (inj pretty) in E.
  - subst b'. now rewrite no_dollar_suffixed in Hb'.
  - subst b. now rewrite no_dollar_suffixed in Hb.
  - split; [assumption|lia].
Qed.

Lemma count_of_insert vars k v k' :
  count_of (<[k := v]> vars) k' = if decide (k = k') then v else count_of vars k'.
Proof. unfold count_of. rewrite lookup_insert. now destruct (decide (k = k')). Qed.

Lemma registry_room_counts room vars : registry_room room vars -> counts_ok vars.
Proof.
  intros [_ H] k. unfold count_of. destruct (vars !! k) as [v|] eqn:E; cbn; [|lia].
  destruct (H k v E) as (? & _ & ?). auto.
Qed.

Lemma counts_ok_insert vars b :
  counts_ok vars -> no_dollar b = true ->
  counts_ok (<[b := count_of vars b + 1]> vars).
Proof.
  intros H Hb k. rewrite count_of_insert. destruct (decide (b = k)) as [<-|_].
  - destruct (H b). split; [lia|auto].
  - apply H.
Qed.

Lemma issued_insert vars b name :
  counts_ok vars -> issued vars name ->
  issued (<[b := count_of vars b + 1]> vars) name.
Proof.
  intros Hok (base & n & Hn & ->). exists base, n. split; [|reflexivity].
  rewrite count_of_insert. destruct (decide (b = base)) as [<-|_]; lia.
Qed.

Lemma plain_names_fresh requests :
  forall vars, counts_ok vars ->
    NoDup (plain_names vars requests)
    /\ (forall o, o ∈ plain_names vars requests -> ~ issued vars o).
Proof.
  induction requests as [|[name lvl] rest IH]; intros vars Hok.
  - split; [constructor|]. intros o Ho. now apply elem_of_nil in Ho.
  - cbn [plain_names].
    pose proof (base_name_no_dollar name) as Hb.
    remember (base_name name) as b eqn:Eb. clear Eb.
    destruct (Hok b) as [Hn0 _].
    remember (count_of vars b) as n eqn:En.
    destruct (IH (<[b := n + 1]> vars)) as [IH1 IH2].
    { subst n. now apply counts_ok_insert. }
    assert (Hnew : ~ issued vars (display_name b n)).
    { intros (b' & n' & Hn' & E).
      destruct (Hok b') as [_ Hd].
      apply display_name_inj in E as [E1 E2]; auto; try lia.
      - subst b' n'. lia.
      - apply Hd. lia. }
    split.
    + constructor; [|exact IH1]. intros Hin. apply (IH2 _ Hin).
      exists b, n. split; [|reflexivity]. rewrite count_of_insert.
      destruct (decide (b = b)); [lia|congruence].
    + intros o Ho. apply elem_of_cons in Ho as [->|Ho]; [exact Hnew|].
      intros Hiss. apply (IH2 _ Ho). subst n. now apply issued_insert.
Qed.

Lemma plain_names_expected requests :
  forall vars seen,
    (forall k, count_of vars k = Z.of_nat (count_occ string_dec seen k)) ->
    plain_names vars requests = expected_names seen requests.
Proof.
  induction requests as [|[name lvl] rest IH]; intros vars seen H; [reflexivity|].
  cbn [plain_names expected_names]. f_equal.
  - unfold display_name, suffixed. rewrite H.
    destruct (count_occ string_dec seen (base_name name)); [reflexivity|].
    replace (0 <? Z.of_nat (S n)) with true by (symmetry; apply Z.ltb_lt; lia).
    replace (Z.of_nat (S n) =? 0) with false by (symmetry; apply Z.eqb_neq; lia).
    reflexivity.
  - apply IH. intros k. rewrite count_of_insert. cbn [count_occ].
    destruct (decide (base_name name = k)) as [E|E];
      destruct (string_dec (base_name name) k); try congruence; try apply H.
    rewrite H. subst k. lia.
Qed.

Lemma registry_room_count room vars k :
  registry_room room vars ->
  0 <= count_of vars k /\ count_of vars k + room < 2 ^ 63.
Proof.
  intros [Hr H]. unfold count_of. destruct (vars !! k) as [v|] eqn:E; cbn.
  - destruct (H k v E) as (? & ? & _). lia.
  - lia.
Qed.

Lemma registry_room_insert room vars b :
  registry_room (room + 1) vars -> 0 <= room -> no_dollar b = true ->
  registry_room room (<[b := count_of vars b + 1]> vars).
Proof.
  intros H Hr Hb.
  pose proof (registry_room_count (room + 1) vars b H) as Hc.
  destruct H as [Hr1 H]. split; [lia|]. intros k v. rewrite lookup_insert.
  destruct (decide (b = k)) as [<-|_].
  - intros [= <-]. repeat split; auto; lia.
  - intros E. destruct (H k v E) as (? & ? & ?). repeat split; auto; lia.
Qed.

(** One allocation in plain mode. *)
Lemma newVariableWithLevel_plain name pkgLevel st :
  minify (st_p st) = false -> name <> EmptyString ->
  0 <= count_of (allVars (st_c st)) (base_name name) < 2 ^ 63 - 1 ->
  exists st',
    newVariableWithLevel name pkgLevel st
    = Ok (display_name (base_name name)
            (count_of (allVars (st_c st)) (base_name name)), st')
    /\ st_p st' = st_p st
    /\ allVars (st_c st')
       = <[base_name name := count_of (allVars (st_c st)) (base_name name) + 1]>
           (allVars (st_c st)).
Proof.
  intros Hm Hne Hn. unfold newVariableWithLevel.
  destruct (decide (name = EmptyString)) as [|_]; [contradiction|].
  rewrite Hm. fold (base_name name). cbn [obind].
  rewrite wrap64_small by lia. fold (display_name (base_name name)
    (count_of (allVars (st_c st)) (base_name name))).
  destruct pkgLevel; eexists; (split; [reflexivity|]);
    destruct (st_c st); split; reflexivity.
Qed.

Lemma allocate_all_plain requests :
  forall st,
    minify (st_p st) = false ->
    Forall (fun r => fst r <> EmptyString) requests ->
    registry_room (Z.of_nat (length requests)) (allVars (st_c st)) ->
    exists st',
      allocate_all requests st
      = Ok (plain_names (allVars (st_c st)) requests, st').
Proof.
  induction requests as [|[name lvl] rest IH]; intros st Hm Hne Hroom.
  - eexists. reflexivity.
  - apply Forall_cons in Hne as [Hne1 Hne]. cbn [fst] in Hne1.
    cbn [length] in Hroom. rewrite Nat2Z.inj_succ in Hroom.
    replace (Z.succ (Z.of_nat (length rest))) with (Z.of_nat (length rest) + 1)
      in Hroom by lia.
    pose proof (registry_room_count _ _ (base_name name) Hroom) as Hc.
    destruct (newVariableWithLevel_plain name lvl st Hm Hne1 ltac:(lia))
      as (st1 & E1 & Hp & Hv).
    destruct (IH st1) as (st2 & E2).
    + now rewrite Hp.
    + exact Hne.
    + rewrite Hv. apply registry_room_insert; auto; [lia|apply base_name_no_dollar].
    + exists st2. cbn [allocate_all plain_names]. unfold mbind at 1. rewrite E1.
      cbn [obind fst snd]. unfold mbind at 1. rewrite E2. cbn [obind fst snd].
      unfold ret. now rewrite Hv.
Qed.

(** C1.  In plain mode a run of allocations on one registry with room
    for them returns names that are pairwise distinct and that no earlier
    allocation of the registry has returned.  The names are a function of
    the requests and the counts ([plain_names]); on a new registry the
    allocation of a base name that has [k] earlier allocations returns the
    base name for [k = 0] and the base name followed by [$k] otherwise,
    where a name with a byte outside ['0'..'z'] counts under the base
    name [nonAsciiName]. *)
Theorem plain_allocation_distinct (requests : list (string * bool)) (st : state) :
  minify (st_p st) = false ->
  Forall (fun r => fst r <> EmptyString) requests ->
  registry_room (Z.of_nat (length requests)) (allVars (st_c st)) ->
  exists names st',
    allocate_all requests st = Ok (names, st')
    /\ names = plain_names (allVars (st_c st)) requests
    /\ NoDup names
    /\ (forall o, o ∈ names -> ~ issued (allVars (st_c st)) o)
    /\ (allVars (st_c st) = ∅ -> names = expected_names [] requests).
Proof.
  intros Hm Hne Hroom.
  destruct (allocate_all_plain requests st Hm Hne Hroom) as (st' & E).
  exists (plain_names (allVars (st_c st)) requests), st'.
  pose proof (registry_room_counts _ _ Hroom) as Hok.
  destruct (plain_names_fresh requests _ Hok) as [H1 H2].
  repeat split; auto.
  intros Hempty. rewrite Hempty. apply plain_names_expected.
  intros k. unfold count_of. now rewrite lookup_empty.
Qed.

Lemma registry_room_empty room : 0 <= room < 2 ^ 63 -> registry_room room ∅.
Proof. intros Hr. split; [exact Hr|]. intros k v H. now rewrite lookup_empty in H. Qed.

Lemma plain_allocation_witness :
  exists st',
    allocate_all [("i", false); ("i", false); ("a-b", false); ("i", true)]
      (new_state false)
    = Ok (["i"; "i$1"; "nonAsciiName"; "i$2"], st').
Proof.
  destruct (plain_allocation_distinct
              [("i", false); ("i", false); ("a-b", false); ("i", true)]
              (new_state false) eq_refl)
    as (names & st' & E & Hnames & _).
  - repeat constructor; discriminate.
  - apply registry_room_empty. cbn. lia.
  - exists st'. rewrite E, Hnames. reflexivity.
Defined.

(** ** The minified counter *)

Lemma string_of_rune_letter offset m acc :
  0 <= offset -> offset + 25 < 128 -> 0 <= m < 26 ->
  string_of_rune (offset + m) +:+ acc = String (letter offset m) acc.
Proof.
  intros H1 H2 Hm. unfold string_of_rune.
  replace ((0 <=? offset + m) && (offset + m <? 128)) with true; [reflexivity|].
  symmetry. apply andb_true_iff. split; [apply Z.leb_le|apply Z.ltb_lt]; lia.
Qed.

Lemma letter_inj offset m m' :
  0 <= offset -> offset + 25 < 128 -> 0 <= m < 26 -> 0 <= m' < 26 ->
  letter offset m = letter offset m' -> m = m'.
Proof.
  intros H1 H2 Hm Hm' E. unfold letter in E.
  apply (f_equal N_of_ascii) in E.
  rewrite !N_ascii_embedding in E by lia. lia.
Qed.

Lemma minified_digits_step fuel offset j acc :
  0 <= offset -> offset + 25 < 128 -> 0 <= j ->
  minified_digits (S fuel) offset j acc
  = if j <? 26 then Ok (String (letter offset j) acc)
    else minified_digits fuel offset (j / 26 - 1) (String (letter offset (j mod 26)) acc).
Proof.
  intros H1 H2 Hj. cbn [minified_digits].
  rewrite Z.rem_mod_nonneg, Z.quot_div_nonneg by lia.
  rewrite string_of_rune_letter by (auto; apply Z.mod_pos_bound; lia).
  destruct (Z.ltb_spec j 26).
  - rewrite Z.div_small, Z.mod_small by lia. reflexivity.
  - assert (1 <= j / 26) by (apply Z.div_le_lower_bound; lia).
    replace (j / 26 - 1 =? -1) with false; [reflexivity|].
    symmetry. apply Z.eqb_neq. lia.
Qed.

Lemma next_digit_bounds j : 26 <= j -> 0 <= j / 26 - 1 < j.
Proof.
  intros H. assert (1 <= j / 26) by (apply Z.div_le_lower_bound; lia).
  assert (j / 26 < j) by (apply Z.div_lt; lia). lia.
Qed.

(** The inner loop returns for every counter value that is not negative,
    and its result is longer than the accumulator. *)
Lemma minified_digits_total offset :
  0 <= offset -> offset + 25 < 128 ->
  forall fuel j acc, 0 <= j -> (Z.to_nat j < fuel)%nat ->
  exists r, minified_digits fuel offset j acc = Ok r
            /\ (String.length acc < String.length r)%nat
            /\ (26 <= j -> (S (String.length acc) < String.length r)%nat).
Proof.
  intros H1 H2. induction fuel as [|fuel IH]; intros j acc Hj Hf; [lia|].
  rewrite minified_digits_step by assumption.
  destruct (Z.ltb_spec j 26).
  - eexists. split; [reflexivity|]. cbn. split; lia.
  - destruct (next_digit_bounds j H).
    destruct (IH (j / 26 - 1) (String (letter offset (j mod 26)) acc)) as (r & E & L & _);
      [lia|lia|].
    exists r. split; [exact E|]. cbn in L. split; lia.
Qed.

Lemma minified_digits_inj offset :
  0 <= offset -> offset + 25 < 128 ->
  forall fuel1 fuel2 j1 j2 acc1 acc2 r,
    0 <= j1 -> 0 <= j2 ->
    (Z.to_nat j1 < fuel1)%nat -> (Z.to_nat j2 < fuel2)%nat ->
    minified_digits fuel1 offset j1 acc1 = Ok r ->
    minified_digits fuel2 offset j2 acc2 = Ok r ->
    String.length acc1 = String.length acc2 ->
    j1 = j2 /\ acc1 = acc2.
Proof.
  intros H1 H2. induction fuel1 as [|fuel1 IH];
    intros fuel2 j1 j2 acc1 acc2 r Hj1 Hj2 Hf1 Hf2 E1 E2 Hlen; [lia|].
  destruct fuel2 as [|fuel2]; [lia|].
  rewrite minified_digits_step in E1, E2 by assumption.
  pose proof (Z.div_mod j1 26 ltac:(lia)) as D1.
  pose proof (Z.div_mod j2 26 ltac:(lia)) as D2.
  pose proof (Z.mod_pos_bound j1 26 ltac:(lia)) as M1.
  pose proof (Z.mod_pos_bound j2 26 ltac:(lia)) as M2.
  destruct (Z.ltb_spec j1 26) as [L1|L1], (Z.ltb_spec j2 26) as [L2|L2].
  - injection E1 as E1. subst r. injection E2 as E2 E3.
    apply letter_inj in E2; auto; lia.
  - injection E1 as E1. subst r. destruct (next_digit_bounds j2 L2).
    destruct (minified_digits_total offset H1 H2 fuel2 (j2 / 26 - 1)
                (String (letter offset (j2 mod 26)) acc2)) as (r' & E & L & _);
      [lia|lia|].
    rewrite E in E2. injection E2 as E2. subst r'. cbn in L. exfalso. clear - L Hlen. lia.
  - injection E2 as E2. subst r. destruct (next_digit_bounds j1 L1).
    destruct (minified_digits_total offset H1 H2 fuel1 (j1 / 26 - 1)
                (String (letter offset (j1 mod 26)) acc1)) as (r' & E & L & _);
      [lia|lia|].
    rewrite E in E1. injection E1 as E1. subst r'. cbn in L. exfalso. clear - L Hlen. lia.
  - destruct (next_digit_bounds j1 L1), (next_digit_bounds j2 L2).
    destruct (IH fuel2 (j1 / 26 - 1) (j2 / 26 - 1) _ _ r
                ltac:(lia) ltac:(lia) ltac:(lia) ltac:(lia) E1 E2)
      as [Ej Eacc]; [cbn; lia|].
    injection Eacc as Ec ->. apply letter_inj in Ec; auto. split; [lia|reflexivity].
Qed.

Lemma level_offset_bounds pkgLevel :
  0 <= level_offset pkgLevel /\ level_offset pkgLevel + 25 < 128.
Proof. destruct pkgLevel; cbn; lia. Qed.

Lemma minified_name_total pkgLevel i :
  0 <= i -> exists v, minified_name pkgLevel i = Ok v /\ v <> EmptyString.
Proof.
  intros Hi. unfold minified_name. fold (level_offset pkgLevel).
  destruct (level_offset_bounds pkgLevel) as [H1 H2].
  destruct (minified_digits_total _ H1 H2 (S (Z.to_nat i)) i EmptyString Hi ltac:(lia))
    as (r & E & L & _).
  exists r. split; [exact E|]. intros ->. cbn in L. lia.
Qed.

(** The counter is a bijective numbering: different counter values have
    different names. *)
Lemma minified_name_inj pkgLevel i i' v :
  0 <= i -> 0 <= i' ->
  minified_name pkgLevel i = Ok v -> minified_name pkgLevel i' = Ok v -> i = i'.
Proof.
  intros Hi Hi' E E'. unfold minified_name in *. fold (level_offset pkgLevel) in *.
  destruct (level_offset_bounds pkgLevel) as [H1 H2].
  destruct (minified_digits_inj _ H1 H2 (S (Z.to_nat i)) (S (Z.to_nat i')) i i'
              EmptyString EmptyString v Hi Hi' ltac:(lia) ltac:(lia) E E');
    auto.
Qed.

(** ** The search for a free minified name *)

Lemma reserved_names vars pkgLevel (n : nat) :
  (forall j, 0 <= j < Z.of_nat n -> counter_reserved vars pkgLevel j) ->
  exists l : list string,
    length l = n /\ NoDup l
    /\ forall w, w ∈ l ->
         count_of vars w <> 0
         /\ exists j, 0 <= j < Z.of_nat n /\ minified_name pkgLevel j = Ok w.
Proof.
  induction n as [|n IH]; intros H.
  - exists []. split; [reflexivity|]. split; [constructor|].
    intros w Hw. now apply elem_of_nil in Hw.
  - destruct IH as (l & Hlen & Hnd & Hl); [intros j Hj; apply H; lia|].
    destruct (H (Z.of_nat n) ltac:(lia)) as (w & Hw & Hc).
    exists (w :: l). split; [cbn; now rewrite Hlen|]. split.
    + constructor; [|exact Hnd]. intros Hin.
      destruct (Hl w Hin) as (_ & j & Hj & Ej).
      pose proof (minified_name_inj pkgLevel j (Z.of_nat n) w ltac:(lia) ltac:(lia) Ej Hw).
      lia.
    + intros w' Hw'. apply elem_of_cons in Hw' as [->|Hw'].
      * split; [exact Hc|]. exists (Z.of_nat n). split; [lia|exact Hw].
      * destruct (Hl w' Hw') as (Hc' & j & Hj & Ej). split; [exact Hc'|].
        exists j. split; [lia|exact Ej].
Qed.

(** No more counter values in a row are reserved than the registry has
    entries. *)
Lemma reserved_prefix_bound vars pkgLevel (n : nat) :
  (forall j, 0 <= j < Z.of_nat n -> counter_reserved vars pkgLevel j) ->
  (n <= size vars)%nat.
Proof.
  intros H. destruct (reserved_names vars pkgLevel n H) as (l & Hlen & Hnd & Hl).
  rewrite <- Hlen, <- (size_dom (D := gset string)).
  rewrite <- (size_list_to_set (C := gset string) l Hnd).
  apply subseteq_size. intros w Hw. apply elem_of_list_to_set in Hw.
  destruct (Hl w Hw) as [Hc _]. apply elem_of_dom.
  unfold count_of in Hc. destruct (vars !! w); [eauto|]. now cbn in Hc.
Qed.

(** The search returns, with the name of the least free counter value. *)
Lemma first_free_spec vars pkgLevel fuel :
  forall i, 0 <= i ->
    (forall j, 0 <= j < i -> counter_reserved vars pkgLevel j) ->
    (size vars < Z.to_nat i + fuel)%nat ->
    exists k v,
      first_free fuel pkgLevel vars i = Ok v
      /\ i <= k /\ minified_name pkgLevel k = Ok v /\ count_of vars v = 0
      /\ forall j, 0 <= j < k -> counter_reserved vars pkgLevel j.
Proof.
  induction fuel as [|fuel IH]; intros i Hi Hres Hfuel.
  - exfalso. pose proof (reserved_prefix_bound vars pkgLevel (Z.to_nat i)) as Hb.
    assert (Z.to_nat i <= size vars)%nat; [|lia].
    apply Hb. intros j Hj. apply Hres. lia.
  - cbn [first_free]. destruct (minified_name_total pkgLevel i Hi) as (v & Ev & _).
    rewrite Ev. cbn [obind]. destruct (Z.eqb_spec (count_of vars v) 0) as [E|E].
    + exists i, v. repeat split; auto; lia.
    + destruct (IH (i + 1)) as (k & v' & E1 & E2 & E3 & E4 & E5); [lia| |lia|].
      * intros j Hj. destruct (Z.eq_dec j i) as [->|]; [exists v; auto|].
        apply Hres. lia.
      * exists k, v'. repeat split; auto; lia.
Qed.

Lemma first_free_total vars pkgLevel :
  exists k v,
    first_free (S (size vars)) pkgLevel vars 0 = Ok v
    /\ 0 <= k /\ minified_name pkgLevel k = Ok v /\ count_of vars v = 0
    /\ forall j, 0 <= j < k -> counter_reserved vars pkgLevel j.
Proof. apply first_free_spec; [lia|intros; lia|cbn; lia]. Qed.

(** ** Reservation in the ancestors *)

Lemma reserve_in_chain_all name v (P Q : gmap string Z -> Prop) :
  (forall m, P m -> Q (<[name := v]> m)) ->
  forall c, Forall (fun a => P (allVars a)) (c :: ancestors c) ->
  Forall (fun a => Q (allVars a))
    (reserve_in_chain name v c :: ancestors (reserve_in_chain name v c)).
Proof.
  intros HPQ. fix IH 1. intros [par vars locals out delayed avail p blocking] H.
  apply Forall_cons in H as [H1 H2]. cbn [allVars] in H1.
  cbn [reserve_in_chain ancestors]. constructor; [cbn; auto|].
  destruct par as [q|]; [|constructor].
  cbn [ancestors] in H2. apply (IH q H2).
Qed.

Lemma reserve_in_ancestors_all name v (P Q : gmap string Z -> Prop) c :
  (forall m, P m -> Q (<[name := v]> m)) ->
  Forall (fun a => P (allVars a)) (ancestors c) ->
  Forall (fun a => Q (allVars a))
    (ancestors (set_parent (reserve_in_ancestors name v (parent c)) c)).
Proof.
  intros HPQ H. destruct c as [[q|] vars locals out delayed avail p blocking];
    cbn in *; [|constructor].
  apply (reserve_in_chain_all name v P Q HPQ q H).
Qed.

(** One allocation in minified mode. *)
Lemma newVariableWithLevel_minified name pkgLevel st :
  minify (st_p st) = true -> name <> EmptyString ->
  exists k v st',
    newVariableWithLevel name pkgLevel st = Ok (v, st')
    /\ 0 <= k /\ minified_name pkgLevel k = Ok v
    /\ count_of (allVars (st_c st)) v = 0
    /\ (forall j, 0 <= j < k -> counter_reserved (allVars (st_c st)) pkgLevel j)
    /\ st_p st' = st_p st
    /\ allVars (st_c st') = <[v := 1]> (allVars (st_c st))
    /\ (pkgLevel = true -> reserved_above v 1 (st_c st'))
    /\ (forall o, reserved_above o 1 (st_c st) -> reserved_above o 1 (st_c st')).
Proof.
  intros Hm Hne. unfold newVariableWithLevel.
  destruct (decide (name = EmptyString)) as [|_]; [contradiction|].
  rewrite Hm.
  destruct (first_free_total (allVars (st_c st)) pkgLevel)
    as (k & v & E & Hk & Ek & Hc & Hres).
  rewrite E. cbn [obind]. rewrite Hc. cbn [Z.ltb Z.compare Z.add].
  change (wrap64 1) with 1.
  change (wrap64 (0 + 1)) with 1.
  assert (Hanc : reserved_above v 1
            (set_parent (reserve_in_ancestors v 1 (parent (st_c st)))
               (set_allVars (<[v := 1]> (allVars (st_c st))) (st_c st)))).
  { unfold reserved_above.
    replace (parent (st_c st))
      with (parent (set_allVars (<[v := 1]> (allVars (st_c st))) (st_c st)))
      by (destruct (st_c st); reflexivity).
    apply (reserve_in_ancestors_all v 1 (fun _ => True) (fun m => count_of m v = 1)).
    - intros m _. rewrite count_of_insert. now destruct (decide (v = v)).
    - apply Forall_forall. auto. }
  assert (Hkeep : forall o, reserved_above o 1 (st_c st) ->
            reserved_above o 1
              (set_parent (reserve_in_ancestors v 1 (parent (st_c st)))
                 (set_allVars (<[v := 1]> (allVars (st_c st))) (st_c st)))).
  { intros o Ho. unfold reserved_above in *.
    replace (parent (st_c st))
      with (parent (set_allVars (<[v := 1]> (allVars (st_c st))) (st_c st)))
      by (destruct (st_c st); reflexivity).
    apply (reserve_in_ancestors_all v 1 (fun m => count_of m o = 1) (fun m => count_of m o = 1)).
    - intros m Hmo. rewrite count_of_insert. now destruct (decide (v = o)).
    - destruct (st_c st); exact Ho. }
  exists k, v. destruct pkgLevel.
  - eexists. split; [reflexivity|]. cbn [st_p st_c].
    split; [exact Hk|]. split; [exact Ek|]. split; [exact Hc|].
    split; [exact Hres|]. split; [reflexivity|].
    split; [destruct (st_c st); reflexivity|].
    split; [intros _; exact Hanc|exact Hkeep].
  - eexists. split; [reflexivity|]. cbn [st_p st_c].
    split; [exact Hk|]. split; [exact Ek|]. split; [exact Hc|].
    split; [exact Hres|]. split; [reflexivity|].
    split; [destruct (st_c st); reflexivity|].
    split; [discriminate|]. intros o Ho. destruct (st_c st); exact Ho.
Qed.

Lemma counter_reserved_insert vars pkgLevel v j :
  counter_reserved vars pkgLevel j ->
  counter_reserved (<[v := 1]> vars) pkgLevel j.
Proof.
  intros (w & Ew & Hw). exists w. split; [exact Ew|].
  rewrite count_of_insert. destruct (decide (v = w)); [lia|exact Hw].
Qed.

Lemma counter_state_insert vars pkgLevel i v j :
  0 <= i -> 0 <= j -> j <> i -> minified_name pkgLevel i = Ok v ->
  (counter_free (<[v := 1]> vars) pkgLevel j -> counter_free vars pkgLevel j)
  /\ (counter_reserved (<[v := 1]> vars) pkgLevel j
      -> counter_reserved vars pkgLevel j).
Proof.
  intros Hi Hj Hne Ev. split; intros (w & Ew & Hw); exists w; (split; [exact Ew|]);
    rewrite count_of_insert in Hw; destruct (decide (v = w)) as [<-|_]; auto;
    exfalso; apply Hne; apply (minified_name_inj pkgLevel j i v Hj Hi Ew Ev).
Qed.

Lemma allocate_all_minified pkgLevel names :
  forall st lo,
    minify (st_p st) = true ->
    Forall (fun n => n <> EmptyString) names ->
    0 <= lo ->
    (forall j, 0 <= j < lo -> counter_reserved (allVars (st_c st)) pkgLevel j) ->
    exists idxs outs st',
      allocate_all (requests_at pkgLevel names) st = Ok (outs, st')
      /\ counter_names pkgLevel idxs outs
      /\ StronglySorted Z.lt idxs
      /\ Forall (fun i => lo <= i) idxs
      /\ (forall i, i ∈ idxs -> counter_free (allVars (st_c st)) pkgLevel i)
      /\ (forall i j, i ∈ idxs -> 0 <= j < i ->
            j ∈ idxs \/ counter_reserved (allVars (st_c st)) pkgLevel j)
      /\ (pkgLevel = true -> forall o, o ∈ outs -> reserved_above o 1 (st_c st'))
      /\ (forall o, reserved_above o 1 (st_c st) -> reserved_above o 1 (st_c st')).
Proof.
  induction names as [|name names IH]; intros st lo Hm Hne Hlo Hres.
  - exists [], [], st. cbn. repeat split; try constructor; auto;
      try (intros; exfalso; eapply elem_of_nil; eauto).
  - apply Forall_cons in Hne as [Hne1 Hne].
    destruct (newVariableWithLevel_minified name pkgLevel st Hm Hne1)
      as (k & v & st1 & E1 & Hk & Ek & Hc & Hbelow & Hp & Hv & Hanc & Hkeep).
    assert (Hlok : lo <= k).
    { destruct (Z.le_gt_cases lo k) as [|Hgt]; [assumption|].
      destruct (Hres k ltac:(lia)) as (w & Ew & Hw).
      rewrite Ek in Ew. injection Ew as <-. contradiction. }
    destruct (IH st1 (k + 1)) as
      (idxs & outs & st2 & E2 & Hnames & Hsort & Hge & Hfree & Hskip & Hanc2 & Hkeep2).
    { now rewrite Hp. }
    { exact Hne. }
    { lia. }
    { intros j Hj. rewrite Hv. destruct (Z.eq_dec j k) as [->|].
      - exists v. split; [exact Ek|]. rewrite count_of_insert.
        destruct (decide (v = v)); [lia|congruence].
      - apply counter_reserved_insert. apply Hbelow. lia. }
    exists (k :: idxs), (v :: outs), st2.
    assert (Hgt : forall i, i ∈ idxs -> k < i).
    { intros i Hi. rewrite Forall_forall in Hge. specialize (Hge i Hi). lia. }
    split; [|split; [|split; [|split; [|split; [|split; [|split]]]]]].
    + cbn [requests_at map allocate_all]. unfold mbind at 1. rewrite E1.
      cbn [obind fst snd]. unfold mbind at 1. fold (requests_at pkgLevel names).
      rewrite E2. reflexivity.
    + constructor; [split; assumption|exact Hnames].
    + constructor; [exact Hsort|]. apply Forall_forall. intros i Hi.
      now apply Hgt.
    + constructor; [exact Hlok|]. eapply Forall_impl; [exact Hge|].
      cbn. intros; lia.
    + intros i Hi. apply elem_of_cons in Hi as [->|Hi]; [exists v; auto|].
      specialize (Hgt i Hi). specialize (Hfree i Hi). rewrite Hv in Hfree.
      rewrite Forall_forall in Hge. 
      destruct (counter_state_insert (allVars (st_c st)) pkgLevel k v i) as [F _];
        auto; lia.
    + intros i j Hi Hj. apply elem_of_cons in Hi as [->|Hi].
      * right. apply Hbelow. lia.
      * destruct (Z.eq_dec j k) as [->|Hjk]; [left; apply elem_of_cons; auto|].
        destruct (Hskip i j Hi Hj) as [Hin|Hr].
        -- left. apply elem_of_cons. auto.
        -- right. rewrite Hv in Hr.
           destruct (counter_state_insert (allVars (st_c st)) pkgLevel k v j) as [_ R];
             auto; lia.
    + intros Hlvl o Ho. apply elem_of_cons in Ho as [->|Ho].
      * apply Hkeep2. now apply Hanc.
      * now apply Hanc2.
    + intros o Ho. apply Hkeep2, Hkeep, Ho.
Qed.

Lemma minified_digits_letters offset :
  0 <= offset -> offset + 25 < 128 ->
  forall fuel j acc r, 0 <= j ->
    only_letters offset acc = true ->
    minified_digits fuel offset j acc = Ok r ->
    only_letters offset r = true.
Proof.
  intros H1 H2. induction fuel as [|fuel IH]; intros j acc r Hj Hacc E; [discriminate|].
  rewrite minified_digits_step in E by assumption.
  assert (Hl : forall m, 0 <= m < 26 ->
            only_letters offset (String (letter offset m) acc) = true).
  { intros m Hm. cbn [only_letters]. unfold letter.
    rewrite N_ascii_embedding by lia. rewrite Hacc, andb_true_r.
    apply andb_true_iff. split; [apply Z.leb_le|apply Z.ltb_lt]; lia. }
  destruct (Z.ltb_spec j 26).
  - injection E as E. subst r. apply Hl. lia.
  - destruct (next_digit_bounds j H).
    apply (IH (j / 26 - 1) _ r ltac:(lia) (Hl (j mod 26) (Z.mod_pos_bound j 26 ltac:(lia))) E).
Qed.

Lemma minified_name_letters pkgLevel i v :
  0 <= i -> minified_name pkgLevel i = Ok v ->
  only_letters (level_offset pkgLevel) v = true.
Proof.
  intros Hi E. unfold minified_name in E. fold (level_offset pkgLevel) in E.
  destruct (level_offset_bounds pkgLevel) as [H1 H2].
  apply (minified_digits_letters _ H1 H2 (S (Z.to_nat i)) i EmptyString v Hi eq_refl E).
Qed.

Lemma sorted_NoDup (l : list Z) : StronglySorted Z.lt l -> NoDup l.
Proof.
  induction 1 as [|i l _ IH Hall]; constructor; [|exact IH].
  intros Hin. rewrite List.Forall_forall in Hall.
  apply list_elem_of_In in Hin. specialize (Hall i Hin). lia.
Qed.

Lemma counter_names_NoDup pkgLevel idxs outs :
  counter_names pkgLevel idxs outs -> NoDup idxs -> NoDup outs.
Proof.
  induction 1 as [|i o idxs outs [Hi Ei] Hrest IH]; intros Hnd; [constructor|].
  apply NoDup_cons in Hnd as [Hni Hnd]. constructor; [|auto].
  intros Hin. apply Hni. clear IH Hnd Hni.
  induction Hrest as [|i' o' idxs outs [Hi' Ei'] _ IH'];
    [now apply elem_of_nil in Hin|].
  apply elem_of_cons in Hin as [->|Hin]; apply elem_of_cons.
  - left. apply (minified_name_inj pkgLevel i i' o'); auto.
  - right. auto.
Qed.

Lemma counter_names_letters pkgLevel idxs outs :
  counter_names pkgLevel idxs outs ->
  Forall (fun o => only_letters (level_offset pkgLevel) o = true) outs.
Proof.
  induction 1 as [|i o idxs outs [Hi Ei] _ IH]; constructor; [|exact IH].
  now apply (minified_name_letters pkgLevel i).
Qed.

(** C2 (amended).  In minified mode a run of allocations at one level
    on one context returns the names of counter values in strictly
    increasing order: lower-case letters for the local level, upper-case
    letters for the package level, the names being those of a bijective
    numbering in base 26.  The names are pairwise distinct; each counter
    value chosen was free in the registry the run started from, and each
    counter value passed over was reserved in it.  A package-level
    allocation also sets the count of the chosen name to 1 in every
    ancestor.  A minified allocation on any context never returns a name
    whose count in the registry of that context is not zero: the
    reservation keeps the ancestors, and every scope whose registry holds
    the reserved count, from returning the name again. *)
Theorem minified_allocation_counter_order
    (pkgLevel : bool) (names : list string) (st : state) :
  minify (st_p st) = true ->
  Forall (fun n => n <> EmptyString) names ->
  exists idxs outs st',
    allocate_all (requests_at pkgLevel names) st = Ok (outs, st')
    /\ counter_names pkgLevel idxs outs
    /\ Forall (fun o => only_letters (level_offset pkgLevel) o = true) outs
    /\ StronglySorted Z.lt idxs
    /\ NoDup outs
    /\ (forall i, i ∈ idxs -> counter_free (allVars (st_c st)) pkgLevel i)
    /\ (forall i j, i ∈ idxs -> 0 <= j < i ->
          j ∈ idxs \/ counter_reserved (allVars (st_c st)) pkgLevel j)
    /\ (pkgLevel = true -> forall o, o ∈ outs ->
          reserved_above o 1 (st_c st')
          /\ forall a p' name' lvl' v st2,
               a ∈ ancestors (st_c st') -> minify p' = true ->
               newVariableWithLevel name' lvl' (mkState p' a) = Ok (v, st2) ->
               v <> o)
    /\ (forall o p' c' name' lvl' v st2,
          count_of (allVars c') o <> 0 -> minify p' = true ->
          newVariableWithLevel name' lvl' (mkState p' c') = Ok (v, st2) ->
          v <> o).
Proof.
  intros Hm Hne.
  destruct (allocate_all_minified pkgLevel names st 0 Hm Hne ltac:(lia) ltac:(intros; lia))
    as (idxs & outs & st' & E & Hnames & Hsort & _ & Hfree & Hskip & Hanc & _).
  assert (Hheld : forall o p' c' name' lvl' v st2,
            count_of (allVars c') o <> 0 -> minify p' = true ->
            newVariableWithLevel name' lvl' (mkState p' c') = Ok (v, st2) ->
            v <> o).
  { intros o p' c' name' lvl' v st2 Hcount Hm' Ealloc Hv. subst v.
    destruct (decide (name' = EmptyString)) as [->|Hne'];
      [unfold newVariableWithLevel in Ealloc; cbn in Ealloc; discriminate|].
    destruct (newVariableWithLevel_minified name' lvl' (mkState p' c') Hm' Hne')
      as (k & v & st3 & E3 & _ & _ & Hc & _).
    rewrite E3 in Ealloc. injection Ealloc as -> _. cbn [st_c] in Hc. lia. }
  exists idxs, outs, st'.
  split; [exact E|]. split; [exact Hnames|].
  split; [now apply counter_names_letters with idxs|].
  split; [exact Hsort|].
  split; [apply (counter_names_NoDup pkgLevel idxs outs Hnames), sorted_NoDup, Hsort|].
  split; [exact Hfree|]. split; [exact Hskip|]. split; [|exact Hheld].
  intros Hlvl o Ho. specialize (Hanc Hlvl o Ho). split; [exact Hanc|].
  intros a p' name' lvl' v st2 Ha Hm' Ealloc.
  unfold reserved_above in Hanc. rewrite Forall_forall in Hanc.
  specialize (Hanc a Ha). apply (Hheld o p' a name' lvl' v st2); [lia|exact Hm'|exact Ealloc].
Qed.

(** The counterexample to the claim as stated: the context
    [nested_context] returns [B], [C] and [D] at the package level and
    reserves them in its parent; a scope nested in it, whose registry
    holds what the registry of [nested_context] held before, returns [B]
    and [C] again. *)
Lemma minified_reuse_in_nested_scope :
  exists st' st'',
    allocate_all (requests_at true ["x"; "some_name"; "y"])
      (mkState (new_package_context true) nested_context)
    = Ok (["B"; "C"; "D"], st')
    /\ allocate_all (requests_at true ["u"; "v"])
         (mkState (new_package_context true) (scope_nested_in (st_c st')))
       = Ok (["B"; "C"], st'').
Proof. eexists _, _. split; [vm_compute; reflexivity|vm_compute; reflexivity]. Qed.

Lemma minified_allocation_witness :
  exists st',
    allocate_all (requests_at true ["x"; "some_name"; "y"])
      (mkState (new_package_context true) nested_context)
    = Ok (["B"; "C"; "D"], st')
    /\ reserved_above "C" 1 (st_c st').
Proof.
  destruct (minified_allocation_counter_order true ["x"; "some_name"; "y"]
              (mkState (new_package_context true) nested_context) eq_refl)
    as (idxs & outs & st' & E & _ & _ & _ & _ & _ & _ & Hanc & _).
  - repeat constructor; discriminate.
  - exists st'. assert (Houts : outs = ["B"; "C"; "D"]).
    { vm_compute in E. now injection E as <- _. }
    subst outs. split; [exact E|].
    apply (Hanc eq_refl "C"). apply elem_of_cons. right. apply elem_of_cons. now left.
Defined.

(** * Properties of the type descriptor resolver *)

(** ** Totality *)

Lemma total_ret {A} (a : A) : total (ret a).
Proof. intros st. now exists a, st. Qed.

Lemma total_bind {A B} (m : M A) (k : A -> M B) :
  total m -> (forall a, total (k a)) -> total (mbind m k).
Proof.
  intros Hm Hk st. destruct (Hm st) as (a & st1 & E).
  destruct (Hk a st1) as (b & st2 & E2). exists b, st2.
  unfold mbind. now rewrite E.
Qed.

Lemma total_get_p {A} (f : pkgContext -> A) : total (get_p f).
Proof. intros st. now eexists _, _. Qed.

Lemma total_get_c {A} (f : funcContext -> A) : total (get_c f).
Proof. intros st. now eexists _, _. Qed.

Lemma total_modify_p f : total (modify_p f).
Proof. intros st. now eexists _, _. Qed.

Lemma total_modify_c f : total (modify_c f).
Proof. intros st. now eexists _, _. Qed.

Lemma total_lift {A} (o : outcome A) a : o = Ok a -> total (lift o).
Proof. intros -> st. now exists a, st. Qed.

Lemma total_discard {A} (m : M A) : total m -> total (discard m).
Proof. intros H. apply total_bind; [exact H|intros; apply total_ret]. Qed.

Lemma toJavaScriptType_total k : exists s, toJavaScriptType k = Ok s.
Proof. destruct k; eexists; reflexivity. Qed.

Lemma newVariableWithLevel_total name pkgLevel :
  name <> EmptyString -> total (newVariableWithLevel name pkgLevel).
Proof.
  intros Hne st. destruct (minify (st_p st)) eqn:Hm.
  - destruct (newVariableWithLevel_minified name pkgLevel st Hm Hne)
      as (k & v & st' & E & _). eauto.
  - unfold newVariableWithLevel.
    destruct (decide (name = EmptyString)) as [|_]; [contradiction|].
    rewrite Hm. cbn [obind]. destruct pkgLevel; eauto.
Qed.

Lemma objectName_total o :
  obj_name o <> EmptyString -> obj_pkg o <> None -> total (objectName o).
Proof.
  intros Hname Hpkg. unfold objectName.
  apply total_bind; [apply total_get_p|]. intros p.
  apply total_bind.
  { destruct (foreign p o || at_package_scope p o);
      [apply total_modify_p|apply total_ret]. }
  intros _. destruct (foreign p o).
  { apply total_bind.
    - unfold package_path. destruct (obj_pkg o) as [pkg|]; [|contradiction].
      now apply (total_lift _ (pkg_path pkg)).
    - intros path. apply total_ret. }
  destruct (is_var_or_const o && obj_exported o && at_package_scope p o);
    [apply total_ret|].
  apply total_bind; [apply total_get_p|]. intros known.
  apply total_bind.
  { destruct known; [apply total_ret|].
    apply total_bind; [now apply newVariableWithLevel_total|]. intros name.
    apply total_bind; [apply total_modify_p|]. intros _. apply total_ret. }
  intros name. apply total_bind; [apply total_get_p|]. intros escaping.
  destruct (is_var o && escaping); apply total_ret.
Qed.

Lemma typeKind_anonymous fe ty :
  anonymous ty = true -> (forall es, ty <> Tuple es) ->
  exists suffix,
    (kind <-- typeKind fe ty ;; str_from kind 5) = Ok suffix
    /\ ToLower suffix +:+ "Type" <> EmptyString.
Proof.
  intros Ha Ht. destruct ty; try discriminate; cbn;
    try (eexists; split; [reflexivity|discriminate]).
  exfalso. now apply (Ht elems).
Qed.

Lemma total_lift_bind {A B} (o : outcome A) a (k : A -> M B) :
  o = Ok a -> total (k a) -> total (mbind (lift o) k).
Proof.
  intros -> Hk st. destruct (Hk st) as (b & st' & E). exists b, st'.
  unfold mbind, lift. cbn [obind fst snd]. exact E.
Qed.

Lemma resolveAnonymous_total fe ty init :
  anonymous ty = true -> (forall es, ty <> Tuple es) ->
  total init -> total (resolveAnonymous fe ty init).
Proof.
  intros Ha Ht Hinit. unfold resolveAnonymous.
  apply total_bind; [apply total_get_p|]. intros known.
  apply total_bind.
  - destruct known as [a|]; [apply total_ret|].
    apply total_bind; [exact Hinit|]. intros _.
    destruct (typeKind_anonymous fe ty Ha Ht) as (suffix & E & Hne).
    destruct (typeKind fe ty) as [kind| |] eqn:Ek; try discriminate.
    cbn [obind] in E.
    apply (total_lift_bind _ kind); [reflexivity|].
    apply (total_lift_bind _ suffix); [exact E|].
    apply total_bind; [now apply newVariableWithLevel_total|]. intros varName.
    apply total_bind; [apply total_get_p|]. intros p.
    apply total_bind; [apply total_modify_p|]. intros _. apply total_ret.
  - intros a. apply total_bind; [apply total_modify_p|]. intros _. apply total_ret.
Qed.

(** [typeName] returns on every well-formed type, from every state. *)
Lemma typeName_total_all fe :
  (forall ty, wf_type ty -> total (typeName fe ty))
  /\ (forall ts, wf_types ts -> total (typeNames fe ts))
  /\ (forall fs, wf_fields fs -> total (initFields fe fs))
  /\ (forall ms, wf_methods ms -> total (initMethods fe ms)).
Proof.
  apply type_mutind; cbn [wf_type wf_types wf_fields wf_methods
                           typeName typeNames initFields initMethods].
  - intros k _. destruct (toJavaScriptType_total k) as (js & E).
    apply (total_lift_bind _ js); [exact E|apply total_ret].
  - intros o Ho. destruct (decide (obj_name o = "error")); [apply total_ret|].
    destruct Ho as [|[Hn Hp]]; [contradiction|]. now apply objectName_total.
  - intros len elem IH Hwf. apply resolveAnonymous_total; try easy.
    apply total_discard; auto.
  - intros elem IH Hwf. apply resolveAnonymous_total; try easy.
    apply total_discard; auto.
  - intros elem IH Hwf. apply resolveAnonymous_total; try easy.
    apply total_discard; auto.
  - intros key IHk elem IHe [Hk He]. apply resolveAnonymous_total; try easy.
    apply total_bind; [auto|]. intros _. apply total_discard; auto.
  - intros dir elem IH Hwf. apply resolveAnonymous_total; try easy.
    apply total_discard; auto.
  - intros fields IH Hwf. apply resolveAnonymous_total; try easy. auto.
  - intros params IHp results IHr variadic [Hp Hr].
    apply resolveAnonymous_total; try easy.
    apply total_bind; [auto|]. intros _. auto.
  - intros ms IH Hwf. destruct ms as [|name params results variadic ms'];
      [apply total_ret|].
    apply resolveAnonymous_total; try easy. now apply IH.
  - intros elems _ [].
  - intros _. apply total_ret.
  - intros t IHt ts IHts [Ht Hts]. apply total_bind; [auto|]. intros _. auto.
  - intros _. apply total_ret.
  - intros name t IHt tag fs IHfs [Ht Hfs]. apply total_bind; [auto|]. intros _. auto.
  - intros _. apply total_ret.
  - intros name params IHp results IHr variadic ms IHms (Hp & Hr & Hms).
    apply total_bind; [auto|]. intros _.
    apply total_bind; [auto|]. intros _. auto.
Qed.

Lemma typeName_total fe ty : wf_type ty -> total (typeName fe ty).
Proof. apply typeName_total_all. Qed.

(** ** Zero values *)

Lemma with_descriptor_panics fe ty f st :
  wf_type ty -> ~ panics (with_descriptor fe ty f st).
Proof.
  intros Hwf [msg E]. unfold with_descriptor, mbind in E.
  destruct (typeName_total fe ty Hwf st) as (t & st' & Et).
  rewrite Et in E. discriminate.
Qed.

(** C4.  [zeroValue] gives [null] for the interop object type and
    otherwise goes by the kind of the underlying type: [new T(0, 0)] for
    the 64-bit integer and the complex kinds, [false], [0] and the empty
    string literal for the other basic kinds,
    [$throwNilPointerError] for a signature, [false] for a map,
    [$ifaceNil] for an interface, [T.zero()] for an array,
    [new T.ptr()] for a struct and [T.nil] for a slice, a pointer and a
    channel, [T] being the descriptor name of the type.  On a well-formed
    type it panics exactly for the untyped nil and for the invalid basic
    kind. *)
Theorem zeroValue_dispatch (fe : FrontEnd) (ty : type) (st : state) :
  (IsJsObject fe ty = true -> zeroValue fe ty st = Ok ("null", st))
  /\ (IsJsObject fe ty = false -> zeroValue fe ty st = expected_zero fe ty st)
  /\ (wf_type ty ->
      (panics (zeroValue fe ty st) <->
       IsJsObject fe ty = false
       /\ exists k, Underlying fe ty = Basic k /\ (k = UntypedNil \/ k = Invalid))).
Proof.
  assert (H2 : IsJsObject fe ty = false ->
               zeroValue fe ty st = expected_zero fe ty st).
  { intros Hjs. unfold zeroValue, expected_zero. rewrite Hjs.
    destruct (Underlying fe ty) as [k| | | | | | | | | |]; try reflexivity.
    destruct k; reflexivity. }
  split; [|split; [exact H2|]].
  - intros Hjs. unfold zeroValue. now rewrite Hjs.
  - intros Hwf. destruct (IsJsObject fe ty) eqn:Hjs.
    + split.
      * intros [msg E]. unfold zeroValue in E. rewrite Hjs in E. discriminate.
      * intros [? _]. discriminate.
    + rewrite (H2 eq_refl). unfold expected_zero.
      destruct (Underlying fe ty) as [k| | | | | | | | | |] eqn:Hu;
        try (split;
             [ intros Hp; exfalso;
               first [ now apply with_descriptor_panics in Hp
                     | destruct Hp as [msg Hp]; discriminate ]
             | intros (_ & k & Hk & _); discriminate ]).
      destruct k; cbn [basic_zero];
        try (split;
             [ intros Hp; exfalso;
               first [ now apply with_descriptor_panics in Hp
                     | destruct Hp as [msg Hp]; discriminate ]
             | intros (_ & k & Hk & [->| ->]); discriminate ]).
      * split; [|intros _; eexists; reflexivity].
        intros _. split; [reflexivity|]. exists Invalid. auto.
      * split; [|intros _; eexists; reflexivity].
        intros _. split; [reflexivity|]. exists UntypedNil. auto.
Qed.

Lemma zeroValue_witness :
  (exists st', zeroValue sample_front_end (Slice (Basic Int)) (new_state false)
               = Ok ("sliceType.nil", st'))
  /\ ~ panics (zeroValue sample_front_end (Slice (Basic Int)) (new_state false)).
Proof.
  split; [eexists; reflexivity|].
  intros Hp.
  apply (proj1 (proj2 (proj2 (zeroValue_dispatch sample_front_end (Slice (Basic Int))
                                (new_state false))) I)) in Hp.
  destruct Hp as (_ & k & Hk & _). discriminate.
Defined.

(** ** Allocation and the registry invariant *)

Lemma only_letters_no_dollar offset s :
  65 <= offset -> only_letters offset s = true -> no_dollar s = true.
Proof.
  intros Ho. induction s as [|a s IH]; [reflexivity|]. cbn [only_letters no_dollar].
  intros H. apply andb_true_iff in H as [H Hs]. apply andb_true_iff in H as [H _].
  apply Z.leb_le in H. rewrite (IH Hs), andb_true_r. unfold is_dollar.
  apply negb_true_iff, N.eqb_neq. lia.
Qed.

Lemma display_name_fresh vars b :
  counts_ok vars -> no_dollar b = true ->
  ~ issued vars (display_name b (count_of vars b)).
Proof.
  intros Hok Hb (b' & n' & Hn' & E). destruct (Hok b') as [_ Hd].
  destruct (Hok b) as [Hn0 _].
  apply display_name_inj in E as [E1 E2]; auto; try lia.
  - subst b' n'. lia.
  - apply Hd. lia.
Qed.

Lemma issued_new vars b :
  counts_ok vars ->
  issued (<[b := count_of vars b + 1]> vars) (display_name b (count_of vars b)).
Proof.
  intros Hok. exists b, (count_of vars b). split; [|reflexivity].
  rewrite count_of_insert. destruct (decide (b = b)); [|congruence].
  destruct (Hok b). lia.
Qed.

(** What one allocation does to the registry, in either mode. *)
Lemma newVariableWithLevel_shape name pkgLevel st v st' room :
  0 <= room -> registry_room (room + 1) (allVars (st_c st)) ->
  newVariableWithLevel name pkgLevel st = Ok (v, st') ->
  exists b,
    no_dollar b = true
    /\ v = display_name b (count_of (allVars (st_c st)) b)
    /\ allVars (st_c st')
       = <[b := count_of (allVars (st_c st)) b + 1]> (allVars (st_c st))
    /\ st_p st' = st_p st.
Proof.
  intros Hroom Hreg E.
  destruct (decide (name = EmptyString)) as [->|Hne];
    [unfold newVariableWithLevel in E; cbn in E; discriminate|].
  destruct (minify (st_p st)) eqn:Hm.
  - destruct (newVariableWithLevel_minified name pkgLevel st Hm Hne)
      as (k & v' & st1 & E1 & Hk & Ek & Hc & _ & Hp & Hv & _).
    rewrite E1 in E. injection E as -> ->. exists v.
    split; [|split; [|split]].
    + apply (only_letters_no_dollar (level_offset pkgLevel));
        [destruct pkgLevel; cbn; lia|].
      now apply (minified_name_letters pkgLevel k).
    + now rewrite Hc.
    + now rewrite Hc.
    + exact Hp.
  - pose proof (registry_room_count _ _ (base_name name) Hreg) as Hc.
    destruct (newVariableWithLevel_plain name pkgLevel st Hm Hne ltac:(lia))
      as (st1 & E1 & Hp & Hv).
    rewrite E1 in E. injection E as <- <-. exists (base_name name).
    split; [apply base_name_no_dollar|]. auto.
Qed.

(** ** Rules for [costs] *)

Lemma registry_room_less room room' vars :
  registry_room room vars -> 0 <= room' <= room -> registry_room room' vars.
Proof.
  intros [Hr H] Hle. split; [lia|]. intros k v E.
  destruct (H k v E) as (? & ? & ?). repeat split; auto; lia.
Qed.

Lemma resolver_ok_less room room' st :
  resolver_ok room st -> 0 <= room' <= room -> resolver_ok room' st.
Proof.
  intros (H1 & H2 & H3) Hle. split; [|split]; auto.
  now apply (registry_room_less room).
Qed.

Lemma uses_room_refl st : uses_room 0 st st.
Proof.
  split; [|intros t a H; exact H]. intros room Hr H.
  apply (resolver_ok_less (room + 0)); [exact H|lia].
Qed.

Lemma uses_room_trans n1 n2 st st1 st2 :
  0 <= n1 -> 0 <= n2 ->
  uses_room n1 st st1 -> uses_room n2 st1 st2 -> uses_room (n1 + n2) st st2.
Proof.
  intros Hn1 Hn2 [A1 K1] [A2 K2]. split.
  - intros room Hr H. apply A2; [exact Hr|]. apply A1; [lia|].
    now replace (room + n2 + n1) with (room + (n1 + n2)) by lia.
  - intros t a H. apply K2, K1, H.
Qed.

Lemma uses_room_more n n' st st' :
  uses_room n st st' -> 0 <= n <= n' -> uses_room n' st st'.
Proof.
  intros [A K] Hle. split; [|exact K]. intros room Hr H. apply A; [exact Hr|].
  apply (resolver_ok_less (room + n')); [exact H|].
  destruct H as ([Hb _] & _). lia.
Qed.

Lemma mbind_inv {A B} (m : M A) (k : A -> M B) st b st' :
  mbind m k st = Ok (b, st') ->
  exists a st1, m st = Ok (a, st1) /\ k a st1 = Ok (b, st').
Proof.
  unfold mbind. destruct (m st) as [[a st1]| |]; cbn; try discriminate. eauto.
Qed.

Lemma costs_ret {A} (a : A) : costs 0 (ret a).
Proof. intros st a' st' [= <- <-]. apply uses_room_refl. Qed.

Lemma costs_bind {A B} n1 n2 (m : M A) (k : A -> M B) :
  0 <= n1 -> 0 <= n2 ->
  costs n1 m -> (forall a, costs n2 (k a)) -> costs (n1 + n2) (mbind m k).
Proof.
  intros Hn1 Hn2 Hm Hk st b st' E.
  apply mbind_inv in E as (a & st1 & E1 & E2).
  apply (uses_room_trans n1 n2 st st1 st'); auto.
  - exact (Hm st a st1 E1).
  - exact (Hk a st1 b st' E2).
Qed.

Lemma costs_more {A} n n' (m : M A) : costs n m -> 0 <= n <= n' -> costs n' m.
Proof. intros H Hle st a st' E. apply (uses_room_more n); eauto. Qed.

Lemma costs_get_p {A} (f : pkgContext -> A) : costs 0 (get_p f).
Proof. intros st a st' [= <- <-]. apply uses_room_refl. Qed.

Lemma costs_lift {A} (o : outcome A) : costs 0 (lift o).
Proof.
  intros st a st' E. unfold lift in E. destruct o; cbn in E; try discriminate.
  injection E as <- <-. apply uses_room_refl.
Qed.

Lemma costs_mpanic {A} msg : costs 0 (@mpanic A msg).
Proof. intros st a st' E. discriminate. Qed.

(** A change of the package context that leaves [anonTypeMap] alone. *)
Lemma costs_modify_p f :
  (forall p, anonTypeMap (f p) = anonTypeMap p) -> costs 0 (modify_p f).
Proof.
  intros Hf st a st' [= <- <-]. split.
  - intros room Hr (H1 & H2 & H3). unfold resolver_ok. cbn [st_p st_c].
    rewrite Hf. split; [|split]; auto. apply (registry_room_less (room + 0)); [exact H1|lia].
  - intros t a H. cbn [st_p]. now rewrite Hf.
Qed.

Lemma costs_newVariableWithLevel name pkgLevel :
  costs 1 (newVariableWithLevel name pkgLevel).
Proof.
  intros st v st' E. split.
  - intros room Hr (H1 & H2 & H3).
    destruct (newVariableWithLevel_shape name pkgLevel st v st' room Hr H1 E)
      as (b & Hb & Hv & Hvars & Hp).
    pose proof (registry_room_counts _ _ H1) as Hok.
    unfold resolver_ok. rewrite Hp, Hvars. split; [|split].
    + now apply registry_room_insert.
    + intros t a Ht. apply issued_insert; [exact Hok|]. eauto.
    + exact H3.
  - intros t a Ht.
    assert (st_p st' = st_p st) as ->; [|exact Ht].
    unfold newVariableWithLevel in E.
    destruct (decide (name = EmptyString)); [discriminate|].
    destruct (if minify (st_p st) then _ else _); cbn [obind] in E; try discriminate.
    destruct pkgLevel; injection E as _ <-; reflexivity.
Qed.

Lemma costs_bind0 {A B} n (m : M A) (k : A -> M B) :
  0 <= n -> costs 0 m -> (forall a, costs n (k a)) -> costs n (mbind m k).
Proof.
  intros Hn Hm Hk. replace n with (0 + n) by lia. apply costs_bind; auto; lia.
Qed.

Lemma costs_bind_sum {A B} n1 n2 n (m : M A) (k : A -> M B) :
  n = n1 + n2 -> 0 <= n1 -> 0 <= n2 ->
  costs n1 m -> (forall a, costs n2 (k a)) -> costs n (mbind m k).
Proof. intros ->. apply costs_bind. Qed.

Lemma costs_discard {A} n (m : M A) : 0 <= n -> costs n m -> costs n (discard m).
Proof.
  intros Hn H. unfold discard. apply (costs_bind_sum n 0 n); auto; try lia.
  intros a. apply costs_ret.
Qed.

Lemma costs_objectName o : costs 1 (objectName o).
Proof.
  unfold objectName.
  apply costs_bind0; [lia|apply costs_get_p|]. intros p.
  apply costs_bind0; [lia| |].
  { destruct (foreign p o || at_package_scope p o); [|apply costs_ret].
    apply costs_modify_p. intros []; reflexivity. }
  intros _. destruct (foreign p o).
  { apply costs_bind0; [lia|apply costs_lift|]. intros path.
    apply (costs_more 0); [apply costs_ret|lia]. }
  destruct (is_var_or_const o && obj_exported o && at_package_scope p o).
  { apply (costs_more 0); [apply costs_ret|lia]. }
  apply costs_bind0; [lia|apply costs_get_p|]. intros known.
  apply (costs_bind_sum 1 0 1); try lia.
  - destruct known as [name|]; [apply (costs_more 0); [apply costs_ret|lia]|].
    apply (costs_bind_sum 1 0 1); try lia; [apply costs_newVariableWithLevel|].
    intros name. apply costs_bind0; [lia| |intros; apply costs_ret].
    apply costs_modify_p. intros []; reflexivity.
  - intros name. apply costs_bind0; [lia|apply costs_get_p|]. intros escaping.
    destruct (is_var o && escaping); apply costs_ret.
Qed.

Lemma assoc_get_set {K V} `{EqDecision K} (k k' : K) (v : V) l :
  assoc_get k' (assoc_set k v l) = if decide (k' = k) then Some v else assoc_get k' l.
Proof.
  induction l as [|[k0 v0] l IH]; cbn.
  - destruct (decide (k' = k)); reflexivity.
  - destruct (decide (k = k0)) as [->|Hne]; cbn.
    + destruct (decide (k' = k0)); reflexivity.
    + destruct (decide (k' = k0)) as [->|Hne'].
      * destruct (decide (k0 = k)); [congruence|reflexivity].
      * exact IH.
Qed.

Lemma set_add_elem {K} `{EqDecision K} (k : K) l : k ∈ set_add k l.
Proof.
  unfold set_add. destruct (decide (k ∈ l)); [assumption|].
  apply elem_of_app. right. apply elem_of_cons. now left.
Qed.

Lemma set_add_present {K} `{EqDecision K} (k : K) l : k ∈ l -> set_add k l = l.
Proof. intros H. unfold set_add. now destruct (decide (k ∈ l)). Qed.

(** What [resolveAnonymous] leaves behind: the type is registered under
    the name returned, and the descriptor is among the dependencies. *)
Lemma resolveAnonymous_registered fe ty init st name st' :
  resolveAnonymous fe ty init st = Ok (name, st') ->
  exists a,
    assoc_get ty (anonTypeMap (st_p st')) = Some a
    /\ obj_name a = name
    /\ a ∈ dependencies (st_p st').
Proof.
  unfold resolveAnonymous. intros E.
  apply mbind_inv in E as (known & st0 & E0 & E). injection E0 as <- <-.
  apply mbind_inv in E as (a & st1 & E1 & E).
  apply mbind_inv in E as ([] & st2 & E2 & E). injection E2 as <-.
  injection E as <- <-. exists a. cbn [st_p].
  assert (Ha : assoc_get ty (anonTypeMap (st_p st1)) = Some a).
  { destruct (assoc_get ty (anonTypeMap (st_p st))) as [a0|] eqn:Hk.
    - injection E1 as <- <-. exact Hk.
    - apply mbind_inv in E1 as ([] & s1 & _ & E1).
      apply mbind_inv in E1 as (kind & s2 & _ & E1).
      apply mbind_inv in E1 as (suffix & s3 & _ & E1).
      apply mbind_inv in E1 as (varName & s4 & _ & E1).
      apply mbind_inv in E1 as (p & s5 & Ep & E1). injection Ep as <- <-.
      apply mbind_inv in E1 as ([] & s6 & Em & E1). injection Em as <-.
      injection E1 as <- <-. cbn [st_p]. destruct (st_p s4); cbn.
      rewrite assoc_get_set. now destruct (decide (ty = ty)). }
  split; [|split; [reflexivity|]].
  - destruct (st_p st1); exact Ha.
  - destruct (st_p st1); cbn. apply set_add_elem.
Qed.

(** Resolving a registered type again returns the registered name and
    changes nothing. *)
Lemma resolveAnonymous_again fe ty init st a :
  assoc_get ty (anonTypeMap (st_p st)) = Some a ->
  a ∈ dependencies (st_p st) ->
  resolveAnonymous fe ty init st = Ok (obj_name a, st).
Proof.
  intros Ha Hd. unfold resolveAnonymous, mbind, get_p, modify_p, ret.
  cbn [obind fst snd]. rewrite Ha. cbn [obind fst snd].
  rewrite (set_add_present a _ Hd). destruct st as [p c]. destruct p; reflexivity.
Qed.

Lemma typeName_anonymous fe ty :
  anonymous ty = true -> typeName fe ty = resolveAnonymous fe ty (initArgs fe ty).
Proof. destruct ty as [| | | | | | | | |[|]|]; try discriminate; reflexivity. Qed.

Lemma size_nonneg :
  (forall ty, 1 <= tsize ty) /\ (forall ts, 0 <= tssize ts)
  /\ (forall fs, 0 <= fsize fs) /\ (forall ms, 0 <= msize ms).
Proof. apply type_mutind; cbn [tsize tssize fsize msize]; intros; lia. Qed.

Lemma tsize_pos ty : 1 <= tsize ty.
Proof. apply size_nonneg. Qed.
Lemma tssize_nonneg ts : 0 <= tssize ts.
Proof. apply size_nonneg. Qed.
Lemma fsize_nonneg fs : 0 <= fsize fs.
Proof. apply size_nonneg. Qed.
Lemma msize_nonneg ms : 0 <= msize ms.
Proof. apply size_nonneg. Qed.

(** The registration of a new descriptor keeps the invariant. *)
Lemma costs_resolveAnonymous fe ty init n :
  0 <= n -> costs n init -> costs (n + 1) (resolveAnonymous fe ty init).
Proof.
  intros Hn Hinit st name st' E. unfold resolveAnonymous in E.
  apply mbind_inv in E as (known & st0 & E0 & E). injection E0 as <- <-.
  apply mbind_inv in E as (a & st1 & E1 & E).
  apply mbind_inv in E as ([] & st2 & E2 & E). injection E as _ <-.
  assert (Hdeps : uses_room 0 st1 st2).
  { apply (costs_modify_p (fun p => set_dependencies (set_add a (dependencies p)) p))
      with (a := tt); [intros []; reflexivity|exact E2]. }
  destruct (assoc_get ty (anonTypeMap (st_p st))) as [a0|] eqn:Hk.
  - injection E1 as <- <-. apply (uses_room_more 0); [exact Hdeps|lia].
  - apply mbind_inv in E1 as ([] & s1 & Ei & E1).
    apply mbind_inv in E1 as (kind & s2 & Ek & E1).
    apply mbind_inv in E1 as (suffix & s3 & Es & E1).
    apply mbind_inv in E1 as (varName & s4 & Ev & E1).
    apply mbind_inv in E1 as (p & s5 & Ep & E1). injection Ep as <- <-.
    apply mbind_inv in E1 as ([] & s6 & Em & E1). injection Em as <-.
    injection E1 as <- <-.
    assert (s2 = s1) as ->.
    { unfold lift in Ek. destruct (typeKind fe ty); cbn in Ek; congruence. }
    assert (s3 = s1) as ->.
    { unfold lift in Es. destruct (str_from kind 5); cbn in Es; congruence. }
    destruct (Hinit st tt s1 Ei) as [A1 K1].
    destruct Hdeps as [A2 K2].
    set (anon := mkObject (Allocated (allocs (st_p s4))) TypeNameObj varName
                   (Some (Pkg (st_p s4))) None (exported_name varName)) in *.
    assert (Hmap : forall t,
              assoc_get t (anonTypeMap (st_p
                 (mkState (set_allocs (S (allocs (st_p s4)))
                    (set_anon (anonTypes (st_p s4) ++ [anon])
                       (assoc_set ty anon (anonTypeMap (st_p s4))) (st_p s4)))
                    (st_c s4))))
              = if decide (t = ty) then Some anon
                else assoc_get t (anonTypeMap (st_p s1))).
    { intros t. cbn [st_p]. 
      assert (st_p s4 = st_p s1) as Hp4.
      { unfold newVariableWithLevel in Ev.
        destruct (decide (_ = EmptyString)); [discriminate|].
        destruct (if minify (st_p s1) then _ else _); cbn [obind] in Ev;
          try discriminate.
        destruct true; injection Ev as _ <-; reflexivity. }
      rewrite <- Hp4. destruct (st_p s4); cbn. apply assoc_get_set. }
    split.
    + intros room Hr Hok. apply A2; [exact Hr|].
      replace (room + (n + 1)) with (room + 1 + n) in Hok by lia.
      apply A1 in Hok; [|lia]. destruct Hok as (H1 & H2 & H3).
      destruct (newVariableWithLevel_shape _ _ _ _ _ room Hr H1 Ev)
        as (b & Hb & Hv & Hvars & Hp).
      pose proof (registry_room_counts _ _ H1) as Hok.
      replace (room + 0) with room by lia.
      unfold resolver_ok. cbn [st_c]. rewrite Hvars. split; [|split].
      * now apply registry_room_insert.
      * intros t a'. rewrite Hmap. destruct (decide (t = ty)).
        -- intros [= <-]. cbn [obj_name anon]. rewrite Hv. now apply issued_new.
        -- intros Ht. apply issued_insert; [exact Hok|]. eauto.
      * intros t1 t2 a1 a2. rewrite !Hmap.
        destruct (decide (t1 = ty)) as [->|N1], (decide (t2 = ty)) as [->|N2]; auto.
        -- intros [= <-] Ht2 Heq. exfalso.
           apply (display_name_fresh _ b Hok Hb). rewrite <- Hv.
           cbn [obj_name anon] in Heq. rewrite Heq. eauto.
        -- intros Ht1 [= <-] Heq. exfalso.
           apply (display_name_fresh _ b Hok Hb). rewrite <- Hv.
           cbn [obj_name anon] in Heq. rewrite <- Heq. eauto.
        -- apply H3.
    + intros t a' Ht. apply K2. rewrite Hmap.
      destruct (decide (t = ty)) as [->|_]; [congruence|]. now apply K1.
Qed.

(** The resolution of a type keeps the invariant and uses no more
    allocations than the type has nodes. *)
Lemma costs_typeName_all fe :
  (forall ty, costs (tsize ty) (typeName fe ty))
  /\ (forall ts, costs (tssize ts) (typeNames fe ts))
  /\ (forall fs, costs (fsize fs) (initFields fe fs))
  /\ (forall ms, costs (msize ms) (initMethods fe ms)).
Proof.
  apply type_mutind; cbn [tsize tssize fsize msize
                           typeName typeNames initFields initMethods].
  - intros k. apply (costs_more 0); [|lia].
    apply costs_bind0; [lia|apply costs_lift|intros; apply costs_ret].
  - intros o. destruct (decide (obj_name o = "error"));
      [apply (costs_more 0); [apply costs_ret|lia]|apply costs_objectName].
  - intros len elem IH. replace (1 + tsize elem) with (tsize elem + 1) by lia.
    pose proof (tsize_pos elem).
    apply costs_resolveAnonymous; [lia|]. apply costs_discard; [lia|exact IH].
  - intros elem IH. replace (1 + tsize elem) with (tsize elem + 1) by lia.
    pose proof (tsize_pos elem).
    apply costs_resolveAnonymous; [lia|]. apply costs_discard; [lia|exact IH].
  - intros elem IH. replace (1 + tsize elem) with (tsize elem + 1) by lia.
    pose proof (tsize_pos elem).
    apply costs_resolveAnonymous; [lia|]. apply costs_discard; [lia|exact IH].
  - intros key IHk elem IHe.
    replace (1 + tsize key + tsize elem) with (tsize key + tsize elem + 1) by lia.
    pose proof (tsize_pos key). pose proof (tsize_pos elem).
    apply costs_resolveAnonymous; [lia|].
    apply costs_bind; [lia|lia|exact IHk|]. intros _.
    apply costs_discard; [lia|exact IHe].
  - intros dir elem IH. replace (1 + tsize elem) with (tsize elem + 1) by lia.
    pose proof (tsize_pos elem).
    apply costs_resolveAnonymous; [lia|]. apply costs_discard; [lia|exact IH].
  - intros fields IH. replace (1 + fsize fields) with (fsize fields + 1) by lia.
    apply costs_resolveAnonymous; [apply fsize_nonneg|exact IH].
  - intros params IHp results IHr variadic.
    replace (1 + tssize params + tssize results)
      with (tssize params + tssize results + 1) by lia.
    pose proof (tssize_nonneg params). pose proof (tssize_nonneg results).
    apply costs_resolveAnonymous; [lia|].
    apply costs_bind; auto.
  - intros ms IH. destruct ms as [|name params results variadic ms'].
    + apply (costs_more 0); [apply costs_ret|cbn; lia].
    + replace (1 + msize (MCons name params results variadic ms'))
        with (msize (MCons name params results variadic ms') + 1) by lia.
      apply costs_resolveAnonymous; [apply msize_nonneg|exact IH].
  - intros elems _. replace (1 + tssize elems) with (tssize elems + 1) by lia.
    apply costs_resolveAnonymous; [apply tssize_nonneg|].
    apply (costs_more 0); [apply costs_mpanic|]. pose proof (tssize_nonneg elems). lia.
  - apply costs_ret.
  - intros t IHt ts IHts. pose proof (tsize_pos t). pose proof (tssize_nonneg ts).
    apply costs_bind; auto; lia.
  - apply costs_ret.
  - intros name t IHt tag fs IHfs. pose proof (tsize_pos t).
    pose proof (fsize_nonneg fs). apply costs_bind; auto; lia.
  - apply costs_ret.
  - intros name params IHp results IHr variadic ms IHms.
    pose proof (tssize_nonneg params). pose proof (tssize_nonneg results).
    pose proof (msize_nonneg ms).
    replace (tssize params + tssize results + msize ms)
      with (tssize params + (tssize results + msize ms)) by lia.
    apply costs_bind; auto; try lia. intros _. apply costs_bind; auto.
Qed.

Lemma costs_typeName fe ty : costs (tsize ty) (typeName fe ty).
Proof. apply costs_typeName_all. Qed.

Lemma resolver_ok_new minified room :
  0 <= room < 2 ^ 63 -> resolver_ok room (new_state minified).
Proof.
  intros Hr. split; [|split].
  - now apply registry_room_empty.
  - intros t a H. discriminate.
  - intros t1 t2 a1 a2 H. discriminate.
Qed.

(** ** The resolver along the parent chain *)

Lemma issued_mono low high name :
  counts_below low high -> issued low name -> issued high name.
Proof.
  intros H (base & n & Hn & ->). exists base, n. split; [|reflexivity].
  specialize (H base). lia.
Qed.

Lemma counts_below_refl vars : counts_below vars vars.
Proof. intros k. lia. Qed.

Lemma chain_registries_ok_less room room' (known known' : string -> Prop) l :
  0 <= room' <= room -> (forall name, known' name -> known name) ->
  chain_registries_ok room known l -> chain_registries_ok room' known' l.
Proof.
  intros Hr Hk. induction l as [|vars rest IH]; [auto|].
  cbn [chain_registries_ok]. intros (H1 & H2 & H3 & H4).
  split; [now apply (registry_room_less room)|]. split; [auto|]. split; auto.
Qed.

(** A package-level allocation of the base [b] on the first registry of
    a chain: every registry of the chain gets the new count, and has then
    handed out the new name. *)
Lemma chain_registries_ok_reserve room (known known' : string -> Prop) b n l :
  0 <= room -> 0 <= n -> n + 1 + room < 2 ^ 63 -> no_dollar b = true ->
  Forall (fun vars => count_of vars b <= n) l ->
  (forall name, known' name -> known name \/ name = display_name b n) ->
  chain_registries_ok (room + 1) known l ->
  chain_registries_ok room known' (map (<[b := n + 1]>) l).
Proof.
  intros Hroom Hn Hbound Hb Hle Hk.
  induction l as [|vars rest IH]; [auto|].
  apply Forall_cons in Hle as [Hle1 Hle].
  cbn [chain_registries_ok map]. intros (H1 & H2 & H3 & H4).
  split; [|split; [|split]].
  - destruct H1 as [Hr1 H1]. split; [lia|]. intros k v. rewrite lookup_insert.
    destruct (decide (b = k)) as [<-|_].
    + intros [= <-]. repeat split; auto; lia.
    + intros E. destruct (H1 k v E) as (? & ? & ?). repeat split; auto; lia.
  - intros name Hname. destruct (Hk name Hname) as [Hold| ->].
    + apply (issued_mono vars); [|auto]. intros k. rewrite count_of_insert.
      destruct (decide (b = k)) as [<-|_]; lia.
    + exists b, n. split; [|reflexivity]. rewrite count_of_insert.
      destruct (decide (b = b)); [lia|congruence].
  - rewrite Forall_map. rewrite Forall_forall in H3 |- *. intros low Hlow k.
    specialize (H3 low Hlow k). rewrite !count_of_insert.
    destruct (decide (b = k)); lia.
  - apply IH; auto.
Qed.

(** A local allocation changes the first registry only. *)
Lemma chain_registries_ok_local room (known : string -> Prop) b vars rest :
  0 <= room -> no_dollar b = true ->
  chain_registries_ok (room + 1) known (vars :: rest) ->
  chain_registries_ok room known (<[b := count_of vars b + 1]> vars :: rest).
Proof.
  intros Hroom Hb. cbn [chain_registries_ok]. intros (H1 & H2 & H3 & H4).
  pose proof (registry_room_counts _ _ H1) as Hok.
  split; [|split; [|split]].
  - now apply registry_room_insert.
  - intros name Hname. apply issued_insert; auto.
  - rewrite Forall_forall in H3 |- *. intros low Hlow k.
    specialize (H3 low Hlow k). rewrite count_of_insert.
    destruct (decide (b = k)) as [<-|_]; lia.
  - apply (chain_registries_ok_less (room + 1) room known known); auto. lia.
Qed.

(** The registries of the chain after a reservation. *)
Lemma registries_reserve_in_chain b w :
  forall c,
    registries (reserve_in_chain b w c) = map (<[b := w]>) (registries c).
Proof.
  unfold registries. fix IH 1.
  intros [par vars locals out delayed avail p blocking].
  cbn [reserve_in_chain ancestors map allVars]. f_equal.
  destruct par as [q|]; [|reflexivity].
  cbn [ancestors]. exact (IH q).
Qed.

(** The state that an allocation returns, written out. *)
Lemma newVariableWithLevel_explicit name pkgLevel st v st' room :
  0 <= room -> registry_room (room + 1) (allVars (st_c st)) ->
  newVariableWithLevel name pkgLevel st = Ok (v, st') ->
  exists b,
    no_dollar b = true
    /\ v = display_name b (count_of (allVars (st_c st)) b)
    /\ st_p st' = st_p st
    /\ registries (st_c st')
       = <[b := count_of (allVars (st_c st)) b + 1]> (allVars (st_c st))
         :: (if pkgLevel
             then map (<[b := count_of (allVars (st_c st)) b + 1]>)
                    (map allVars (ancestors (st_c st)))
             else map allVars (ancestors (st_c st))).
Proof.
  intros Hroom Hreg E. unfold newVariableWithLevel in E.
  destruct (decide (name = EmptyString)) as [|Hne]; [discriminate|].
  assert (Hgen : forall b,
            no_dollar b = true ->
            (let n := count_of (allVars (st_c st)) b in
             let c := set_allVars (<[b := wrap64 (n + 1)]> (allVars (st_c st))) (st_c st) in
             let varName := if 0 <? n then suffixed b n else b in
             (if pkgLevel
              then Ok (varName,
                       mkState (st_p st)
                         (set_parent (reserve_in_ancestors b (wrap64 (n + 1)) (parent c)) c))
              else Ok (varName,
                       mkState (st_p st) (set_localVars (localVars c ++ [varName]) c)))
             = Ok (v, st')) ->
            exists b0,
              no_dollar b0 = true
              /\ v = display_name b0 (count_of (allVars (st_c st)) b0)
              /\ st_p st' = st_p st
              /\ registries (st_c st')
                 = <[b0 := count_of (allVars (st_c st)) b0 + 1]> (allVars (st_c st))
                   :: (if pkgLevel
                       then map (<[b0 := count_of (allVars (st_c st)) b0 + 1]>)
                              (map allVars (ancestors (st_c st)))
                       else map allVars (ancestors (st_c st)))).
  { intros b Hb Hrun. exists b. split; [exact Hb|].
    pose proof (registry_room_count _ _ b Hreg) as Hc.
    cbn zeta in Hrun. rewrite wrap64_small in Hrun by lia.
    destruct pkgLevel; injection Hrun as <- <-; cbn [st_p st_c];
      (split; [reflexivity|]); (split; [reflexivity|]).
    - destruct (st_c st) as [par vars locals out delayed avail p blocking].
      cbn [allVars parent set_allVars set_parent reserve_in_ancestors].
      destruct par as [q|]; unfold registries; cbn [ancestors map allVars];
        [|reflexivity].
      f_equal. exact (registries_reserve_in_chain b _ q).
    - destruct (st_c st) as [par vars locals out delayed avail p blocking].
      reflexivity. }
  destruct (minify (st_p st)) eqn:Hm.
  - destruct (first_free_total (allVars (st_c st)) pkgLevel)
      as (k & w & Ef & Hk & Ek & Hc & _).
    rewrite Ef in E. cbn [obind] in E. apply (Hgen w); [|exact E].
    apply (only_letters_no_dollar (level_offset pkgLevel));
      [destruct pkgLevel; cbn; lia|].
    now apply (minified_name_letters pkgLevel k).
  - cbn [obind] in E. apply (Hgen (base_name name)); [apply base_name_no_dollar|].
    exact E.
Qed.

(** ** Rules for [chain_costs] *)

Lemma chain_costs_ret {A} (a : A) : chain_costs 0 (ret a).
Proof.
  intros st a' st' [= <- <-] room Hr H.
  apply (chain_registries_ok_less (room + 0) room _ _ _ ltac:(lia) (fun _ H => H) H).
Qed.

Lemma chain_costs_bind {A B} n1 n2 (m : M A) (k : A -> M B) :
  0 <= n1 -> 0 <= n2 ->
  chain_costs n1 m -> (forall a, chain_costs n2 (k a)) ->
  chain_costs (n1 + n2) (mbind m k).
Proof.
  intros Hn1 Hn2 Hm Hk st b st' E room Hr H.
  apply mbind_inv in E as (a & st1 & E1 & E2).
  apply (Hk a st1 b st' E2 room Hr).
  apply (Hm st a st1 E1 (room + n2)); [lia|].
  now replace (room + n2 + n1) with (room + (n1 + n2)) by lia.
Qed.

Lemma chain_costs_more {A} n n' (m : M A) :
  chain_costs n m -> 0 <= n <= n' -> chain_costs n' m.
Proof.
  intros H Hle st a st' E room Hr Hc. apply (H st a st' E room Hr).
  apply (chain_registries_ok_less (room + n') (room + n) _ _ _ ltac:(lia)
           (fun _ H => H) Hc).
Qed.

Lemma chain_costs_get_p {A} (f : pkgContext -> A) : chain_costs 0 (get_p f).
Proof.
  intros st a st' [= <- <-] room Hr H.
  apply (chain_registries_ok_less (room + 0) room _ _ _ ltac:(lia) (fun _ H => H) H).
Qed.

Lemma chain_costs_lift {A} (o : outcome A) : chain_costs 0 (lift o).
Proof.
  intros st a st' E. unfold lift in E. destruct o; cbn in E; try discriminate.
  injection E as <- <-. intros room Hr H.
  apply (chain_registries_ok_less (room + 0) room _ _ _ ltac:(lia) (fun _ H => H) H).
Qed.

Lemma chain_costs_mpanic {A} msg : chain_costs 0 (@mpanic A msg).
Proof. intros st a st' E. discriminate. Qed.

Lemma chain_costs_modify_p f :
  (forall p, anonTypeMap (f p) = anonTypeMap p) -> chain_costs 0 (modify_p f).
Proof.
  intros Hf st a st' [= <- <-] room Hr H. cbn [st_p st_c].
  apply (chain_registries_ok_less (room + 0) room (registered (st_p st)) _ _
           ltac:(lia)); [|exact H].
  intros name (t & o & Ht & Hn). exists t, o. now rewrite <- Hf.
Qed.

Lemma chain_costs_newVariableWithLevel name pkgLevel :
  chain_costs 1 (newVariableWithLevel name pkgLevel).
Proof.
  intros st v st' E room Hr H.
  unfold registries in H. cbn [map] in H.
  pose proof H as (H1 & H2 & H3 & H4).
  destruct (newVariableWithLevel_explicit name pkgLevel st v st' room Hr H1 E)
    as (b & Hb & Hv & Hp & Hregs).
  pose proof (registry_room_count _ _ b H1) as Hc.
  rewrite Hregs, Hp. destruct pkgLevel.
  - change (<[b := count_of (allVars (st_c st)) b + 1]> (allVars (st_c st))
            :: map (<[b := count_of (allVars (st_c st)) b + 1]>)
                 (map allVars (ancestors (st_c st))))
      with (map (<[b := count_of (allVars (st_c st)) b + 1]>)
              (allVars (st_c st) :: map allVars (ancestors (st_c st)))).
    apply (chain_registries_ok_reserve room (registered (st_p st))); auto; try lia.
    constructor; [lia|]. rewrite Forall_forall in H3 |- *.
    intros low Hlow. exact (H3 low Hlow b).
  - now apply chain_registries_ok_local.
Qed.

Lemma chain_costs_bind0 {A B} n (m : M A) (k : A -> M B) :
  0 <= n -> chain_costs 0 m -> (forall a, chain_costs n (k a)) ->
  chain_costs n (mbind m k).
Proof.
  intros Hn Hm Hk. replace n with (0 + n) by lia.
  apply chain_costs_bind; auto; lia.
Qed.

Lemma chain_costs_bind_sum {A B} n1 n2 n (m : M A) (k : A -> M B) :
  n = n1 + n2 -> 0 <= n1 -> 0 <= n2 ->
  chain_costs n1 m -> (forall a, chain_costs n2 (k a)) -> chain_costs n (mbind m k).
Proof. intros ->. apply chain_costs_bind. Qed.

Lemma chain_costs_discard {A} n (m : M A) :
  0 <= n -> chain_costs n m -> chain_costs n (discard m).
Proof.
  intros Hn H. unfold discard. apply (chain_costs_bind_sum n 0 n); auto; try lia.
  intros a. apply chain_costs_ret.
Qed.

Lemma chain_costs_objectName o : chain_costs 1 (objectName o).
Proof.
  unfold objectName.
  apply chain_costs_bind0; [lia|apply chain_costs_get_p|]. intros p.
  apply chain_costs_bind0; [lia| |].
  { destruct (foreign p o || at_package_scope p o); [|apply chain_costs_ret].
    apply chain_costs_modify_p. intros []; reflexivity. }
  intros _. destruct (foreign p o).
  { apply chain_costs_bind0; [lia|apply chain_costs_lift|]. intros path.
    apply (chain_costs_more 0); [apply chain_costs_ret|lia]. }
  destruct (is_var_or_const o && obj_exported o && at_package_scope p o).
  { apply (chain_costs_more 0); [apply chain_costs_ret|lia]. }
  apply chain_costs_bind0; [lia|apply chain_costs_get_p|]. intros known.
  apply (chain_costs_bind_sum 1 0 1); try lia.
  - destruct known as [name|]; [apply (chain_costs_more 0); [apply chain_costs_ret|lia]|].
    apply (chain_costs_bind_sum 1 0 1); try lia; [apply chain_costs_newVariableWithLevel|].
    intros name. apply chain_costs_bind0; [lia| |intros; apply chain_costs_ret].
    apply chain_costs_modify_p. intros []; reflexivity.
  - intros name. apply chain_costs_bind0; [lia|apply chain_costs_get_p|]. intros escaping.
    destruct (is_var o && escaping); apply chain_costs_ret.
Qed.

(** The registration of a new descriptor: its name has been reserved in
    every registry of the chain. *)
Lemma chain_costs_resolveAnonymous fe ty init n :
  0 <= n -> chain_costs n init -> chain_costs (n + 1) (resolveAnonymous fe ty init).
Proof.
  intros Hn Hinit st name st' E room Hr H. unfold resolveAnonymous in E.
  apply mbind_inv in E as (known & st0 & E0 & E). injection E0 as <- <-.
  apply mbind_inv in E as (a & st1 & E1 & E).
  apply mbind_inv in E as ([] & st2 & E2 & E). injection E as _ <-.
  assert (Hdeps : chain_costs 0
            (modify_p (fun p => set_dependencies (set_add a (dependencies p)) p))).
  { apply chain_costs_modify_p. intros []; reflexivity. }
  apply (Hdeps st1 tt st2 E2 room Hr). replace (room + 0) with room by lia.
  destruct (assoc_get ty (anonTypeMap (st_p st))) as [a0|] eqn:Hk.
  - injection E1 as <- <-.
    apply (chain_registries_ok_less (room + (n + 1)) room _ _ _ ltac:(lia)
             (fun _ H => H) H).
  - apply mbind_inv in E1 as ([] & s1 & Ei & E1).
    apply mbind_inv in E1 as (kind & s2 & Ek & E1).
    apply mbind_inv in E1 as (suffix & s3 & Es & E1).
    apply mbind_inv in E1 as (varName & s4 & Ev & E1).
    apply mbind_inv in E1 as (p & s5 & Ep & E1). injection Ep as <- <-.
    apply mbind_inv in E1 as ([] & s6 & Em & E1). injection Em as <-.
    injection E1 as <- <-.
    assert (s2 = s1) as ->.
    { unfold lift in Ek. destruct (typeKind fe ty); cbn in Ek; congruence. }
    assert (s3 = s1) as ->.
    { unfold lift in Es. destruct (str_from kind 5); cbn in Es; congruence. }
    replace (room + (n + 1)) with (room + 1 + n) in H by lia.
    apply (Hinit st tt s1 Ei (room + 1)) in H; [|lia].
    unfold registries in H. cbn [map] in H. pose proof H as (H1 & H2 & H3 & H4).
    destruct (newVariableWithLevel_explicit _ _ _ _ _ room Hr H1 Ev)
      as (b & Hb & Hv & Hp & Hregs).
    pose proof (registry_room_count _ _ b H1) as Hc.
    cbn [st_c st_p]. rewrite Hregs.
    change (<[b := count_of (allVars (st_c s1)) b + 1]> (allVars (st_c s1))
            :: map (<[b := count_of (allVars (st_c s1)) b + 1]>)
                 (map allVars (ancestors (st_c s1))))
      with (map (<[b := count_of (allVars (st_c s1)) b + 1]>)
              (allVars (st_c s1) :: map allVars (ancestors (st_c s1)))).
    apply (chain_registries_ok_reserve room (registered (st_p s1))); auto; try lia.
    + constructor; [lia|]. rewrite Forall_forall in H3 |- *.
      intros low Hlow. exact (H3 low Hlow b).
    + intros nm (t & o & Ht & Hnm). rewrite <- Hp.
      destruct (st_p s4) eqn:Hp4. cbn in Ht. rewrite assoc_get_set in Ht.
      destruct (decide (t = ty)) as [->|_].
      * right. injection Ht as <-. cbn [obj_name] in Hnm. now rewrite <- Hnm, <- Hv.
      * left. exists t, o. split; [exact Ht|exact Hnm].
Qed.

Lemma chain_costs_typeName_all fe :
  (forall ty, chain_costs (tsize ty) (typeName fe ty))
  /\ (forall ts, chain_costs (tssize ts) (typeNames fe ts))
  /\ (forall fs, chain_costs (fsize fs) (initFields fe fs))
  /\ (forall ms, chain_costs (msize ms) (initMethods fe ms)).
Proof.
  apply type_mutind; cbn [tsize tssize fsize msize
                           typeName typeNames initFields initMethods].
  - intros k. apply (chain_costs_more 0); [|lia].
    apply chain_costs_bind0; [lia|apply chain_costs_lift|intros; apply chain_costs_ret].
  - intros o. destruct (decide (obj_name o = "error"));
      [apply (chain_costs_more 0); [apply chain_costs_ret|lia]|apply chain_costs_objectName].
  - intros len elem IH. replace (1 + tsize elem) with (tsize elem + 1) by lia.
    pose proof (tsize_pos elem).
    apply chain_costs_resolveAnonymous; [lia|]. apply chain_costs_discard; [lia|exact IH].
  - intros elem IH. replace (1 + tsize elem) with (tsize elem + 1) by lia.
    pose proof (tsize_pos elem).
    apply chain_costs_resolveAnonymous; [lia|]. apply chain_costs_discard; [lia|exact IH].
  - intros elem IH. replace (1 + tsize elem) with (tsize elem + 1) by lia.
    pose proof (tsize_pos elem).
    apply chain_costs_resolveAnonymous; [lia|]. apply chain_costs_discard; [lia|exact IH].
  - intros key IHk elem IHe.
    replace (1 + tsize key + tsize elem) with (tsize key + tsize elem + 1) by lia.
    pose proof (tsize_pos key). pose proof (tsize_pos elem).
    apply chain_costs_resolveAnonymous; [lia|].
    apply chain_costs_bind; [lia|lia|exact IHk|]. intros _.
    apply chain_costs_discard; [lia|exact IHe].
  - intros dir elem IH. replace (1 + tsize elem) with (tsize elem + 1) by lia.
    pose proof (tsize_pos elem).
    apply chain_costs_resolveAnonymous; [lia|]. apply chain_costs_discard; [lia|exact IH].
  - intros fields IH. replace (1 + fsize fields) with (fsize fields + 1) by lia.
    apply chain_costs_resolveAnonymous; [apply fsize_nonneg|exact IH].
  - intros params IHp results IHr variadic.
    replace (1 + tssize params + tssize results)
      with (tssize params + tssize results + 1) by lia.
    pose proof (tssize_nonneg params). pose proof (tssize_nonneg results).
    apply chain_costs_resolveAnonymous; [lia|].
    apply chain_costs_bind; auto.
  - intros ms IH. destruct ms as [|name params results variadic ms'].
    + apply (chain_costs_more 0); [apply chain_costs_ret|cbn; lia].
    + replace (1 + msize (MCons name params results variadic ms'))
        with (msize (MCons name params results variadic ms') + 1) by lia.
      apply chain_costs_resolveAnonymous; [apply msize_nonneg|exact IH].
  - intros elems _. replace (1 + tssize elems) with (tssize elems + 1) by lia.
    apply chain_costs_resolveAnonymous; [apply tssize_nonneg|].
    apply (chain_costs_more 0); [apply chain_costs_mpanic|].
    pose proof (tssize_nonneg elems). lia.
  - apply chain_costs_ret.
  - intros t IHt ts IHts. pose proof (tsize_pos t). pose proof (tssize_nonneg ts).
    apply chain_costs_bind; auto; lia.
  - apply chain_costs_ret.
  - intros name t IHt tag fs IHfs. pose proof (tsize_pos t).
    pose proof (fsize_nonneg fs). apply chain_costs_bind; auto; lia.
  - apply chain_costs_ret.
  - intros name params IHp results IHr variadic ms IHms.
    pose proof (tssize_nonneg params). pose proof (tssize_nonneg results).
    pose proof (msize_nonneg ms).
    replace (tssize params + tssize results + msize ms)
      with (tssize params + (tssize results + msize ms)) by lia.
    apply chain_costs_bind; auto; try lia. intros _. apply chain_costs_bind; auto.
Qed.

Lemma chain_costs_typeName fe ty : chain_costs (tsize ty) (typeName fe ty).
Proof. apply chain_costs_typeName_all. Qed.

(** The registries of an ancestor end the list of the registries. *)
Lemma registries_ancestor :
  forall c a, a ∈ ancestors c -> exists pre, registries c = pre ++ registries a.
Proof.
  fix IH 1. intros [par vars locals out delayed avail p blocking] a Ha.
  destruct par as [q|]; cbn [ancestors] in Ha; [|inversion Ha].
  apply elem_of_cons in Ha as [->|Ha].
  - exists [vars]. reflexivity.
  - destruct (IH q a Ha) as (pre & Hpre). exists (vars :: pre).
    unfold registries in *. cbn [ancestors map allVars app] in *.
    now rewrite Hpre.
Qed.

Lemma chain_registries_ok_suffix room known pre l :
  chain_registries_ok room known (pre ++ l) -> chain_registries_ok room known l.
Proof.
  induction pre as [|vars pre IH]; [auto|]. cbn [app chain_registries_ok].
  intros (_ & _ & _ & H). auto.
Qed.

Lemma chain_ok_ancestor room st a :
  chain_ok room st -> a ∈ ancestors (st_c st) -> chain_ok room (mkState (st_p st) a).
Proof.
  intros [(_ & _ & Hinj) Hchain] Ha.
  destruct (registries_ancestor _ _ Ha) as (pre & Hpre). rewrite Hpre in Hchain.
  apply chain_registries_ok_suffix in Hchain.
  split; [|exact Hchain]. unfold resolver_ok. cbn [st_p st_c].
  unfold registries in Hchain. cbn [map chain_registries_ok] in Hchain.
  destruct Hchain as (H1 & H2 & _). split; [exact H1|]. split; [|exact Hinj].
  intros t o Ht. apply H2. now exists t, o.
Qed.

Lemma chain_ok_new minified room :
  0 <= room < 2 ^ 63 -> chain_ok room (new_state minified).
Proof.
  intros Hr. split; [now apply resolver_ok_new|].
  cbn. split; [now apply registry_room_empty|]. split; [|split; [constructor|exact I]].
  intros name (t & a & Ht & _). discriminate.
Qed.

Lemma chain_ok_typeName fe ty room st name st' :
  0 <= room -> chain_ok (room + tsize ty) st ->
  typeName fe ty st = Ok (name, st') -> chain_ok room st'.
Proof.
  intros Hr [Hok Hchain] E. split.
  - destruct (costs_typeName fe ty st name st' E) as [A _]. now apply A.
  - now apply (chain_costs_typeName fe ty st name st' E).
Qed.

(** C3 (amended).  (1) Once [typeName] has resolved an anonymous type,
    resolving the same type again returns the same descriptor name and
    leaves the state as it is: the type is registered in [anonTypeMap]
    under that name and its descriptor is among the dependencies, where
    the second resolution finds both.  (2) Two different anonymous types
    get different descriptor names whenever the second is resolved on a
    function context whose registry has room for the allocations and has
    handed out the name of every descriptor registered so far
    ([resolver_ok]), whichever context has resolved the first.  (3) A new
    context is in that state, together with its ancestors ([chain_ok]);
    (4) a resolution on a context in that state leaves the context in it;
    (5) a resolution on a context that is in that state together with its
    ancestors leaves the context and its ancestors in it, every
    descriptor name being reserved up the parent chain; (6) a context that
    is in that state together with its ancestors is in it itself, and so
    is each of its ancestors together with its own ancestors. *)
Theorem typeName_memoized_and_distinct (fe : FrontEnd) :
  (forall ty st name st1,
      anonymous ty = true ->
      typeName fe ty st = Ok (name, st1) ->
      typeName fe ty st1 = Ok (name, st1)
      /\ exists a,
           assoc_get ty (anonTypeMap (st_p st1)) = Some a
           /\ obj_name a = name
           /\ a ∈ dependencies (st_p st1))
  /\ (forall t1 t2 room st n1 st1 c2 n2 st2,
        anonymous t1 = true -> anonymous t2 = true -> t1 <> t2 ->
        0 <= room ->
        typeName fe t1 st = Ok (n1, st1) ->
        resolver_ok (room + tsize t2) (mkState (st_p st1) c2) ->
        typeName fe t2 (mkState (st_p st1) c2) = Ok (n2, st2) ->
        n1 <> n2)
  /\ (forall minified room, 0 <= room < 2 ^ 63 ->
        chain_ok room (new_state minified))
  /\ (forall ty room st name st',
        0 <= room -> resolver_ok (room + tsize ty) st ->
        typeName fe ty st = Ok (name, st') ->
        resolver_ok room st')
  /\ (forall ty room st name st',
        0 <= room -> chain_ok (room + tsize ty) st ->
        typeName fe ty st = Ok (name, st') ->
        chain_ok room st')
  /\ (forall room st,
        chain_ok room st ->
        resolver_ok room st
        /\ forall a, a ∈ ancestors (st_c st) ->
             chain_ok room (mkState (st_p st) a)).
Proof.
  split; [|split; [|split; [|split; [|split]]]].
  - intros ty st name st1 Ha E. rewrite (typeName_anonymous fe ty Ha) in *.
    destruct (resolveAnonymous_registered _ _ _ _ _ _ E) as (a & H1 & H2 & H3).
    split; [|eauto]. rewrite <- H2. now apply resolveAnonymous_again.
  - intros t1 t2 room st n1 st1 c2 n2 st2 Ha1 Ha2 Hne Hroom E1 Hok E2 Heq.
    destruct (costs_typeName fe t2 _ n2 st2 E2) as [A2 K2].
    apply A2 in Hok; [|exact Hroom]. destruct Hok as (_ & _ & Hdistinct).
    rewrite (typeName_anonymous fe t1 Ha1) in E1.
    rewrite (typeName_anonymous fe t2 Ha2) in E2.
    destruct (resolveAnonymous_registered _ _ _ _ _ _ E1) as (a1 & G1 & N1 & _).
    destruct (resolveAnonymous_registered _ _ _ _ _ _ E2) as (a2 & G2 & N2 & _).
    apply (K2 t1 a1) in G1. apply Hne.
    apply (Hdistinct t1 t2 a1 a2 G1 G2). congruence.
  - apply chain_ok_new.
  - intros ty room st name st' Hroom Hok E.
    destruct (costs_typeName fe ty st name st' E) as [A _]. now apply A.
  - intros ty room st name st'. apply chain_ok_typeName.
  - intros room st H. split; [exact (proj1 H)|].
    intros a Ha. now apply chain_ok_ancestor.
Qed.

(** The counterexample to the claim as stated: two function contexts of
    one unit, each with a registry of its own, give the slice of [int]
    and the slice of [string] the same descriptor name. *)
Lemma typeName_same_name_in_two_contexts :
  exists st1 st2,
    typeName sample_front_end int_slice (new_state false) = Ok ("sliceType", st1)
    /\ typeName sample_front_end string_slice
         (mkState (st_p st1) new_function_context)
       = Ok ("sliceType", st2).
Proof. eexists _, _. split; [vm_compute; reflexivity|vm_compute; reflexivity]. Qed.

Lemma typeName_witness :
  exists st1 a st2,
    typeName sample_front_end int_slice
      (mkState (new_package_context false) inner_context)
    = Ok ("sliceType", st1)
    /\ typeName sample_front_end int_slice st1 = Ok ("sliceType", st1)
    /\ ancestors (st_c st1) = [a]
    /\ typeName sample_front_end string_slice (mkState (st_p st1) a)
       = Ok ("sliceType$1", st2)
    /\ "sliceType" <> "sliceType$1".
Proof.
  destruct (typeName_memoized_and_distinct sample_front_end)
    as (Hmemo & Hdist & _ & _ & Hkeep & Hanc).
  destruct (typeName sample_front_end int_slice
              (mkState (new_package_context false) inner_context))
    as [[n1 st1]| |] eqn:E1; try (vm_compute in E1; discriminate).
  assert (Hn1 : n1 = "sliceType") by (vm_compute in E1; now injection E1 as <- _).
  assert (Ha : exists a, ancestors (st_c st1) = [a]).
  { vm_compute in E1. injection E1 as _ <-. eexists. reflexivity. }
  destruct Ha as [a Ha].
  destruct (typeName sample_front_end string_slice (mkState (st_p st1) a))
    as [[n2 st2]| |] eqn:E2;
    try (vm_compute in E1; injection E1 as _ <-; injection Ha as <-;
         vm_compute in E2; discriminate).
  assert (Hn2 : n2 = "sliceType$1").
  { vm_compute in E1. injection E1 as _ <-. injection Ha as <-.
    vm_compute in E2. now injection E2 as <- _. }
  exists st1, a, st2. rewrite <- Hn1, <- Hn2.
  split; [reflexivity|]. split; [apply (Hmemo int_slice _ _ _ eq_refl E1)|].
  split; [exact Ha|]. split; [exact E2|].
  assert (Hstart : chain_ok (0 + tsize string_slice + tsize int_slice)
                     (mkState (new_package_context false) inner_context)).
  { split.
    - split; [apply registry_room_empty; unfold string_slice, int_slice; cbn [tsize]; lia|]. split; discriminate.
    - cbn. split; [apply registry_room_empty; unfold string_slice, int_slice; cbn [tsize]; lia|].
      split; [intros name (t & o & Ht & _); discriminate|].
      split; [repeat constructor; intros k; lia|].
      split; [apply registry_room_empty; unfold string_slice, int_slice; cbn [tsize]; lia|].
      split; [intros name (t & o & Ht & _); discriminate|].
      split; [constructor|exact I]. }
  assert (Hroom : 0 <= 0 + tsize string_slice)
    by (unfold string_slice; cbn [tsize]; lia).
  pose proof (Hkeep int_slice (0 + tsize string_slice) _ _ _ Hroom Hstart E1) as H1.
  destruct (Hanc _ _ H1) as [_ Hparents].
  assert (Hin : a ∈ ancestors (st_c st1)) by (rewrite Ha; constructor).
  destruct (Hanc _ _ (Hparents a Hin)) as [Hok _].
  apply (Hdist int_slice string_slice 0
           (mkState (new_package_context false) inner_context) n1 st1 a n2 st2
           eq_refl eq_refl);
    [discriminate|lia|exact E1|exact Hok|exact E2].
Defined.

(** * Properties of the selector paths *)

(** For the struct that embeds a pointer to itself the inner loop of
    [translateSelection] has no last round. *)
Lemma follow_first_fields_T fuel :
  forall fields, follow_first_fields fuel T_front_end T_fields fields = OutOfFuel.
Proof.
  induction fuel as [|fuel IH]; intros fields; [reflexivity|].
  cbn [follow_first_fields]. 
  change (fieldName T_front_end T_fields 0) with (@Ok string "T"). cbn [obind].
  change (Field T_fields 0)
    with (@Ok (string * type * string) ("T", Pointer (Named T_object), EmptyString)).
  cbn [obind fst snd IsJsObject T_front_end Underlying underlyingOf].
  change (NumFields T_fields =? 0) with false. cbn iota. apply IH.
Qed.

(** C7, at the failing input.  For
    [type T struct { *T; x int `js:"x"` }] and the selection [t.x] the
    redirect through the first fields never reaches the interop object
    type, and [translateSelection] neither records an error nor returns:
    no number of rounds of its inner loop is enough. *)
Theorem translateSelection_self_embedding_diverges :
  forall fuel st,
    translateSelection fuel T_front_end T_selection 7 st = OutOfFuel.
Proof.
  intros fuel st. unfold translateSelection.
  cbn [sel_Recv sel_Index T_selection translateSelection_path Underlying
       underlyingOf T_front_end].
  unfold mbind at 1. change (Tag T_fields 1) with (@Ok string js_x).
  unfold lift at 1. cbn [obind fst snd].
  unfold mbind at 1.
  change (getJsTag {| underlyingOf := fun _ => Struct T_fields;
                      IsJsObject := fun _ => false;
                      reservedKeywords := fun _ => false;
                      Unquote := Unquote sample_front_end |} js_x)
    with (@Ok string "x").
  unfold lift at 1. cbn [obind fst snd].
  change (negb (bool_decide ("x" = EmptyString))) with true. cbn iota.
  unfold mbind at 1, lift at 1.
  change (Field T_fields 1)
    with (@Ok (string * type * string) ("x", Basic Int, js_x)).
  cbn [obind fst snd]. unfold mbind at 1, lift at 1.
  fold T_front_end. now rewrite follow_first_fields_T.
Qed.

Lemma field_at_Field s f :
  field_at s 0 = Some f -> Field s 0 = Ok f.
Proof.
  intros E. unfold Field. change (0 <? 0) with false.
  change (Z.to_nat 0) with 0%nat. cbn iota. now rewrite E.
Qed.

Lemma fieldName_Field fe s name :
  fieldName fe s 0 = Ok name -> exists f, field_at s 0 = Some f.
Proof.
  unfold fieldName, Field. change (0 <? 0) with false.
  change (Z.to_nat 0) with 0%nat. cbn iota.
  destruct (field_at s 0) as [f|]; [eauto|discriminate].
Qed.

(** One round of the inner loop of [translateSelection]. *)
Lemma follow_first_fields_step fe s name fuel fields :
  fieldName fe s 0 = Ok name ->
  follow_first_fields (S fuel) fe s fields =
    if first_is_js fe s then Ok (JsFound (fields ++ [name]))
    else
      match behind_first_field fe s with
      | Some s' => follow_first_fields fuel fe s' (fields ++ [name])
      | None => Ok JsMissing
      end.
Proof.
  intros En. destruct (fieldName_Field _ _ _ En) as [f Ef].
  cbn [follow_first_fields]. rewrite En. cbn [obind].
  rewrite (field_at_Field _ _ Ef). cbn [obind].
  unfold first_is_js, behind_first_field. rewrite Ef.
  destruct f as [[fname ft] ftag]. cbn [fst snd].
  destruct (IsJsObject fe ft); [reflexivity|].
  destruct (Underlying fe ft) as [| | | |elem| | |s0| | |]; try reflexivity.
  - destruct (Underlying fe elem) as [| | | | | | |s0| | |]; try reflexivity.
    now destruct (NumFields s0 =? 0).
  - now destruct (NumFields s0 =? 0).
Qed.

(** When the first fields lead to the interop object type, the inner loop
    ends and returns the accessors of the fields it went through. *)
Lemma follow_first_fields_found fe s names :
  leads_to_js fe s names ->
  forall fuel, (length names <= fuel)%nat ->
  forall fields,
    follow_first_fields fuel fe s fields = Ok (JsFound (fields ++ names)).
Proof.
  induction 1 as [s name En Ejs | s s' name names En Ejs Eb Hl IH];
    intros fuel Hfuel fields.
  - destruct fuel as [|fuel]; [cbn in Hfuel; lia|].
    rewrite (follow_first_fields_step _ _ _ _ _ En). now rewrite Ejs.
  - destruct fuel as [|fuel]; [cbn in Hfuel; lia|].
    rewrite (follow_first_fields_step _ _ _ _ _ En). rewrite Ejs, Eb.
    rewrite IH by (cbn in Hfuel; lia). now rewrite <- app_assoc.
Qed.

(** When the first fields end without reaching the interop object type,
    the inner loop ends and reports that. *)
Lemma follow_first_fields_missing fe s :
  leads_nowhere fe s ->
  exists n, forall fuel, (n <= fuel)%nat ->
  forall fields, follow_first_fields fuel fe s fields = Ok JsMissing.
Proof.
  induction 1 as [s name En Ejs Eb | s s' name En Ejs Eb Hl IH].
  - exists 1%nat. intros fuel Hfuel fields.
    destruct fuel as [|fuel]; [lia|].
    rewrite (follow_first_fields_step _ _ _ _ _ En). now rewrite Ejs, Eb.
  - destruct IH as [n IH]. exists (S n). intros fuel Hfuel fields.
    destruct fuel as [|fuel]; [lia|].
    rewrite (follow_first_fields_step _ _ _ _ _ En). rewrite Ejs, Eb.
    apply IH. lia.
Qed.

Lemma mbind_lift {A B : Type} (o : outcome A) (k : A -> M B) st :
  mbind (lift o) k st =
    match o with
    | Ok a => k a st
    | Panic msg => Panic msg
    | OutOfFuel => OutOfFuel
    end.
Proof. unfold mbind, lift. now destruct o. Qed.

(** The step of [translateSelection] at an index whose field has a
    [js] tag. *)
Lemma translateSelection_path_redirect fuel fe pos t s i rest fields tag jsTag f st :
  Underlying fe (match t with Pointer elem => elem | _ => t end) = Struct s ->
  Tag s i = Ok tag -> getJsTag fe tag = Ok jsTag -> jsTag <> EmptyString ->
  Field s i = Ok f ->
  translateSelection_path fuel fe pos t (i :: rest) fields st =
    match follow_first_fields fuel fe s fields with
    | Ok (JsFound fields') => Ok ((fields', jsTag), st)
    | Ok JsMissing =>
        Ok (([], EmptyString),
            mkState
              (set_errList
                 (errList (st_p st) ++
                  [mkError (fileSet (st_p st)) pos
                     (missing_js_field (fst (fst f))) true])
                 (st_p st))
              (st_c st))
    | Panic msg => Panic msg
    | OutOfFuel => OutOfFuel
    end.
Proof.
  intros Eu Et Ej Hne Ef. cbn [translateSelection_path]. rewrite Eu.
  rewrite mbind_lift, Et, mbind_lift, Ej.
  rewrite bool_decide_false by exact Hne. cbn [negb].
  rewrite mbind_lift, Ef, mbind_lift.
  destruct (follow_first_fields fuel fe s fields) as [[fs|]|msg|];
    reflexivity.
Qed.

(** The step of [translateSelection] at an index whose field has no
    [js] tag: the accessor of the field is appended and the path goes on
    from the type of the field. *)
Lemma translateSelection_path_plain fuel fe pos t s i rest fields tag name f st :
  Underlying fe (match t with Pointer elem => elem | _ => t end) = Struct s ->
  Tag s i = Ok tag -> getJsTag fe tag = Ok EmptyString ->
  fieldName fe s i = Ok name -> Field s i = Ok f ->
  translateSelection_path fuel fe pos t (i :: rest) fields st =
    translateSelection_path fuel fe pos (snd (fst f)) rest (fields ++ [name]) st.
Proof.
  intros Eu Et Ej En Ef. cbn [translateSelection_path]. rewrite Eu.
  rewrite mbind_lift, Et, mbind_lift, Ej.
  rewrite bool_decide_true by reflexivity. cbn [negb].
  now rewrite mbind_lift, En, mbind_lift, Ef.
Qed.

Lemma Field_Tag s i f : Field s i = Ok f -> Tag s i = Ok (snd f).
Proof.
  intros Ef. unfold Tag. rewrite Ef. cbn [obind].
  destruct (i <? NumFields s) eqn:E; [reflexivity|].
  exfalso. unfold Field in Ef. destruct (i <? 0) eqn:E0; [discriminate|].
  apply Z.ltb_ge in E, E0.
  destruct (field_at s (Z.to_nat i)) eqn:Ea; [|discriminate].
  assert (Hlen : forall fs n x, field_at fs n = Some x -> Z.of_nat n < NumFields fs).
  { clear. induction fs as [|name t tag fs IH]; intros n x Hx; [discriminate|].
    destruct n as [|n]; cbn [field_at NumFields] in *.
    - assert (0 <= NumFields fs) by (clear; induction fs; cbn [NumFields]; lia). lia.
    - specialize (IH _ _ Hx). lia. }
  specialize (Hlen _ _ _ Ea). lia.
Qed.

(** X1.  When the loop of [translateSelection] stands at a field with a
    [js] tag and the first fields of the struct end without reaching the
    interop object type, the inner loop ends, exactly one soft error with
    the position and the name of the field is appended to the error list
    of the package context, nothing else changes, and the result is the
    nil chain and the empty tag. *)
Theorem translateSelection_js_field_missing fe pos t s i rest fields jsFieldName jsTag :
  at_js_field fe t s i jsFieldName jsTag ->
  leads_nowhere fe s ->
  exists n, forall fuel, (n <= fuel)%nat -> forall st,
    translateSelection_path fuel fe pos t (i :: rest) fields st =
      Ok (([], EmptyString), with_missing_js_field pos jsFieldName st).
Proof.
  intros (Eu & (f & Ef & En & Ej) & Hne) Hl.
  destruct (follow_first_fields_missing _ _ Hl) as [n Hn].
  exists n. intros fuel Hfuel st.
  rewrite (translateSelection_path_redirect fuel fe pos t s i rest fields
             (snd f) jsTag f st Eu (Field_Tag _ _ _ Ef) Ej Hne Ef).
  rewrite (Hn fuel Hfuel). now rewrite En.
Qed.

Lemma translateSelection_js_field_missing_witness :
  exists n, forall fuel, (n <= fuel)%nat -> forall st,
    translateSelection fuel sample_front_end
      (mkSelection (Struct inner_fields) [1]) 7 st =
      Ok (([], EmptyString), with_missing_js_field 7 "x" st).
Proof.
  apply (translateSelection_js_field_missing sample_front_end 7
           (Struct inner_fields) inner_fields 1 [] [] "x" "x").
  - split; [reflexivity|]. split; [|discriminate].
    exists ("x", Basic Int, js_x). repeat split; vm_compute; reflexivity.
  - eapply nowhere_on with (name := "Inner"); [reflexivity..|].
    eapply nowhere_here with (name := "a"); reflexivity.
Defined.

(** X2.  When the loop of [translateSelection] stands at a field with a
    [js] tag and the first fields of the struct lead to a field of the interop
    object type, the result is the chain collected so far followed by the
    accessors of those first fields, together with the value of the tag;
    the state is left as it was. *)
Theorem translateSelection_js_field_found fe pos t s i rest fields jsFieldName jsTag names :
  at_js_field fe t s i jsFieldName jsTag ->
  leads_to_js fe s names ->
  forall fuel, (length names <= fuel)%nat -> forall st,
    translateSelection_path fuel fe pos t (i :: rest) fields st =
      Ok ((fields ++ names, jsTag), st).
Proof.
  intros (Eu & (f & Ef & En & Ej) & Hne) Hl fuel Hfuel st.
  rewrite (translateSelection_path_redirect fuel fe pos t s i rest fields
             (snd f) jsTag f st Eu (Field_Tag _ _ _ Ef) Ej Hne Ef).
  now rewrite (follow_first_fields_found _ _ _ Hl fuel Hfuel).
Qed.

Lemma translateSelection_js_field_found_witness :
  translateSelection 1 interop_front_end
    (mkSelection (Pointer (Struct wrapper_fields)) [1]) 7 (new_state false) =
    Ok ((["Object"], "x"), new_state false).
Proof.
  apply (translateSelection_js_field_found interop_front_end 7
           (Pointer (Struct wrapper_fields)) wrapper_fields 1 [] [] "x" "x"
           ["Object"]).
  - split; [reflexivity|]. split; [|discriminate].
    exists ("x", Basic Int, js_x). repeat split; vm_compute; reflexivity.
  - apply leads_here; reflexivity.
  - cbn. lia.
Defined.

(** * Properties of the call arguments *)

Lemma mbind_ok {A B : Type} (m : M A) (k : A -> M B) st a st' :
  m st = Ok (a, st') -> mbind m k st = k a st'.
Proof. intros E. unfold mbind. now rewrite E. Qed.

(** [Printf] at an indentation that is not negative. *)
Lemma Printf_spec text st :
  0 <= indentation (st_p st) ->
  Printf text st = Ok (tt, after_Printf text st).
Proof.
  intros Hi. unfold Printf, mbind at 1, get_p. cbn [obind fst snd].
  unfold tabs. destruct (indentation (st_p st) <? 0) eqn:E;
    [apply Z.ltb_lt in E; lia|]. cbn [obind].
  unfold mbind, on_c, get_c, modify_c. cbn [obind fst snd st_c st_p].
  rewrite !Write_spec. cbn [obind fst snd st_c st_p].
  rewrite !Write_spec. cbn [obind fst snd st_c st_p].
  rewrite !Write_spec. cbn [obind fst snd st_c st_p].
  unfold after_Printf, pending_marker, pending_pos.
  destruct st as [p c]. destruct c as [par av lv out del pa ps bl].
  cbn [st_c st_p]. destruct pa; cbn; rewrite ?Write_spec; cbn;
    repeat (rewrite <- ?app_assoc; cbn [app]); reflexivity.
Qed.

(** One blocking argument after the first sets [preserveOrder]. *)
Lemma preserveOrder_of_blocking blocking argExprs b :
  b ∈ tail argExprs -> b ∈ blocking -> preserveOrder_of blocking argExprs = true.
Proof.
  unfold preserveOrder_of. generalize (tail argExprs) as l. intros l Hb Hbl.
  assert (Hacc : forall l', fold_left
            (fun po e => po || bool_decide (e ∈ blocking)) l' true = true).
  { induction l' as [|x l' IH]; [reflexivity|exact IH]. }
  generalize false as acc. induction l as [|x l IH]; intros acc.
  - inversion Hb.
  - cbn [fold_left]. apply elem_of_cons in Hb as [<-|Hb].
    + rewrite (bool_decide_true _ Hbl), orb_true_r. apply Hacc.
    + now apply IH.
Qed.

(** Only a single argument is looked at for a tuple. *)
Lemma expand_tuple_many tr argExprs st :
  length argExprs <> 1%nat -> expand_tuple tr argExprs st = Ok (argExprs, st).
Proof.
  destruct argExprs as [|a [|b l]]; cbn; intros H; try reflexivity. congruence.
Qed.

Lemma mbind_run {A B : Type} (m : M A) (k : A -> M B) st :
  mbind m k st =
    match m st with
    | Ok r => k (fst r) (snd r)
    | Panic msg => Panic msg
    | OutOfFuel => OutOfFuel
    end.
Proof. unfold mbind. now destruct (m st). Qed.

(** The loop on the arguments [before ++ rest] is the loop on [before]
    followed by the loop on [rest]. *)
Lemma translateArgs_loop_app tr params varargElem clone po before rest :
  forall i st,
    translateArgs_loop tr params varargElem clone po (before ++ rest) i st =
      match translateArgs_loop tr params varargElem clone po before i st with
      | Ok (args, st') =>
          match translateArgs_loop tr params varargElem clone po rest
                  (i + Z.of_nat (length before)) st' with
          | Ok (args', st'') => Ok (args ++ args', st'')
          | Panic msg => Panic msg
          | OutOfFuel => OutOfFuel
          end
      | Panic msg => Panic msg
      | OutOfFuel => OutOfFuel
      end.
Proof.
  induction before as [|e before IH]; intros i st.
  - cbn [app translateArgs_loop length]. unfold ret at 1.
    replace (i + Z.of_nat 0) with i by lia.
    now destruct (translateArgs_loop tr params varargElem clone po rest i st)
      as [[args' st'']| |].
  - cbn [app translateArgs_loop length]. rewrite !mbind_lift.
    destruct (argType_at params varargElem i) as [argType|msg|]; try reflexivity.
    rewrite !mbind_run.
    destruct (convert tr clone e argType st) as [[arg st1]|msg|];
      cbn [fst snd]; try reflexivity.
    rewrite !mbind_run. unfold get_p at 1 2. cbn [fst snd].
    rewrite !mbind_run.
    destruct ((if po && negb (has_value (st_p st1) e)
               then assign_to_temporary arg else ret arg) st1)
      as [[arg' st2]|msg|]; cbn [fst snd]; try reflexivity.
    rewrite !mbind_run. rewrite IH.
    replace (i + Z.of_nat (S (length before)))
      with (i + 1 + Z.of_nat (length before)) by lia.
    destruct (translateArgs_loop tr params varargElem clone po before (i + 1) st2)
      as [[args st3]|msg|]; cbn [fst snd]; try reflexivity.
    + unfold ret. cbn [fst snd].
      destruct (translateArgs_loop tr params varargElem clone po rest
                  (i + 1 + Z.of_nat (length before)) st3)
        as [[args' st4]|msg|]; reflexivity.
Qed.

(** An allocation of a local name declares the name and leaves the
    output as it is. *)
Lemma newVariable_local name st v st' :
  newVariable name st = Ok (v, st') ->
  localVars (st_c st') = localVars (st_c st) ++ [v]
  /\ output (st_c st') = output (st_c st)
  /\ delayedOutput (st_c st') = delayedOutput (st_c st)
  /\ posAvailable (st_c st') = posAvailable (st_c st)
  /\ pos (st_c st') = pos (st_c st)
  /\ Blocking (st_c st') = Blocking (st_c st)
  /\ st_p st' = st_p st.
Proof.
  unfold newVariable, newVariableWithLevel.
  destruct (decide (name = EmptyString)); [discriminate|].
  destruct (if minify (st_p st) then _ else _) as [w|msg|]; cbn [obind];
    try discriminate.
  intros E. injection E as <- <-. destruct st as [p c]. destruct c.
  cbn. repeat split.
Qed.

(** The assignment to a temporary, on a registry with room for one more
    name and at an indentation that is not negative: the variable is new,
    it is declared, and the assignment is printed at the end of the
    output. *)
Lemma assign_to_temporary_spec arg st :
  0 <= indentation (st_p st) -> registry_room 1 (allVars (st_c st)) ->
  exists argVar st',
    assign_to_temporary arg st = Ok (argVar, st')
    /\ ~ issued (allVars (st_c st)) argVar
    /\ issued (allVars (st_c st')) argVar
    /\ (minify (st_p st) = false ->
        argVar = display_name "_arg" (count_of (allVars (st_c st)) "_arg"))
    /\ localVars (st_c st') = localVars (st_c st) ++ [argVar]
    /\ output (st_c st')
       = output (st_c st) ++ pending_marker (st_c st)
         ++ repeat tab (Z.to_nat (indentation (st_p st)))
         ++ bytes_of (argVar +:+ " = " +:+ arg +:+ ";") ++ [newline]
         ++ delayedOutput (st_c st).
Proof.
  intros Hi Hreg.
  destruct (newVariableWithLevel_total "_arg" false ltac:(discriminate) st)
    as (v & st1 & E1).
  pose proof (newVariableWithLevel_shape "_arg" false st v st1 0 ltac:(lia) Hreg E1)
    as (b & Hb & Hv & Hvars & Hp).
  pose proof (registry_room_counts _ _ Hreg) as Hok.
  destruct (newVariable_local _ _ _ _ E1) as (Hl & Ho & Hd & Hpa & Hps & _ & _).
  exists v, (after_Printf (v +:+ " = " +:+ arg +:+ ";") st1).
  assert (Hi1 : 0 <= indentation (st_p st1)) by now rewrite Hp.
  split; [|split; [|split; [|split; [|split]]]].
  - unfold assign_to_temporary, newVariable. rewrite (mbind_ok _ _ _ _ _ E1).
    unfold mbind. rewrite (Printf_spec _ _ Hi1). reflexivity.
  - rewrite Hv. now apply display_name_fresh.
  - unfold after_Printf. cbn [st_c].
    replace (allVars _) with (allVars (st_c st1))
      by (destruct (st_c st1); reflexivity).
    rewrite Hvars, Hv. now apply issued_new.
  - intros Hm.
    pose proof (registry_room_count _ _ (base_name "_arg") Hreg) as Hc.
    destruct (newVariableWithLevel_plain "_arg" false st Hm ltac:(discriminate)
                ltac:(lia)) as (st2 & E2 & _).
    rewrite E1 in E2. now injection E2 as -> _.
  - unfold after_Printf. cbn [st_c]. rewrite <- Hl.
    destruct (st_c st1); reflexivity.
  - unfold after_Printf. cbn [st_c].
    replace (output _) with
      (output (st_c st1) ++ pending_marker (st_c st1)
       ++ repeat tab (Z.to_nat (indentation (st_p st1)))
       ++ bytes_of (v +:+ " = " +:+ arg +:+ ";") ++ [newline] ++ delayedOutput (st_c st1))
      by (destruct (st_c st1); reflexivity).
    rewrite Ho, Hd, Hp. f_equal. f_equal.
    unfold pending_marker, pending_pos. now rewrite Hpa, Hps.
Qed.

(** C6.  Let some argument after the first be marked blocking when
    [translateArgs] starts, let the arguments before the argument [e] have
    been translated, and let [e], converted to the string [value], have
    no constant value.  Then, on a registry with room for one more name
    and at an indentation that is not negative, [value] is assigned to a
    temporary of its own: the variable [argVar] that [newVariable] returns
    for [_arg] ([_arg], or [_arg$n] at the [n]-th repetition, in plain
    mode) was not handed out before and is declared as a local variable,
    the line that consists of [argVar], the text [ = ], [value] and a
    semicolon is printed at the end of the output, and [argVar] takes the
    place of the argument.  All that [translateArgs] does for the later
    arguments, the call of their translators included, starts from the
    state [st4] reached then, so what it prints for them comes after that
    line. *)
Theorem translateArgs_preserves_order tr fe params variadic ellipsis clone
    before e later b varargElem args_before argType value st st2 st3 :
  b ∈ tail (before ++ e :: later) -> b ∈ Blocking (st_c st) ->
  varargType_of params variadic ellipsis = Ok varargElem ->
  translateArgs_loop tr params varargElem clone true before 0 st
    = Ok (args_before, st2) ->
  argType_at params varargElem (Z.of_nat (length before)) = Ok argType ->
  convert tr clone e argType st2 = Ok (value, st3) ->
  has_value (st_p st3) e = false ->
  0 <= indentation (st_p st3) -> registry_room 1 (allVars (st_c st3)) ->
  exists argVar st4,
    assign_to_temporary value st3 = Ok (argVar, st4)
    /\ ~ issued (allVars (st_c st3)) argVar
    /\ (minify (st_p st3) = false ->
        argVar = display_name "_arg" (count_of (allVars (st_c st3)) "_arg"))
    /\ localVars (st_c st4) = localVars (st_c st3) ++ [argVar]
    /\ output (st_c st4)
       = output (st_c st3) ++ pending_marker (st_c st3)
         ++ repeat tab (Z.to_nat (indentation (st_p st3)))
         ++ bytes_of (argVar +:+ " = " +:+ value +:+ ";") ++ [newline]
         ++ delayedOutput (st_c st3)
    /\ translateArgs tr fe params variadic (before ++ e :: later) ellipsis clone st
       = translate_later tr fe params varargElem clone (args_before ++ [argVar])
           later (Z.of_nat (length before) + 1) st4.
Proof.
  intros Hb Hbl Hv Hbefore Ht Hconv Hconst Hi Hreg.
  destruct (assign_to_temporary_spec value st3 Hi Hreg)
    as (argVar & st4 & Ea & Hfresh & _ & Hplain & Hl & Ho).
  exists argVar, st4. repeat (split; [assumption|]).
  assert (Hlen : length (before ++ e :: later) <> 1%nat).
  { destruct (before ++ e :: later) as [|x [|y l]]; cbn in Hb |- *;
      [inversion Hb|inversion Hb|discriminate]. }
  unfold translateArgs. rewrite mbind_run, (expand_tuple_many _ _ _ Hlen).
  cbn [fst snd]. rewrite mbind_lift, Hv. rewrite mbind_run. unfold get_c at 1.
  cbn [fst snd]. rewrite (preserveOrder_of_blocking _ _ b Hb Hbl).
  rewrite mbind_run, translateArgs_loop_app, Hbefore.
  cbn [translateArgs_loop]. rewrite mbind_lift.
  replace (0 + Z.of_nat (length before)) with (Z.of_nat (length before)) by lia.
  rewrite Ht.
  rewrite mbind_run, Hconv. cbn [fst snd].
  rewrite mbind_run. unfold get_p at 1. cbn [fst snd]. rewrite Hconst.
  cbn [andb negb]. rewrite mbind_run, Ea. cbn [fst snd].
  unfold translate_later. rewrite !mbind_run.
  destruct (translateArgs_loop tr params varargElem clone true later
              (Z.of_nat (length before) + 1) st4) as [[args st5]|msg|];
    try reflexivity.
  unfold ret. cbn [fst snd]. now rewrite <- app_assoc.
Qed.

Lemma translateArgs_witness :
  exists st4 st5,
    assign_to_temporary "x0" blocking_state = Ok ("_arg", st4)
    /\ output (st_c st4) = bytes_of "_arg = x0;" ++ [newline]
    /\ translateArgs sample_translators sample_front_end three_ints false
         [SourceExpr 0; SourceExpr 1; SourceExpr 2] false false blocking_state
       = translate_later sample_translators sample_front_end three_ints None false
           ["_arg"] [SourceExpr 1; SourceExpr 2] 1 st4
    /\ translateArgs sample_translators sample_front_end three_ints false
         [SourceExpr 0; SourceExpr 1; SourceExpr 2] false false blocking_state
       = Ok (["_arg"; "_arg$1"; "x2"], st5)
    /\ output (st_c st5)
       = bytes_of "_arg = x0;" ++ [newline] ++ bytes_of "$r = f();" ++ [newline]
         ++ bytes_of "_arg$1 = $r;" ++ [newline].
Proof.
  destruct (translateArgs_preserves_order sample_translators sample_front_end
              three_ints false false false [] (SourceExpr 0)
              [SourceExpr 1; SourceExpr 2] (SourceExpr 1) None [] (Basic Int) "x0"
              blocking_state blocking_state blocking_state)
    as (argVar & st4 & Ea & _ & Hplain & _ & Ho & Et).
  - cbn. constructor.
  - cbn. constructor.
  - reflexivity.
  - reflexivity.
  - reflexivity.
  - reflexivity.
  - reflexivity.
  - cbn. lia.
  - apply registry_room_empty. lia.
  - assert (Hv : argVar = "_arg") by (apply Hplain; reflexivity). subst argVar.
    vm_compute in Ea. injection Ea as <-.
    eexists _, _. split; [vm_compute; reflexivity|].
    split; [vm_compute; reflexivity|]. split; [exact Et|].
    split; vm_compute; reflexivity.
Defined.

(** * Further properties of the code *)

(** X3.  The minifier never makes its input longer: the output of
    [removeWhitespace] has at most as many bytes as the input. *)
Theorem removeWhitespace_never_longer (b out : list byte) (minify : bool) :
  removeWhitespace b minify = Ok out -> (length out <= length b)%nat.
Proof.
  unfold removeWhitespace. destruct minify; cbn [negb].
  - intros H. apply scan_loop_length in H. unfold scan_start in H.
    cbn [sc_out sc_rest length] in H. lia.
  - intros [= <-]. lia.
Qed.

Lemma removeWhitespace_never_longer_witness :
  removeWhitespace sample_js true = Ok sample_min
  /\ (length sample_min <= length sample_js)%nat.
Proof.
  split; [reflexivity|].
  apply (removeWhitespace_never_longer sample_js sample_min true). reflexivity.
Defined.

(** X4.  The main loop of [removeWhitespace] ends: every round takes at
    least one byte off the input, so after at most [len(b)] rounds the
    function has returned or has panicked. *)
Theorem removeWhitespace_loop_ends (b : list byte) (minify : bool) :
  (exists out, removeWhitespace b minify = Ok out)
  \/ (exists msg, removeWhitespace b minify = Panic msg).
Proof.
  pose proof (removeWhitespace_total b minify) as H.
  destruct (removeWhitespace b minify) as [out|msg|]; [eauto..|congruence].
Qed.

(** X5.  [typeName] returns a name for every well-formed type: it does
    not panic, and the search for a free minified name ends. *)
Theorem typeName_returns (fe : FrontEnd) (ty : type) (st : state) :
  wf_type ty -> exists name st', typeName fe ty st = Ok (name, st').
Proof. intros H. exact (typeName_total fe ty H st). Qed.

Lemma typeName_returns_witness :
  exists name st',
    typeName sample_front_end slice_map (new_state true) = Ok (name, st').
Proof. apply (typeName_returns sample_front_end slice_map). cbn. auto. Defined.

(** X6.  [newVariableWithLevel] panics for the empty name and for no
    other: for every other name it returns a variable name, in plain and
    in minified mode, whatever the registry holds. *)
Theorem newVariableWithLevel_panics_on_empty_name_only
    (name : string) (pkgLevel : bool) (st : state) :
  (name = EmptyString
   /\ newVariableWithLevel name pkgLevel st = Panic "newVariable: empty name")
  \/ (name <> EmptyString
      /\ exists v st', newVariableWithLevel name pkgLevel st = Ok (v, st')).
Proof.
  destruct (decide (name = EmptyString)) as [->|Hne].
  - left. split; reflexivity.
  - right. split; [exact Hne|]. exact (newVariableWithLevel_total name pkgLevel Hne st).
Qed.

Lemma only_letters_head offset v :
  v <> EmptyString -> only_letters offset v = true ->
  exists a rest, v = String a rest
    /\ offset <= Z.of_N (N_of_ascii a) < offset + 26.
Proof.
  destruct v as [|a rest]; [congruence|]. intros _ H. cbn [only_letters] in H.
  apply andb_true_iff in H as [H _]. apply andb_true_iff in H as [H1 H2].
  apply Z.leb_le in H1. apply Z.ltb_lt in H2. eauto.
Qed.

(** X7.  The minified names are a bijective numbering: every counter
    value from 0 on has a name, which is not empty and consists of the 26
    letters of its level; two counter values with the same name are
    equal; and no local name is a package-level name. *)
Theorem minified_name_bijective :
  (forall pkgLevel i, 0 <= i ->
     exists v, minified_name pkgLevel i = Ok v /\ v <> EmptyString
               /\ only_letters (level_offset pkgLevel) v = true)
  /\ (forall pkgLevel i j v, 0 <= i -> 0 <= j ->
        minified_name pkgLevel i = Ok v -> minified_name pkgLevel j = Ok v -> i = j)
  /\ (forall i j v w, 0 <= i -> 0 <= j ->
        minified_name false i = Ok v -> minified_name true j = Ok w -> v <> w).
Proof.
  split; [|split].
  - intros pkgLevel i Hi. destruct (minified_name_total pkgLevel i Hi) as (v & E & Hne).
    exists v. split; [exact E|]. split; [exact Hne|].
    now apply (minified_name_letters pkgLevel i).
  - intros pkgLevel i j v. apply minified_name_inj.
  - intros i j v w Hi Hj Ev Ew Heq. subst w.
    destruct (minified_name_total false i Hi) as (v' & E' & Hne).
    rewrite Ev in E'. injection E' as <-.
    pose proof (minified_name_letters false i v Hi Ev) as Hl.
    pose proof (minified_name_letters true j v Hj Ew) as Hu.
    destruct (only_letters_head _ v Hne Hl) as (a & rest & -> & Ha).
    destruct (only_letters_head _ _ Hne Hu) as (a' & rest' & Heq & Ha').
    injection Heq as <- _. cbn [level_offset] in *. lia.
Qed.

(** X8.  [Printf] at an indentation that is not negative appends to the
    output the marker of a pending position, one tab for each level of
    indentation, the text, a newline and the delayed output, and leaves
    no position pending and no output delayed; at a negative indentation
    it panics in [strings.Repeat] before anything is written. *)
Theorem Printf_line (text : string) (st : state) :
  (0 <= indentation (st_p st) /\ Printf text st = Ok (tt, after_Printf text st))
  \/ (indentation (st_p st) < 0
      /\ Printf text st = Panic "strings: negative Repeat count").
Proof.
  destruct (Z_lt_le_dec (indentation (st_p st)) 0) as [Hneg|Hpos].
  - right. split; [exact Hneg|]. unfold Printf, mbind at 1, get_p.
    cbn [obind fst snd]. unfold tabs.
    destruct (indentation (st_p st) <? 0) eqn:E; [reflexivity|].
    apply Z.ltb_ge in E. lia.
  - left. split; [exact Hpos|]. now apply Printf_spec.
Qed.

Lemma wrap64_back i : in_int64 i -> wrap64 (wrap64 (i + 1) - 1) = i.
Proof.
  unfold in_int64, wrap64. intros H.
  destruct (Z.eq_dec i (2 ^ 63 - 1)) as [->|Hne]; [reflexivity|].
  rewrite (Z.mod_small (i + 1 + 2 ^ 63)) by lia.
  replace (i + 1 + 2 ^ 63 - 2 ^ 63 - 1 + 2 ^ 63) with (i + 2 ^ 63) by lia.
  rewrite Z.mod_small by lia. lia.
Qed.

(** X9.  [Indent] runs its callback one level deeper and restores the
    indentation: when the callback returns with the indentation it was
    entered with, the indentation after [Indent] is the one before it,
    also when the increment wraps around, and the rest of the state is
    what the callback left. *)
Theorem Indent_restores (f : M unit) (st st2 : state) :
  in_int64 (indentation (st_p st)) ->
  f (mkState (set_indentation (wrap64 (indentation (st_p st) + 1)) (st_p st)) (st_c st))
    = Ok (tt, st2) ->
  indentation (st_p st2) = wrap64 (indentation (st_p st) + 1) ->
  Indent f st
    = Ok (tt, mkState (set_indentation (indentation (st_p st)) (st_p st2)) (st_c st2)).
Proof.
  intros Hin Hf Hi. unfold Indent. unfold mbind at 1, modify_p at 1.
  cbn [obind fst snd st_p st_c]. unfold mbind at 1. rewrite Hf.
  cbn [obind fst snd]. unfold modify_p. rewrite Hi, wrap64_back by exact Hin.
  reflexivity.
Qed.

Lemma Indent_restores_witness :
  Indent (Printf "x") (new_state false)
  = Ok (tt, mkState (set_indentation 0
                       (st_p (after_Printf "x"
                                (mkState (set_indentation 1 (new_package_context false))
                                   new_function_context))))
              (st_c (after_Printf "x"
                       (mkState (set_indentation 1 (new_package_context false))
                          new_function_context)))).
Proof.
  apply (Indent_restores (Printf "x") (new_state false)
           (after_Printf "x"
              (mkState (set_indentation 1 (new_package_context false))
                 new_function_context))).
  - unfold in_int64. cbn. lia.
  - reflexivity.
  - reflexivity.
Defined.

(** X10.  [newIdent] registers what it makes: the new identifier has the
    type given and no constant value in [Types], [Uses] maps it to a new
    variable object of this package with the name given, and
    [objectNames] maps that object to the name. *)
Theorem newIdent_registered (name : string) (t : type) (st : state) :
  exists ident obj st',
    newIdent name t st = Ok (ident, st')
    /\ assoc_get ident (Types (st_p st')) = Some (mkTypeAndValue (Some t) false)
    /\ has_value (st_p st') ident = false
    /\ assoc_get ident (Uses (st_p st')) = Some obj
    /\ assoc_get obj (objectNames (st_p st')) = Some name
    /\ obj_name obj = name /\ obj_class obj = VarObj
    /\ obj_pkg obj = Some (Pkg (st_p st))
    /\ st_c st' = st_c st.
Proof.
  destruct st as [p c]. destruct p.
  unfold newIdent, setType, mbind, get_p, modify_p, ret. cbn.
  eexists _, _, _. split; [reflexivity|]. unfold has_value. cbn.
  rewrite !assoc_get_set.
  rewrite !decide_True by reflexivity. repeat split; reflexivity.
Qed.

Lemma set_dependencies_present o p :
  o ∈ dependencies p -> set_dependencies (set_add o (dependencies p)) p = p.
Proof. intros H. rewrite (set_add_present o _ H). now destruct p. Qed.

Lemma newVariableWithLevel_package name pkgLevel st v st' :
  newVariableWithLevel name pkgLevel st = Ok (v, st') -> st_p st' = st_p st.
Proof.
  unfold newVariableWithLevel. destruct (decide (name = EmptyString)); [discriminate|].
  destruct (if minify (st_p st) then _ else _); cbn [obind]; try discriminate.
  destruct pkgLevel; intros [= _ <-]; reflexivity.
Qed.

(** X11.  [varPtrName] is memoized: a second call for the same variable
    returns the name of the first and changes nothing. *)
Theorem varPtrName_memoized (v : Object) (st st1 : state) (name : string) :
  varPtrName v st = Ok (name, st1) -> varPtrName v st1 = Ok (name, st1).
Proof.
  unfold varPtrName. rewrite !mbind_run. unfold get_p at 1 3. cbn [fst snd].
  destruct (assoc_get v (varPtrNames (st_p st))) as [known|] eqn:Hk.
  - intros [= <- <-]. now rewrite Hk.
  - rewrite mbind_run. unfold get_p at 1. cbn [fst snd id]. rewrite mbind_run.
    destruct (newVariableWithLevel _ _ st) as [[n s]|msg|] eqn:Ev; try discriminate.
    cbn [fst snd]. rewrite mbind_run. unfold modify_p at 1. cbn [fst snd].
    intros [= <- <-]. cbn [st_p]. destruct (st_p s); cbn.
    rewrite assoc_get_set, decide_True by reflexivity. reflexivity.
Qed.

Lemma varPtrName_memoized_witness :
  exists st1,
    varPtrName T_object (new_state false) = Ok ("T_ptr", st1)
    /\ varPtrName T_object st1 = Ok ("T_ptr", st1).
Proof.
  destruct (varPtrName T_object (new_state false)) as [[n st1]| |] eqn:E;
    try (vm_compute in E; discriminate).
  assert (n = "T_ptr") as -> by (vm_compute in E; now injection E as <- _).
  exists st1. split; [reflexivity|].
  exact (varPtrName_memoized T_object (new_state false) st1 "T_ptr" E).
Defined.

Lemma objectName_foreign o s :
  foreign (st_p s) o = true -> o ∈ dependencies (st_p s) ->
  objectName o s
  = match package_path o with
    | Ok path =>
        Ok (match pkgVars (st_p s) !! path with
            | Some v => v
            | None => "$packages[" +:+ dq +:+ path +:+ dq +:+ "]"
            end +:+ "." +:+ obj_name o, s)
    | Panic msg => Panic msg
    | OutOfFuel => OutOfFuel
    end.
Proof.
  intros Hf Hd. unfold objectName. rewrite mbind_run. unfold get_p at 1.
  cbn [fst snd id]. rewrite Hf. cbn [orb]. rewrite mbind_run.
  unfold modify_p. cbn [fst snd]. rewrite (set_dependencies_present o _ Hd).
  rewrite mbind_lift. destruct s as [p c]. cbn [st_p st_c].
  now destruct (package_path o).
Qed.

Lemma objectName_exported o s :
  foreign (st_p s) o = false ->
  is_var_or_const o && obj_exported o && at_package_scope (st_p s) o = true ->
  o ∈ dependencies (st_p s) ->
  objectName o s = Ok ("$pkg." +:+ obj_name o, s).
Proof.
  intros Hf He Hd. unfold objectName. rewrite mbind_run. unfold get_p at 1.
  cbn [fst snd id]. rewrite Hf, He. cbn [orb].
  apply andb_true_iff in He as [_ Hs]. rewrite Hs. rewrite mbind_run.
  unfold modify_p. cbn [fst snd]. rewrite (set_dependencies_present o _ Hd).
  now destruct s.
Qed.

Lemma objectName_known o s n0 :
  foreign (st_p s) o = false ->
  is_var_or_const o && obj_exported o && at_package_scope (st_p s) o = false ->
  (at_package_scope (st_p s) o = true -> o ∈ dependencies (st_p s)) ->
  assoc_get o (objectNames (st_p s)) = Some n0 ->
  objectName o s
  = Ok (if is_var o && bool_decide (o ∈ escapingVars (st_p s))
        then n0 +:+ "[0]" else n0, s).
Proof.
  intros Hf He Hd Hk. unfold objectName. rewrite mbind_run. unfold get_p at 1.
  cbn [fst snd id]. rewrite Hf, He. cbn [orb]. rewrite mbind_run.
  assert (Hstep : (if at_package_scope (st_p s) o
                   then modify_p (fun p => set_dependencies (set_add o (dependencies p)) p)
                   else ret tt) s = Ok (tt, s)).
  { destruct (at_package_scope (st_p s) o); [|reflexivity].
    unfold modify_p. rewrite (set_dependencies_present o _ (Hd eq_refl)).
    now destruct s. }
  rewrite Hstep. cbn [fst snd]. rewrite mbind_run. unfold get_p at 1.
  cbn [fst snd]. rewrite Hk. rewrite mbind_run. unfold ret at 1. cbn [fst snd].
  rewrite mbind_run. unfold get_p at 1. cbn [fst snd].
  now destruct (is_var o && bool_decide (o ∈ escapingVars (st_p s))).
Qed.

(** X12.  [objectName] is memoized: a second call for the same object
    returns the name of the first and changes nothing, neither the
    dependencies nor the registry. *)
Theorem objectName_memoized (o : Object) (st st1 : state) (name : string) :
  objectName o st = Ok (name, st1) -> objectName o st1 = Ok (name, st1).
Proof.
  intros E. unfold objectName in E.
  apply mbind_inv in E as (p & s0 & E0 & E). injection E0 as <- <-.
  apply mbind_inv in E as ([] & sA & EA & E). cbn [id] in *.
  assert (HA : Pkg (st_p sA) = Pkg (st_p st)
               /\ pkgVars (st_p sA) = pkgVars (st_p st)
               /\ (foreign (st_p st) o || at_package_scope (st_p st) o = true ->
                   o ∈ dependencies (st_p sA))).
  { destruct (foreign (st_p st) o || at_package_scope (st_p st) o).
    - injection EA as <-. cbn [st_p]. destruct (st_p st); cbn.
      repeat split. intros _. apply set_add_elem.
    - injection EA as <-. repeat split. discriminate. }
  destruct HA as (Hpkg & Hvars & Hdeps).
  assert (Hf1 : foreign (st_p sA) o = foreign (st_p st) o)
    by (unfold foreign; now rewrite Hpkg).
  assert (Hs1 : at_package_scope (st_p sA) o = at_package_scope (st_p st) o)
    by (unfold at_package_scope; now rewrite Hpkg).
  destruct (foreign (st_p st) o) eqn:Hf.
  - apply mbind_inv in E as (path & sB & EB & E).
    unfold lift in EB. destruct (package_path o) as [path'| |] eqn:Hpath;
      cbn [obind] in EB; try discriminate.
    injection EB as <- <-. unfold ret in E. injection E as <- <-.
    rewrite (objectName_foreign o sA Hf1 (Hdeps eq_refl)), Hpath, Hvars. reflexivity.
  - cbn [orb] in Hdeps.
    destruct (is_var_or_const o && obj_exported o && at_package_scope (st_p st) o) eqn:He.
    + unfold ret in E. injection E as <- <-. apply objectName_exported; [exact Hf1|now rewrite Hs1|].
      apply Hdeps. now apply andb_true_iff in He as [_ He].
    + apply mbind_inv in E as (known & sB & EB & E). injection EB as <- <-.
      apply mbind_inv in E as (n0 & sC & EC & E).
      apply mbind_inv in E as (escaping & sD & ED & E). injection ED as <- <-.
      assert (HC : Pkg (st_p sC) = Pkg (st_p sA)
                   /\ dependencies (st_p sC) = dependencies (st_p sA)
                   /\ escapingVars (st_p sC) = escapingVars (st_p sA)
                   /\ assoc_get o (objectNames (st_p sC)) = Some n0).
      { destruct (assoc_get o (objectNames (st_p sA))) as [k|] eqn:Hk.
        - unfold ret in EC. injection EC as <- <-. auto.
        - apply mbind_inv in EC as (n1 & s1 & E1 & EC).
          apply mbind_inv in EC as ([] & s2 & E2 & EC).
          unfold modify_p in E2. injection E2 as <-.
          unfold ret in EC. injection EC as <- <-.
          apply newVariableWithLevel_package in E1. cbn [st_p]. rewrite <- E1.
          destruct (st_p s1); cbn. repeat split.
          now rewrite assoc_get_set, decide_True by reflexivity. }
      destruct HC as (Hpkg2 & Hdeps2 & Hesc2 & Hknown).
      assert (Hres : name = (if is_var o && bool_decide (o ∈ escapingVars (st_p sC))
                             then n0 +:+ "[0]" else n0) /\ st1 = sC).
      { unfold ret in E.
        destruct (is_var o && bool_decide (o ∈ escapingVars (st_p sC)));
          injection E as <- <-; auto. }
      destruct Hres as [-> ->].
      apply objectName_known; [| | |exact Hknown].
      * unfold foreign. rewrite Hpkg2, Hpkg. exact Hf.
      * unfold at_package_scope. rewrite Hpkg2, Hpkg. exact He.
      * intros Hs. rewrite Hdeps2. apply Hdeps.
        unfold at_package_scope in Hs |- *. now rewrite Hpkg2, Hpkg in Hs.
Qed.

Lemma objectName_memoized_witness :
  exists st1,
    objectName T_object (new_state false) = Ok ("T", st1)
    /\ objectName T_object st1 = Ok ("T", st1).
Proof.
  destruct (objectName T_object (new_state false)) as [[n st1]| |] eqn:E;
    try (vm_compute in E; discriminate).
  assert (n = "T") as -> by (vm_compute in E; now injection E as <- _).
  exists st1. split; [reflexivity|].
  exact (objectName_memoized T_object (new_state false) st1 "T" E).
Defined.

(** X13.  [Delayed] followed by [Printf]: what the callback of [Delayed]
    writes, with the marker of a position it leaves pending, does not
    reach the output at once; the output stays as it was, and the next
    [Printf] appends its own line first and the delayed bytes after
    it. *)
Theorem Delayed_then_Printf (f : M unit) (text : string) (st st1 : state) :
  f (catch_entry 0 st) = Ok (tt, st1) ->
  0 <= indentation (st_p st1) < 2 ^ 63 ->
  exists st2 st3,
    Delayed f st = Ok (tt, st2)
    /\ output (st_c st2) = output (st_c st)
    /\ Printf text st2 = Ok (tt, st3)
    /\ output (st_c st3)
       = output (st_c st)
         ++ repeat tab (Z.to_nat (indentation (st_p st1)))
         ++ bytes_of text ++ [newline]
         ++ output (st_c st1) ++ pending_marker (st_c st1)
    /\ delayedOutput (st_c st3) = [].
Proof.
  intros Hf Hi.
  destruct (CatchOutput_spec 0 f st st1 Hf) as (st' & Ec & Hpa & Hout & Hind).
  rewrite Z.sub_0_r, wrap64_small in Hind by lia.
  eexists _, _. split; [|split; [|split; [|split]]].
  - unfold Delayed. rewrite mbind_run, Ec. cbn [fst snd]. reflexivity.
  - unfold modify_c. cbn [st_c]. destruct (st_c st'); exact Hout.
  - apply Printf_spec. unfold modify_c. cbn [st_p]. rewrite Hind. lia.
  - unfold after_Printf, modify_c. cbn [st_p st_c].
    replace (output _) with
      (output (st_c st') ++ pending_marker (st_c st')
       ++ repeat tab (Z.to_nat (indentation (st_p st')))
       ++ bytes_of text ++ [newline]
       ++ (output (st_c st1) ++ pending_marker (st_c st1)))
      by (destruct (st_c st') as [? ? ? ? ? [] ? ?]; reflexivity).
    rewrite Hout, Hind. unfold pending_marker at 1, pending_pos. rewrite Hpa.
    cbn [app]. reflexivity.
  - unfold after_Printf. cbn [st_c]. 
    match goal with |- delayedOutput (set_delayedOutput [] ?c) = [] =>
      destruct c; reflexivity end.
Qed.

Lemma Delayed_then_Printf_witness :
  exists st2 st3,
    Delayed (Printf "b") (new_state false) = Ok (tt, st2)
    /\ output (st_c st2) = []
    /\ Printf "a" st2 = Ok (tt, st3)
    /\ output (st_c st3) = bytes_of "a" ++ [newline] ++ bytes_of "b" ++ [newline]
    /\ delayedOutput (st_c st3) = [].
Proof.
  destruct (Delayed_then_Printf (Printf "b") "a" (new_state false)
              (after_Printf "b" (catch_entry 0 (new_state false))))
    as (st2 & st3 & E1 & H1 & E2 & H2 & H3).
  - reflexivity.
  - split; [apply Z.leb_le|apply Z.ltb_lt]; reflexivity.
  - exists st2, st3. repeat split; assumption.
Defined.

(** ** The comment of [PrintCond] and the minifier *)

Lemma bytes_of_app s t : bytes_of (s +:+ t) = bytes_of s ++ bytes_of t.
Proof.
  unfold bytes_of. induction s as [|a s IH]; [reflexivity|].
  rewrite string_app_cons. unfold list_byte_of_string in *.
  cbn [list_ascii_of_string map app]. now rewrite IH.
Qed.

Lemma bytes_of_cons a s : bytes_of (String a s) = byte_of_ascii a :: bytes_of s.
Proof. reflexivity. Qed.

Lemma Index_close_cons c l :
  Index (c :: l) comment_close
  = if is_star c && starts_with_slash l then 0
    else if Index l comment_close =? -1 then -1 else Index l comment_close + 1.
Proof.
  cbn [Index]. unfold comment_close at 1. cbn [has_prefix].
  assert (Hc : Byte.eqb "042" c = is_star c) by (destruct c; reflexivity).
  rewrite Hc. destruct l as [|d l]; cbn [starts_with_slash].
  - rewrite andb_false_r. reflexivity.
  - assert (Hd : Byte.eqb "047" d = is_slash d) by (destruct d; reflexivity).
    rewrite Hd, andb_true_r. reflexivity.
Qed.

Lemma Index_close_bounds l : -1 <= Index l comment_close.
Proof.
  destruct (Index_range l comment_close) as [->|(n & ->)]; lia.
Qed.

Lemma Index_no_star pre l :
  Forall (fun c => is_star c = false) pre ->
  Index (pre ++ l) comment_close
  = if Index l comment_close =? -1 then -1
    else Z.of_nat (length pre) + Index l comment_close.
Proof.
  induction 1 as [|c pre Hc _ IH]; cbn [app length].
  - destruct (Index l comment_close =? -1) eqn:E; [|lia]. now apply Z.eqb_eq in E.
  - rewrite Index_close_cons, Hc, IH. cbn [andb].
    pose proof (Index_close_bounds l).
    destruct (Index l comment_close =? -1) eqn:E; [reflexivity|].
    apply Z.eqb_neq in E.
    destruct (_ =? -1) eqn:E2; [apply Z.eqb_eq in E2; lia|]. lia.
Qed.

Lemma is_star_ascii a : is_star (byte_of_ascii a) = Ascii.eqb a "*".
Proof. destruct a as [[] [] [] [] [] [] [] []]; reflexivity. Qed.

Lemma is_slash_ascii a : is_slash (byte_of_ascii a) = Ascii.eqb a "/".
Proof. destruct a as [[] [] [] [] [] [] [] []]; reflexivity. Qed.

Lemma replace_comment_close_pair a b s :
  replace_comment_close (String a (String b s))
  = if Ascii.eqb a "*" && Ascii.eqb b "/"
    then "<star>/" +:+ replace_comment_close s
    else String a (replace_comment_close (String b s)).
Proof. reflexivity. Qed.

(** The replaced text begins with the first character of the text, or
    with the bracket of the replacement. *)
Lemma replace_comment_close_head b s :
  exists rest,
    replace_comment_close (String b s) = String b rest
    \/ replace_comment_close (String b s) = String "<" rest.
Proof.
  cbn [replace_comment_close]. destruct s as [|c s']; [eauto|].
  destruct (Ascii.eqb b "*" && Ascii.eqb c "/"); eauto.
Qed.

(** No comment close begins inside the replaced text. *)
Lemma Index_replace_comment_close (n : nat) :
  forall s t,
    (String.length s <= n)%nat -> starts_with_slash t = false ->
    Index (bytes_of (replace_comment_close s) ++ t) comment_close
    = if Index t comment_close =? -1 then -1
      else Z.of_nat (length (bytes_of (replace_comment_close s)))
           + Index t comment_close.
Proof.
  induction n as [|n IH]; intros s t Hlen Ht.
  - destruct s; [|cbn in Hlen; lia].
    change (bytes_of (replace_comment_close "")) with (@nil byte).
    cbn [app length]. destruct (Index t comment_close =? -1) eqn:E; [|lia].
    now apply Z.eqb_eq in E.
  - destruct s as [|a s'].
    { change (bytes_of (replace_comment_close "")) with (@nil byte).
      cbn [app length]. destruct (Index t comment_close =? -1) eqn:E; [|lia].
      now apply Z.eqb_eq in E. }
    destruct s' as [|b s''].
    { cbn [replace_comment_close]. rewrite bytes_of_cons.
      change (bytes_of "") with (@nil byte). cbn [app length].
      rewrite Index_close_cons, Ht, andb_false_r.
      pose proof (Index_close_bounds t).
      destruct (Index t comment_close =? -1) eqn:E; [reflexivity|].
      apply Z.eqb_neq in E. lia. }
    rewrite replace_comment_close_pair.
    destruct (Ascii.eqb a "*" && Ascii.eqb b "/") eqn:Hab.
    + rewrite bytes_of_app, <- app_assoc, length_app.
      change (bytes_of "<star>/")
        with ["<"; "s"; "t"; "a"; "r"; ">"; "/"]%byte.
      cbn [app length].
      assert (Hrec := IH s'' t ltac:(cbn in Hlen; lia) Ht).
      change ("<"%byte :: "s"%byte :: "t"%byte :: "a"%byte :: "r"%byte :: ">"%byte
              :: "/"%byte :: bytes_of (replace_comment_close s'') ++ t)
        with (["<"; "s"; "t"; "a"; "r"; ">"; "/"]%byte
              ++ (bytes_of (replace_comment_close s'') ++ t)).
      rewrite Index_no_star by (repeat constructor).
      rewrite Hrec. pose proof (Index_close_bounds t). cbn [length].
      destruct (Index t comment_close =? -1) eqn:E; [reflexivity|].
      apply Z.eqb_neq in E.
      destruct (_ =? -1) eqn:E2; [apply Z.eqb_eq in E2; lia|]. lia.
    + rewrite bytes_of_cons. cbn [app length].
      assert (Hrec := IH (String b s'') t ltac:(cbn in Hlen |- *; lia) Ht).
      rewrite Index_close_cons, Hrec.
      assert (Hhead : is_star (byte_of_ascii a)
                      && starts_with_slash
                           (bytes_of (replace_comment_close (String b s'')) ++ t)
                      = false).
      { rewrite is_star_ascii. destruct (Ascii.eqb a "*") eqn:Ha; [|reflexivity].
        cbn [andb].
        apply andb_false_iff in Hab as [Hab|Hab]; [discriminate|].
        destruct (replace_comment_close_head b s'') as (rest & [-> | ->]);
          rewrite bytes_of_cons; cbn [app starts_with_slash].
        - now rewrite is_slash_ascii.
        - reflexivity. }
      rewrite Hhead. pose proof (Index_close_bounds t).
      destruct (Index t comment_close =? -1) eqn:E; [reflexivity|].
      apply Z.eqb_neq in E.
      destruct (_ =? -1) eqn:E2; [apply Z.eqb_eq in E2; lia|]. lia.
Qed.

(** X14.  The minifier removes the alternative that [PrintCond] comments
    out, whatever text it holds: in what [PrintCond] prints when the
    condition is false, the first comment close after the opener is the
    one of the format, so minifying that line gives what minifying a
    blank and the other alternative gives. *)
Theorem PrintCond_comment_removed (onTrue onFalse : string) :
  removeWhitespace
    (bytes_of ("/* " +:+ replace_comment_close onTrue +:+ " */ " +:+ onFalse)) true
  = removeWhitespace (bytes_of (" " +:+ onFalse)) true.
Proof.
  set (r := bytes_of (replace_comment_close onTrue)).
  assert (Hbytes : bytes_of ("/* " +:+ replace_comment_close onTrue +:+ " */ " +:+ onFalse)
                   = "/"%byte :: "*"%byte
                     :: (" "%byte :: r ++ " "%byte :: "*"%byte :: "/"%byte
                         :: bytes_of (" " +:+ onFalse))).
  { rewrite !bytes_of_app. subst r. reflexivity. }
  rewrite Hbytes.
  assert (Hidx : Index (" "%byte :: r ++ " "%byte :: "*"%byte :: "/"%byte
                        :: bytes_of (" " +:+ onFalse)) comment_close
                 = Z.of_nat (length r) + 2).
  { change (" "%byte :: r ++ " "%byte :: "*"%byte :: "/"%byte
            :: bytes_of (" " +:+ onFalse))
      with ([" "%byte] ++ (r ++ " "%byte :: "*"%byte :: "/"%byte
                                :: bytes_of (" " +:+ onFalse))).
    rewrite Index_no_star by (repeat constructor). subst r.
    rewrite (Index_replace_comment_close (String.length onTrue) onTrue
               (" "%byte :: "*"%byte :: "/"%byte :: bytes_of (" " +:+ onFalse))
               (le_n _) eq_refl).
    assert (Ht : Index (" "%byte :: "*"%byte :: "/"%byte :: bytes_of (" " +:+ onFalse))
                   comment_close = 1).
    { rewrite Index_close_cons. cbn [is_star byte_is Byte.to_N N.eqb andb].
      rewrite Index_close_cons. reflexivity. }
    rewrite Ht. cbn [Z.eqb length].
    destruct (_ =? -1) eqn:E; [apply Z.eqb_eq in E; lia|]. lia. }
  rewrite (removeWhitespace_reaches _
             (Scan [] "000"%byte (bytes_of (" " +:+ onFalse)))).
  - unfold removeWhitespace, scan_start. reflexivity.
  - eapply scan_reaches_step; [discriminate| |apply scan_reaches_here].
    unfold scan_start. rewrite scan_step_comment by reflexivity. rewrite Hidx.
    rewrite (slice_from_at _ (length r + 6)) by (cbn [length]; try rewrite length_app; cbn [length]; lia).
    cbn [obind]. do 2 f_equal.
    replace (length r + 6)%nat with (3 + (length r + 3))%nat by lia.
    cbn [skipn Nat.add]. rewrite skipn_app, skipn_all2 by lia.
    replace (length r + 3 - length r)%nat with 3%nat by lia. reflexivity.
Qed.
